(** * Mosaic API examples: a shallow embedding of the TypeScript front ends

    The development follows three source files of the repository:

    - [vercel-ai-sdk-example/app/api/chat/route.ts]: the chat route handler
      ([Route]);
    - the components of the same example: the demo page [Home]
      ([unnamed/part_003]), its preview pane [Preview] ([unnamed/part_002])
      and the chat pane [Chat] ([unnamed/part_001]);
    - [create-shorts-post-to-socials/src/App.tsx]: the upload / run / poll
      pipeline of the shorts UI ([App]).

    JavaScript strings that the code only compares or searches are Rocq
    strings; the text that [Preview] rewrites with regular expressions is a
    list of UTF-16 code units, since the character classes of the regular
    expressions are defined on code units. *)

From Stdlib Require Import NArith Lia.
From stdpp Require Import base strings list gmap pretty.

#[local] Open Scope string_scope.

(** ** JavaScript helpers *)

Module Js.

(** [a === b] on two strings. *)
Definition str_eq (a b : string) : bool := String.eqb a b.

(** [hay.includes(needle)]: does [needle] occur as a contiguous substring. *)
Fixpoint includes (needle hay : string) : bool :=
  if String.prefix needle hay then true
  else match hay with
       | EmptyString => false
       | String _ hay' => includes needle hay'
       end.

(** Truthiness of a string ([Boolean(s)], [s || d], [!s]). *)
Definition truthy_str (s : string) : bool := negb (str_eq s "").

(** [s || d] when both operands are strings. *)
Definition or_str (s d : string) : string := if truthy_str s then s else d.

(** [o || d] when [o] may be [undefined]. *)
Definition or_opt (o : option string) (d : string) : string :=
  match o with
  | Some s => or_str s d
  | None => d
  end.

(** A JSON value read from a response body, as far as the code looks at
    it. *)
Inductive value :=
| Undefined
| Null
| Bool (b : bool)
| Num (n : Z)
| Str (s : string).

(** [Boolean(v)] *)
Definition truthy (v : value) : bool :=
  match v with
  | Undefined | Null => false
  | Bool b => b
  | Num n => negb (n =? 0)%Z
  | Str s => truthy_str s
  end.

(** The result of an awaited promise: the [catch] branch receives the thrown
    error, the rest of the [try] block receives the value. *)
Inductive settled (A : Type) : Type :=
| Rejected (error : string)
| Fulfilled (value : A).
#[global] Arguments Rejected {A} error.
#[global] Arguments Fulfilled {A} value.

End Js.

Notation "a === b" := (Js.str_eq a b) (at level 70, no associativity).

(** ** route.ts: the chat route handler *)

Module Route.
Import Js.

Record ToolInvocation := {
  state : string;          (* 'partial-call' | 'call' | 'result' *)
  toolName : string
}.

Record Message := {
  id : string;
  role : string;           (* 'system' | 'user' | 'assistant' | 'data' *)
  content : string;
  toolInvocations : option (list ToolInvocation)   (* optional field *)
}.

(** The callback given to [messages.filter] (route.ts, lines 75-81).  An
    array, even an empty one, is truthy; an absent field is not. *)
Definition keep_message (msg : Message) : bool :=
  match role msg === "assistant", toolInvocations msg with
  | true, Some invs =>
      (* Only include if all tool invocations have results *)
      forallb (fun inv => state inv === "result") invs
  | _, _ => true
  end.

Definition filteredMessages (messages : list Message) : list Message :=
  List.filter keep_message messages.

(** What the [try] block of [POST] talks to: the MCP server.  The client is
    created once and [tools()] is awaited twice (lines 98 and 134). *)
Record mcp_server := {
  createMCPClient : settled unit;
  tools_first : settled (list string);
  tools_second : settled (list string)
}.

Inductive mcp_call := CreateClient | ListTools.

(** The arguments of [streamText]; the system prompt is a fixed literal of
    the source and is not part of the record. *)
Record streamText_args := {
  st_model : string;
  st_messages : list Message;
  st_maxSteps : nat;
  st_tools : list string
}.

Inductive response :=
| DataStream (args : streamText_args)
| JsonResponse (status : nat) (error_field : string).
  (* new Response(JSON.stringify({ error: error_field }), { status }) *)

Record post_result := {
  mcp_calls : list mcp_call;      (* calls made, in order *)
  console_error : list string;    (* console.error lines *)
  reply : response
}.

Definition init_failure (calls : list mcp_call) (error : string) : post_result :=
  {| mcp_calls := calls;
     console_error := ["Error creating MCP client: " +:+ error];
     reply := JsonResponse 500 "Failed to initialize MCP client" |}.

Definition POST (messages : list Message) (srv : mcp_server) : post_result :=
  let filtered := filteredMessages messages in
  match createMCPClient srv with
  | Rejected e => init_failure [CreateClient] e
  | Fulfilled _ =>
      match tools_first srv with
      | Rejected e => init_failure [CreateClient; ListTools] e
      | Fulfilled _ =>
          match tools_second srv with
          | Rejected e => init_failure [CreateClient; ListTools; ListTools] e
          | Fulfilled tools =>
              {| mcp_calls := [CreateClient; ListTools; ListTools];
                 console_error := [];
                 reply := DataStream {| st_model := "gpt-4o";
                                        st_messages := filtered;
                                        st_maxSteps := 10;
                                        st_tools := tools |} |}
          end
      end
  end.

(** One of the awaited MCP calls throws. *)
Definition init_fails (srv : mcp_server) : Prop :=
  (exists err, createMCPClient srv = Rejected err)
  \/ (exists err, tools_first srv = Rejected err)
  \/ (exists err, tools_second srv = Rejected err).

(** The messages that reach the language model, if any call is made. *)
Definition forwarded (r : post_result) : option (list Message) :=
  match reply r with
  | DataStream args => Some (st_messages args)
  | JsonResponse _ _ => None
  end.

End Route.

(** ** The [Home] component: the demo page *)

Module Home.
Import Js Route.
#[local] Open Scope list_scope.

(** The type of the [currentStep] state variable. *)
Inductive step := initial | upload | caption | status.

#[global] Instance step_eq_dec : EqDecision step.
Proof. solve_decision. Defined.

Definition step_eqb (a b : step) : bool := bool_decide (a = b).

(** [messages[messages.length - 1]] *)
Definition lastMessage (messages : list Message) : option Message :=
  last messages.

(** One run of the effect "Track conversation progress" (lines 46-63): the
    value of [currentStep] after the run. *)
Definition trackProgress (messages : list Message) (currentStep : step) : step :=
  match lastMessage messages with
  | None => currentStep
  | Some lastMessage =>
      if step_eqb currentStep initial && (role lastMessage === "assistant")
         && includes "```tsx" (content lastMessage)
      then upload
      else if step_eqb currentStep upload && (role lastMessage === "assistant")
              && includes "uploaded successfully" (content lastMessage)
      then caption
      else if step_eqb currentStep caption && (role lastMessage === "assistant")
              && (includes "Processing" (content lastMessage)
                  || includes "may take" (content lastMessage))
      then status
      else currentStep
  end.

(** The effect lists [[messages, currentStep]] as dependencies: React runs
    it after every render in which one of them changed.  A run that calls
    [setCurrentStep] with a new value causes a render with the same
    [messages] and a changed [currentStep], hence another run.  The list is
    the successive values of [currentStep] until a run leaves it as it is;
    [fuel] bounds the number of runs. *)
Fixpoint rerun (fuel : nat) (messages : list Message) (currentStep : step)
  : list step :=
  match fuel with
  | 0 => []
  | S fuel' =>
      let next := trackProgress messages currentStep in
      if step_eqb next currentStep then []
      else next :: rerun fuel' messages next
  end.

(** The values [currentStep] takes when [useChat] delivers a new [messages]
    array: at most three changes are possible, a fourth run is the one that
    finds nothing to change. *)
Definition onMessages (messages : list Message) (currentStep : step) : list step :=
  rerun 4 messages currentStep.

Definition settle (messages : list Message) (currentStep : step) : step :=
  List.last (onMessages messages currentStep) currentStep.

(** The values of [currentStep] over a conversation: [updates] are the
    successive [messages] arrays that [useChat] delivers. *)
Fixpoint observe (updates : list (list Message)) (currentStep : step)
  : list step :=
  match updates with
  | [] => []
  | messages :: updates' =>
      onMessages messages currentStep
        ++ observe updates' (settle messages currentStep)
  end.

(** The position of a step in initial, upload, caption, status. *)
Definition rank (s : step) : nat :=
  match s with initial => 0 | upload => 1 | caption => 2 | status => 3 end.

End Home.

(** ** The [Preview] component: the two regular expressions of
    [transformCode] *)

Module Regex.
#[local] Open Scope list_scope.

(** A UTF-16 code unit. *)
Definition code_unit := N.

Definition str (s : string) : list code_unit :=
  map Ascii.N_of_ascii (String.list_ascii_of_string s).

(** ECMAScript LineTerminator: LF, CR, LS, PS. *)
Definition is_line_terminator (c : code_unit) : bool :=
  ((c =? 10) || (c =? 13) || (c =? 8232) || (c =? 8233))%N.

(** ECMAScript [\s]: WhiteSpace and LineTerminator. *)
Definition is_white_space (c : code_unit) : bool :=
  ((c =? 9) || (c =? 11) || (c =? 12) || (c =? 32) || (c =? 160)
   || (c =? 5760) || ((8192 <=? c) && (c <=? 8202)) || (c =? 8239)
   || (c =? 8287) || (c =? 12288) || (c =? 65279))%N
  || is_line_terminator c.

Inductive cclass :=
| Lit (c : code_unit)     (* a literal character *)
| Space                   (* \s *)
| Dot.                    (* . without the s flag *)

Definition in_class (cl : cclass) (c : code_unit) : bool :=
  match cl with
  | Lit c' => (c =? c')%N
  | Space => is_white_space c
  | Dot => negb (is_line_terminator c)
  end.

(** The terms the two patterns are made of; every quantifier is applied to
    a single character class. *)
Inductive atom :=
| Bol                     (* ^ with the m flag *)
| Eol                     (* $ with the m flag *)
| One (cl : cclass)
| Opt (cl : cclass)       (* x?  greedy *)
| Star (cl : cclass)      (* x*  greedy *)
| Plus (cl : cclass)      (* x+  greedy *)
| LazyStar (cl : cclass). (* x*? *)

Definition regex := list atom.

Definition lits (s : string) : regex := map (fun c => One (Lit c)) (str s).

(** [^] with the m flag: at the start of the input or after a line
    terminator.  [prev] is the code unit before the current position. *)
Definition at_bol (prev : option code_unit) : bool :=
  match prev with
  | None => true
  | Some c => is_line_terminator c
  end.

(** [$] with the m flag: at the end of the input or before a line
    terminator. *)
Definition at_eol (s : list code_unit) : bool :=
  match s with
  | [] => true
  | c :: _ => is_line_terminator c
  end.

Section Backtracking.
(** The continuation: the rest of the pattern, tried at a position; it
    returns the number of code units it consumed. *)
Variable cl : code_unit -> bool.
Variable k : option code_unit -> list code_unit -> option nat.

(** Greedy repetition: take one more character first, give it back when
    the continuation fails. *)
Fixpoint greedy (prev : option code_unit) (s : list code_unit) : option nat :=
  match s with
  | c :: s' =>
      if cl c then
        match greedy (Some c) s' with
        | Some n => Some (S n)
        | None => k prev s
        end
      else k prev s
  | [] => k prev s
  end.

(** Lazy repetition: try the continuation first, take one more character
    when it fails. *)
Fixpoint lazy (prev : option code_unit) (s : list code_unit) : option nat :=
  match k prev s with
  | Some n => Some n
  | None =>
      match s with
      | c :: s' => if cl c then S <$> lazy (Some c) s' else None
      | [] => None
      end
  end.
End Backtracking.

(** The backtracking matcher of ECMAScript, for a pattern anchored at the
    current position: the length of the match, if there is one. *)
Fixpoint matcher (r : regex) (prev : option code_unit) (s : list code_unit)
  : option nat :=
  match r with
  | [] => Some 0
  | Bol :: r' => if at_bol prev then matcher r' prev s else None
  | Eol :: r' => if at_eol s then matcher r' prev s else None
  | One cl :: r' =>
      match s with
      | c :: s' => if in_class cl c then S <$> matcher r' (Some c) s' else None
      | [] => None
      end
  | Opt cl :: r' =>
      match s with
      | c :: s' =>
          if in_class cl c then
            match matcher r' (Some c) s' with
            | Some n => Some (S n)
            | None => matcher r' prev s
            end
          else matcher r' prev s
      | [] => matcher r' prev s
      end
  | Star cl :: r' => greedy (in_class cl) (matcher r') prev s
  | Plus cl :: r' =>
      match s with
      | c :: s' =>
          if in_class cl c
          then S <$> greedy (in_class cl) (matcher r') (Some c) s'
          else None
      | [] => None
      end
  | LazyStar cl :: r' => lazy (in_class cl) (matcher r') prev s
  end.

(** [String.prototype.replace] with a global pattern and a replacement
    without [$]: every match, searched from the end of the previous one, is
    replaced.  [skip] counts the code units of the current match that are
    still to be dropped. *)
Fixpoint replace_all_from (r : regex) (repl : list code_unit) (skip : nat)
    (prev : option code_unit) (s : list code_unit) : list code_unit :=
  match skip with
  | S skip' =>
      match s with
      | [] => []
      | c :: s' => replace_all_from r repl skip' (Some c) s'
      end
  | 0 =>
      match matcher r prev s with
      | Some (S n) =>
          match s with
          | [] => repl
          | c :: s' => repl ++ replace_all_from r repl n (Some c) s'
          end
      | Some 0 =>
          (* an empty match: the next search starts one code unit later *)
          match s with
          | [] => repl
          | c :: s' => repl ++ c :: replace_all_from r repl 0 (Some c) s'
          end
      | None =>
          match s with
          | [] => []
          | c :: s' => c :: replace_all_from r repl 0 (Some c) s'
          end
      end
  end.

Definition replace_all (r : regex) (repl s : list code_unit) : list code_unit :=
  replace_all_from r repl 0 None s.

(** [replace] with a pattern that has no g flag: the first match only. *)
Fixpoint replace_first_from (r : regex) (repl : list code_unit)
    (prev : option code_unit) (s : list code_unit) : list code_unit :=
  match matcher r prev s with
  | Some n => repl ++ drop n s
  | None =>
      match s with
      | [] => []
      | c :: s' => c :: replace_first_from r repl (Some c) s'
      end
  end.

Definition replace_first (r : regex) (repl s : list code_unit) : list code_unit :=
  replace_first_from r repl None s.

End Regex.

Module Preview.
Import Regex.
#[local] Open Scope list_scope.

(** [/^import\s+.*?;?\s*$/gm] *)
Definition import_re : regex :=
  [Bol] ++ lits "import" ++ [Plus Space; LazyStar Dot; Opt (Lit 59%N); Star Space; Eol].

(** [/export\s+default\s+function/] *)
Definition export_re : regex :=
  lits "export" ++ [Plus Space] ++ lits "default" ++ [Plus Space] ++ lits "function".

(** [transformCode] (lines 58-67). *)
Definition transformCode (code : list code_unit) : list code_unit :=
  let transformed := replace_all import_re [] code in
  let transformed := replace_first export_re (str "function") transformed in
  transformed.

End Preview.

(** ** App.tsx: the shorts UI *)

Module App.
Import Js.
#[local] Open Scope list_scope.

(** *** Types of the component *)

Record VideoFile := {
  vf_id : string;
  vf_name : string;
  vf_downloadUrl : option string;
  vf_path : option string
}.

Inductive status_kind := idle | uploading | processing | completed | error.

Record ProcessingStatus := {
  status : status_kind;
  progress : option N;
  message : option string;
  outputUrls : option (list value)
}.

Inductive ShortType := webinar | talking | prompt.

Record toast_args := {
  title : string;
  description : string;
  variant : option string
}.

(** [import.meta.env] *)
Record environment := {
  VITE_DROPBOX_ACCESS_TOKEN : string;
  VITE_MOSAIC_API_BASE : string;
  VITE_MOSAIC_API_KEY : string;
  VITE_WEBINAR_AGENT_ID : option string;
  VITE_TALKINGHEAD_AGENT_ID : option string
}.

Definition blob := list N.
Definition blob_size (b : blob) : N := N.of_nat (length b).

(** *** The HTTP calls of the component *)

Inductive request :=
| DropboxDownload (accessToken path : string)
    (* POST content.dropboxapi.com/2/files/download *)
| GetUploadUrl (filename : string) (file_size : N) (content_type : string)
    (* POST {base}/video/get-upload-url *)
| PutUpload (upload_url : string) (body : blob) (content_type : string)
    (* PUT upload_url *)
| FinalizeUpload (video_id : string)
    (* POST {base}/video/finalize-upload/{video_id} *)
| RunAgent (file_id : string) (agent_id prompt' : option string) (auto : bool)
    (* POST {base}/run-agent *)
| GetAgentRunSimple (runId : string)
    (* GET {base}/get-agent-run-simple/{runId} *)
| GetAgentRunOutputs (runId : string).
    (* GET {base}/get-agent-run-outputs/{runId} *)

(** What [fetch] gives for the Dropbox download. *)
Inductive fetch_result :=
| NetworkError (msg : string)          (* fetch rejects *)
| NotOk (text : string)                (* response.ok is false *)
| Ok (body : blob).

(** The remote services, as far as one call of [processVideo] sees them:
    each call is made at most once, so a response per request is enough.
    axios rejects on a network failure and on a status outside 2xx. *)
Record server := {
  dropbox_download : string -> string -> fetch_result;
  get_upload_url : string -> N -> string -> settled (string * string);
      (* data.upload_url, data.video_id *)
  put_upload : string -> blob -> settled unit;
  finalize_upload : string -> settled string;        (* data.file_uuid *)
  run_agent : string -> option string -> option string -> bool -> settled string
      (* data.agent_run_id *)
}.

(** The body of get-agent-run-simple and of get-agent-run-outputs. *)
Record status_data := {
  sd_status : string;
  sd_progress : option N
}.

Record output_descriptor := {
  download_url : value
}.

Record outputs_data := {
  outputs : option (list output_descriptor)
}.

(** *** The state of the page *)

Record app := {
  (* React state *)
  selectedVideo : option VideoFile;
  dropboxFiles : list VideoFile;
  shortType : ShortType;
  promptText : string;
  processingStatus : ProcessingStatus;
  mounted : bool;
  (* what the user sees besides the state *)
  toasts : list toast_args;
  console : list string;
  (* requests sent so far, oldest first *)
  sent : list request;
  (* the timers of the window: the next identifier [setInterval] returns,
     the [runId] each poll callback has captured, and the intervals that
     have not been cleared *)
  next_timer : nat;
  closures : gmap nat string;
  intervals : gset nat;
  (* requests of the poll callbacks that have not settled yet, by timer *)
  awaiting_status : list nat;
  awaiting_outputs : list nat
}.

Definition setProcessingStatus (ps : ProcessingStatus) (st : app) : app :=
  {| selectedVideo := selectedVideo st; dropboxFiles := dropboxFiles st;
     shortType := shortType st; promptText := promptText st;
     processingStatus := ps; mounted := mounted st;
     toasts := toasts st; console := console st; sent := sent st;
     next_timer := next_timer st; closures := closures st;
     intervals := intervals st;
     awaiting_status := awaiting_status st;
     awaiting_outputs := awaiting_outputs st |}.

Definition toast (t : toast_args) (st : app) : app :=
  {| selectedVideo := selectedVideo st; dropboxFiles := dropboxFiles st;
     shortType := shortType st; promptText := promptText st;
     processingStatus := processingStatus st; mounted := mounted st;
     toasts := toasts st ++ [t]; console := console st; sent := sent st;
     next_timer := next_timer st; closures := closures st;
     intervals := intervals st;
     awaiting_status := awaiting_status st;
     awaiting_outputs := awaiting_outputs st |}.

(** [console.log] and [console.error] with a label and a value. *)
Definition console_write (label text : string) (st : app) : app :=
  {| selectedVideo := selectedVideo st; dropboxFiles := dropboxFiles st;
     shortType := shortType st; promptText := promptText st;
     processingStatus := processingStatus st; mounted := mounted st;
     toasts := toasts st; console := console st ++ [label +:+ " " +:+ text];
     sent := sent st;
     next_timer := next_timer st; closures := closures st;
     intervals := intervals st;
     awaiting_status := awaiting_status st;
     awaiting_outputs := awaiting_outputs st |}.

(** A request leaves the page. *)
Definition send (r : request) (st : app) : app :=
  {| selectedVideo := selectedVideo st; dropboxFiles := dropboxFiles st;
     shortType := shortType st; promptText := promptText st;
     processingStatus := processingStatus st; mounted := mounted st;
     toasts := toasts st; console := console st; sent := sent st ++ [r];
     next_timer := next_timer st; closures := closures st;
     intervals := intervals st;
     awaiting_status := awaiting_status st;
     awaiting_outputs := awaiting_outputs st |}.

(** [setInterval(callback, 5000)], the callback having captured [runId]. *)
Definition setInterval (runId : string) (st : app) : app :=
  {| selectedVideo := selectedVideo st; dropboxFiles := dropboxFiles st;
     shortType := shortType st; promptText := promptText st;
     processingStatus := processingStatus st; mounted := mounted st;
     toasts := toasts st; console := console st; sent := sent st;
     next_timer := S (next_timer st);
     closures := <[next_timer st := runId]> (closures st);
     intervals := {[next_timer st]} ∪ intervals st;
     awaiting_status := awaiting_status st;
     awaiting_outputs := awaiting_outputs st |}.

Definition clearInterval (t : nat) (st : app) : app :=
  {| selectedVideo := selectedVideo st; dropboxFiles := dropboxFiles st;
     shortType := shortType st; promptText := promptText st;
     processingStatus := processingStatus st; mounted := mounted st;
     toasts := toasts st; console := console st; sent := sent st;
     next_timer := next_timer st; closures := closures st;
     intervals := intervals st ∖ {[t]};
     awaiting_status := awaiting_status st;
     awaiting_outputs := awaiting_outputs st |}.

Definition set_awaiting (ws wo : list nat) (st : app) : app :=
  {| selectedVideo := selectedVideo st; dropboxFiles := dropboxFiles st;
     shortType := shortType st; promptText := promptText st;
     processingStatus := processingStatus st; mounted := mounted st;
     toasts := toasts st; console := console st; sent := sent st;
     next_timer := next_timer st; closures := closures st;
     intervals := intervals st;
     awaiting_status := ws; awaiting_outputs := wo |}.

Definition set_mounted (b : bool) (st : app) : app :=
  {| selectedVideo := selectedVideo st; dropboxFiles := dropboxFiles st;
     shortType := shortType st; promptText := promptText st;
     processingStatus := processingStatus st; mounted := b;
     toasts := toasts st; console := console st; sent := sent st;
     next_timer := next_timer st; closures := closures st;
     intervals := intervals st;
     awaiting_status := awaiting_status st;
     awaiting_outputs := awaiting_outputs st |}.

Definition set_inputs (selected : option VideoFile) (files : list VideoFile)
    (ty : ShortType) (text : string) (st : app) : app :=
  {| selectedVideo := selected; dropboxFiles := files;
     shortType := ty; promptText := text;
     processingStatus := processingStatus st; mounted := mounted st;
     toasts := toasts st; console := console st; sent := sent st;
     next_timer := next_timer st; closures := closures st;
     intervals := intervals st;
     awaiting_status := awaiting_status st;
     awaiting_outputs := awaiting_outputs st |}.

(** *** [processVideo], lines 150-347 *)

(** A block of awaited calls inside [try]: it runs on the state and either
    completes or throws. *)
Definition block (A : Type) : Type := app -> settled A * app.

#[local] Instance block_ret : MRet block :=
  fun A a st => (Fulfilled a, st).

#[local] Instance block_bind : MBind block :=
  fun A B f m st =>
    match m st with
    | (Fulfilled a, st') => f a st'
    | (Rejected e, st') => (Rejected e, st')
    end.

(** [await axios(...)]: the request is sent, the response is the value or
    the exception. *)
Definition await {A} (r : request) (response : settled A) : block A :=
  fun st => (response, send r st).

(** A statement that cannot throw. *)
Definition exec (f : app -> app) : block unit :=
  fun st => (Fulfilled tt, f st).

Definition status_only (k : status_kind) : ProcessingStatus :=
  {| status := k; progress := None; message := None; outputUrls := None |}.

Definition status_message (k : status_kind) (m : string) : ProcessingStatus :=
  {| status := k; progress := None; message := Some m; outputUrls := None |}.

(** Lines 177-204: the Dropbox download with its own [try]/[catch]; the
    error that reaches the [catch] carries a message. *)
Definition download (e : environment) (srv : server) (filePath : string)
  : block blob :=
  fun st =>
    let st := send (DropboxDownload (VITE_DROPBOX_ACCESS_TOKEN e) filePath) st in
    match dropbox_download srv (VITE_DROPBOX_ACCESS_TOKEN e) filePath with
    | NetworkError msg => (Rejected msg, st)
    | NotOk errorText =>
        (Rejected (or_str errorText "Failed to download from Dropbox"),
         console_write "Dropbox error details:" errorText st)
    | Ok videoBlob => (Fulfilled videoBlob, st)
    end.

(** Lines 249-260: [agentId], [prompt] and [auto]. *)
Definition agent_choice (e : environment) (ty : ShortType) (text : string)
  : option string * option string * bool :=
  match ty with
  | webinar => (VITE_WEBINAR_AGENT_ID e, None, false)
  | talking => (VITE_TALKINGHEAD_AGENT_ID e, None, false)
  | prompt =>
      (None,
       Some (or_str text
         "make this an interesting short, add captions, and add in some background ai music"),
       true)
  end.

(** Lines 206-333: from the upload URL to the creation of the poll timer. *)
Definition upload_and_run (e : environment) (srv : server)
    (selected : VideoFile) (ty : ShortType) (text : string) (videoBlob : blob)
  : block unit :=
  let fileSize := blob_size videoBlob in
  (* Step 1: Get upload URL from Mosaic *)
  '(upload_url, video_id) ←
     await (GetUploadUrl (vf_name selected) fileSize "video/mp4")
           (get_upload_url srv (vf_name selected) fileSize "video/mp4");
  (* Step 2: Upload to Mosaic *)
  _ ← await (PutUpload upload_url videoBlob "video/mp4")
            (put_upload srv upload_url videoBlob);
  (* Step 3: Finalize upload *)
  fileId ← await (FinalizeUpload video_id) (finalize_upload srv video_id);
  (* Step 4: Run agent with prompt OR agent id *)
  _ ← exec (setProcessingStatus
              (status_message processing "Creating your short video..."));
  let '(agentId, prompt', auto) := agent_choice e ty text in
  runId ← await (RunAgent fileId agentId prompt' auto)
                (run_agent srv fileId agentId prompt' auto);
  (* Step 5: Poll for completion *)
  exec (setInterval runId).

Definition processVideo (e : environment) (srv : server) (st : app) : app :=
  match selectedVideo st with
  | None => st
  | Some selected =>
      let st := setProcessingStatus
                  (status_message uploading "Uploading video to Mosaic...") st in
      match List.find (fun f => vf_id f === vf_id selected) (dropboxFiles st) with
      | None =>
          setProcessingStatus (status_only idle)
            (toast {| title := "Error";
                      description := "File information not found";
                      variant := Some "destructive" |} st)
      | Some dropboxFile =>
          let filePath := or_opt (vf_path dropboxFile) (vf_name dropboxFile) in
          let st := console_write "Downloading Dropbox file:" filePath st in
          match download e srv filePath st with
          | (Rejected msg, st) =>
              let st := console_write "Dropbox download error:" msg st in
              setProcessingStatus (status_only idle)
                (toast {| title := "Download Error";
                          description := or_str msg "Failed to download from Dropbox";
                          variant := Some "destructive" |} st)
          | (Fulfilled videoBlob, st) =>
              match upload_and_run e srv selected (shortType st) (promptText st)
                      videoBlob st with
              | (Fulfilled _, st) => st
              | (Rejected err, st) =>
                  let st := console_write "Processing error:" err st in
                  let st := setProcessingStatus
                              (status_message error
                                 "An error occurred during processing") st in
                  toast {| title := "Processing Error";
                           description := "Failed to process video. Please try again.";
                           variant := Some "destructive" |} st
              end
          end
      end
  end.

(** *** The poll callback, lines 281-333 *)

(** What happens on the page: the user picks a video, a short type or a
    prompt; the user presses the process button (the services then answer
    as [srv] says); an interval fires; a request of a poll callback
    settles; React unmounts the component.

    [processVideo] awaits its responses one after the other, and it is one
    event here: the values it reads were captured when the handler was
    created, it is the only writer of the processing status while it runs,
    and the button that starts it is enabled only in the idle state. *)
Inductive event :=
| Edit (selected : option VideoFile) (files : list VideoFile)
       (ty : ShortType) (text : string)
| Click (srv : server)
| Tick (timer : nat)
| StatusSettled (timer : nat) (response : settled status_data)
| OutputsSettled (timer : nat) (response : settled outputs_data)
| Unmount.

(** Lines 307-309. *)
Definition collect_urls (d : outputs_data) : list value :=
  List.filter truthy (map download_url (default [] (outputs d))).

Fixpoint remove_one (t : nat) (l : list nat) : list nat :=
  match l with
  | [] => []
  | x :: l' => if decide (x = t) then l' else x :: remove_one t l'
  end.

(** The callback up to its first [await]: the status request is sent. *)
Definition poll_tick (t : nat) (runId : string) (st : app) : app :=
  let st := send (GetAgentRunSimple runId) st in
  set_awaiting (awaiting_status st ++ [t]) (awaiting_outputs st) st.

(** The callback from the status response to its second [await] or to its
    end. *)
Definition poll_status (t : nat) (runId : string) (r : settled status_data)
    (st : app) : app :=
  let st := set_awaiting (remove_one t (awaiting_status st)) (awaiting_outputs st) st in
  match r with
  | Fulfilled d =>
      if sd_status d === "success" then
        let st := clearInterval t st in
        let st := send (GetAgentRunOutputs runId) st in
        set_awaiting (awaiting_status st) (awaiting_outputs st ++ [t]) st
      else if sd_status d === "failed" then
        let st := clearInterval t st in
        setProcessingStatus
          (status_message error "Processing failed. Please try again.") st
      else
        setProcessingStatus
          {| status := processing;
             progress := sd_progress d;
             message := Some ("Processing... "
                              +:+ pretty (default 0%N (sd_progress d)) +:+ "%");
             outputUrls := None |} st
  | Rejected err =>
      let st := clearInterval t st in
      console_write "Polling error:" err st
  end.

(** The callback from the outputs response to its end. *)
Definition poll_outputs (t : nat) (r : settled outputs_data) (st : app) : app :=
  let st := set_awaiting (awaiting_status st) (remove_one t (awaiting_outputs st)) st in
  match r with
  | Fulfilled d =>
      setProcessingStatus
        {| status := completed;
           progress := None;
           message := Some "Video processed successfully!";
           outputUrls := Some (collect_urls d) |} st
  | Rejected err =>
      let st := clearInterval t st in
      console_write "Polling error:" err st
  end.

(** The component registers one effect (lines 47-49), which returns no
    cleanup function; on unmount React runs the cleanup functions of the
    effects. *)
Definition effect_cleanups : list (app -> app) := [].

Definition unmount (st : app) : app :=
  foldl (fun st cleanup => cleanup st) (set_mounted false st) effect_cleanups.

(** The process button, lines 451-455:
    [disabled={!selectedVideo || processingStatus.status !== 'idle'}]. *)
Definition button_enabled (st : app) : bool :=
  match selectedVideo st, status (processingStatus st) with
  | Some _, idle => true
  | _, _ => false
  end.

(** One event on the page; [None] when the event cannot happen in that
    state: an unmounted component takes no input, a disabled button is not
    pressed, a cleared interval does not fire, and only a request that is
    on its way can settle. *)
Definition step (e : environment) (st : app) (ev : event) : option app :=
  match ev with
  | Edit selected files ty text =>
      if mounted st then Some (set_inputs selected files ty text st) else None
  | Click srv =>
      if mounted st && button_enabled st then Some (processVideo e srv st)
      else None
  | Tick t =>
      if decide (t ∈ intervals st) then
        runId ← closures st !! t; Some (poll_tick t runId st)
      else None
  | StatusSettled t r =>
      if decide (t ∈ awaiting_status st) then
        runId ← closures st !! t; Some (poll_status t runId r st)
      else None
  | OutputsSettled t r =>
      if decide (t ∈ awaiting_outputs st) then Some (poll_outputs t r st)
      else None
  | Unmount => Some (unmount st)
  end.

Fixpoint run (e : environment) (st : app) (evs : list event) : option app :=
  match evs with
  | [] => Some st
  | ev :: evs' => st' ← step e st ev; run e st' evs'
  end.

(** The requests sent between two states of the page. *)
Definition sent_since (st st' : app) : list request :=
  drop (length (sent st)) (sent st').

(** The page as it is loaded (the initial values of the [useState] calls,
    lines 37-43). *)
Definition start : app :=
  {| selectedVideo := None; dropboxFiles := [];
     shortType := webinar; promptText := "";
     processingStatus := status_only idle; mounted := true;
     toasts := []; console := []; sent := [];
     next_timer := 1; closures := ∅; intervals := ∅;
     awaiting_status := []; awaiting_outputs := [] |}.

(** The order of the calls of the pipeline. *)
Definition phase (r : request) : nat :=
  match r with
  | DropboxDownload _ _ => 0
  | GetUploadUrl _ _ _ => 1
  | PutUpload _ _ _ => 2
  | FinalizeUpload _ => 3
  | RunAgent _ _ _ _ => 4
  | GetAgentRunSimple _ => 5
  | GetAgentRunOutputs _ => 6
  end.

Definition is_status_request (r : request) : bool :=
  match r with GetAgentRunSimple _ => true | _ => false end.

Definition is_outputs_request (r : request) : bool :=
  match r with GetAgentRunOutputs _ => true | _ => false end.

(** The response of the services to a request of [processVideo] is a
    failure. *)
Definition fails (srv : server) (r : request) : Prop :=
  match r with
  | DropboxDownload token path =>
      match dropbox_download srv token path with Ok _ => False | _ => True end
  | GetUploadUrl name size ty =>
      match get_upload_url srv name size ty with Rejected _ => True | _ => False end
  | PutUpload url body _ =>
      match put_upload srv url body with Rejected _ => True | _ => False end
  | FinalizeUpload vid =>
      match finalize_upload srv vid with Rejected _ => True | _ => False end
  | RunAgent fid a p au =>
      match run_agent srv fid a p au with Rejected _ => True | _ => False end
  | GetAgentRunSimple _ | GetAgentRunOutputs _ => False
  end.

End App.

(** ** The [Chat] component: the scroll timeout and its teardown *)

Module Chat.

Record chat := {
  isUserScrolling : bool;
  scrollTimeoutRef : option nat;     (* scrollTimeoutRef.current *)
  lastScrollPositionRef : Z;
  (* the timeouts of the window that are still to fire *)
  next_timeout : nat;
  timeouts : gset nat
}.

Definition clearTimeout (t : nat) (c : chat) : chat :=
  {| isUserScrolling := isUserScrolling c;
     scrollTimeoutRef := scrollTimeoutRef c;
     lastScrollPositionRef := lastScrollPositionRef c;
     next_timeout := next_timeout c;
     timeouts := timeouts c ∖ {[t]} |}.

(** [if (scrollTimeoutRef.current) clearTimeout(scrollTimeoutRef.current)];
    the identifiers of timeouts are positive, so a stored one is truthy. *)
Definition clear_scroll_timeout (c : chat) : chat :=
  match scrollTimeoutRef c with
  | Some t => clearTimeout t c
  | None => c
  end.

(** [scrollTimeoutRef.current = setTimeout(..., 2000)] *)
Definition set_scroll_timeout (c : chat) : chat :=
  {| isUserScrolling := isUserScrolling c;
     scrollTimeoutRef := Some (next_timeout c);
     lastScrollPositionRef := lastScrollPositionRef c;
     next_timeout := S (next_timeout c);
     timeouts := {[next_timeout c]} ∪ timeouts c |}.

Definition setIsUserScrolling (b : bool) (c : chat) : chat :=
  {| isUserScrolling := b;
     scrollTimeoutRef := scrollTimeoutRef c;
     lastScrollPositionRef := lastScrollPositionRef c;
     next_timeout := next_timeout c;
     timeouts := timeouts c |}.

(** [handleScroll] (lines 29-59) on a mounted scroll container. *)
Definition handleScroll (scrollTop scrollHeight clientHeight : Z) (c : chat)
  : chat :=
  let isAtBottom := (Z.abs (scrollHeight - clientHeight - scrollTop) <? 10)%Z in
  let c :=
    if negb isAtBottom && (scrollTop <? lastScrollPositionRef c)%Z
    then set_scroll_timeout (clear_scroll_timeout (setIsUserScrolling true c))
    else c in
  let c :=
    if isAtBottom
    then clear_scroll_timeout (setIsUserScrolling false c)
    else c in
  {| isUserScrolling := isUserScrolling c;
     scrollTimeoutRef := scrollTimeoutRef c;
     lastScrollPositionRef := scrollTop;
     next_timeout := next_timeout c;
     timeouts := timeouts c |}.

(** The cleanup function of the last effect (lines 73-79), which React runs
    when the component is unmounted. *)
Definition unmount (c : chat) : chat := clear_scroll_timeout c.

End Chat.

(** ** Notions the statements are written with *)

Module Spec.
Import Js Route.
#[local] Open Scope list_scope.

(** [kept P l l']: [l'] consists of exactly the elements of [l] that satisfy
    [P], each as often as in [l] and in the order of [l]. *)
Inductive kept {A : Type} (P : A -> Prop) : list A -> list A -> Prop :=
| kept_nil : kept P [] []
| kept_take x l l' : P x -> kept P l l' -> kept P (x :: l) (x :: l')
| kept_skip x l l' : ~ P x -> kept P l l' -> kept P (x :: l) l'.

(** A message that is not an assistant message with an incomplete tool
    invocation: with a [toolInvocations] list and the assistant role, every
    invocation has state 'result'. *)
Definition complete (msg : Message) : Prop :=
  match toolInvocations msg with
  | Some invs =>
      role msg = "assistant" -> Forall (fun inv => state inv = "result") invs
  | None => True
  end.

(** Each value of a list is the successor of the one before it. *)
Fixpoint stepwise (cur : Home.step) (l : list Home.step) : Prop :=
  match l with
  | [] => True
  | next :: l' => Home.rank next = S (Home.rank cur) /\ stepwise next l'
  end.

(** "At most one step per observed message": after a new [messages] array
    has been taken in, [currentStep] is where it was or one step further. *)
Definition one_step_per_message (messages : list Message) (cur : Home.step)
  : Prop :=
  Home.rank (Home.settle messages cur) <= S (Home.rank cur).

(** The output descriptors of an outputs response. *)
Definition descriptors (d : App.outputs_data) : list App.output_descriptor :=
  default [] (App.outputs d).

(** "Exactly one URL per output descriptor, in the same order". *)
Definition one_url_per_descriptor (d : App.outputs_data) : Prop :=
  App.collect_urls d = map App.download_url (descriptors d).

(** *** The preview *)

(** [strip w s]: [s] without its prefix [w], when [w] is a prefix of [s]. *)
Fixpoint strip (w s : list Regex.code_unit) : option (list Regex.code_unit) :=
  match w with
  | [] => Some s
  | a :: w' =>
      match s with
      | c :: s' => if (c =? a)%N then strip w' s' else None
      | [] => None
      end
  end.

(** A continuation of the matcher that only stops inside the input and
    where [Q] holds of the rest. *)
Definition ends (Q : list Regex.code_unit -> Prop)
    (k : option Regex.code_unit -> list Regex.code_unit -> option nat) : Prop :=
  forall prev s n, k prev s = Some n -> n <= length s /\ Q (drop n s).

(** A continuation of the matcher that only stops inside the input and
    after a word of [L]. *)
Definition yields (L : list Regex.code_unit -> Prop)
    (k : option Regex.code_unit -> list Regex.code_unit -> option nat) : Prop :=
  forall prev s n, k prev s = Some n -> n <= length s /\ L (take n s).

(** The words of a pattern, the two anchors left aside: what a match of the
    pattern can consist of. *)
Inductive matches : Regex.regex -> list Regex.code_unit -> Prop :=
| m_end : matches [] []
| m_bol r w : matches r w -> matches (Regex.Bol :: r) w
| m_eol r w : matches r w -> matches (Regex.Eol :: r) w
| m_one cl c r w :
    Regex.in_class cl c = true -> matches r w ->
    matches (Regex.One cl :: r) (c :: w)
| m_opt_one cl c r w :
    Regex.in_class cl c = true -> matches r w ->
    matches (Regex.Opt cl :: r) (c :: w)
| m_opt_none cl r w : matches r w -> matches (Regex.Opt cl :: r) w
| m_star cl u r w :
    Forall (fun c => Regex.in_class cl c = true) u -> matches r w ->
    matches (Regex.Star cl :: r) (u ++ w)
| m_plus cl c u r w :
    Regex.in_class cl c = true ->
    Forall (fun c => Regex.in_class cl c = true) u -> matches r w ->
    matches (Regex.Plus cl :: r) (c :: u ++ w)
| m_lazy cl u r w :
    Forall (fun c => Regex.in_class cl c = true) u -> matches r w ->
    matches (Regex.LazyStar cl :: r) (u ++ w).

(** An import begins here: the position is the start of a line, and the
    text goes on with [import] and a white space character. *)
Definition starts_import (prev : option Regex.code_unit)
    (s : list Regex.code_unit) : bool :=
  Regex.at_bol prev
  && match strip (Regex.str "import") s with
     | Some (c :: _) => Regex.is_white_space c
     | _ => false
     end.

(** [imports_removed prev s out]: [out] is [s] without certain segments.
    Each removed segment is a word of the import pattern that begins at the
    start of a line and ends at the end of a line; outside the segments
    every character is kept, in order, and no import begins at a kept
    character. *)
Inductive imports_removed :
  option Regex.code_unit -> list Regex.code_unit -> list Regex.code_unit -> Prop :=
| ir_end prev : imports_removed prev [] []
| ir_keep prev c s out :
    starts_import prev (c :: s) = false ->
    imports_removed (Some c) s out ->
    imports_removed prev (c :: s) (c :: out)
| ir_drop prev seg rest out :
    Regex.at_bol prev = true ->
    matches Preview.import_re seg ->
    Regex.at_eol rest = true ->
    imports_removed (last seg) rest out ->
    imports_removed prev (seg ++ rest) out.

(** The white space at the start of [s]: its length and what follows. *)
Fixpoint span_ws (s : list Regex.code_unit) : nat * list Regex.code_unit :=
  match s with
  | c :: s' =>
      if Regex.is_white_space c
      then let '(n, rest) := span_ws s' in (S n, rest)
      else (0, s)
  | [] => (0, [])
  end.

(** At least one white space character. *)
Definition spaces1 (s : list Regex.code_unit)
  : option (nat * list Regex.code_unit) :=
  match s with
  | c :: s' =>
      if Regex.is_white_space c
      then let '(n, rest) := span_ws s' in Some (S n, rest)
      else None
  | [] => None
  end.

(** [s] begins with [export], white space, [default], white space,
    [function]: the length of that phrase. *)
Definition export_here (s : list Regex.code_unit) : option nat :=
  s1 ← strip (Regex.str "export") s;
  '(n1, s2) ← spaces1 s1;
  s3 ← strip (Regex.str "default") s2;
  '(n2, s4) ← spaces1 s3;
  _ ← strip (Regex.str "function") s4;
  Some (6 + n1 + 7 + n2 + 8).

(** The first such phrase is replaced by [function]. *)
Fixpoint rewrite_export (s : list Regex.code_unit) : list Regex.code_unit :=
  match export_here s with
  | Some n => Regex.str "function" ++ drop n s
  | None =>
      match s with
      | [] => []
      | c :: s' => c :: rewrite_export s'
      end
  end.

(** *** The import that begins at a position *)

(** The white space at the start of [s] that ends a line: the length of the
    longest run of white space after which the text ends or a line
    terminator follows, if there is such a run. *)
Fixpoint line_end_space (s : list Regex.code_unit) : option nat :=
  match s with
  | [] => Some 0
  | c :: s' =>
      if Regex.is_white_space c then
        match line_end_space s' with
        | Some n => Some (S n)
        | None => if Regex.is_line_terminator c then Some 0 else None
        end
      else None
  end.

(** The end of a statement at the start of [s]: a semicolon, when one is
    there and a line can end after it, and the white space that ends the
    line. *)
Definition statement_end (s : list Regex.code_unit) : option nat :=
  match s with
  | c :: s' =>
      if (c =? 59)%N then
        match line_end_space s' with
        | Some n => Some (S n)
        | None => line_end_space s
        end
      else line_end_space s
  | [] => line_end_space s
  end.

(** The statement at the start of [s]: the fewest characters after which it
    can end, and its end. *)
Fixpoint statement_len (s : list Regex.code_unit) : nat :=
  match statement_end s with
  | Some n => n
  | None =>
      match s with
      | _ :: s' => S (statement_len s')
      | [] => 0
      end
  end.

(** The length of the import at the start of [s], where an import begins:
    [import], all the white space after it, and the statement. *)
Definition import_len (s : list Regex.code_unit) : nat :=
  let '(w, rest) := span_ws (drop 6 s) in 6 + w + statement_len rest.

(** The text without its imports; [skip] counts what is left to remove of
    the import that is being removed. *)
Fixpoint without_imports (skip : nat) (prev : option Regex.code_unit)
    (s : list Regex.code_unit) : list Regex.code_unit :=
  match s with
  | [] => []
  | c :: s' =>
      match skip with
      | S skip' => without_imports skip' (Some c) s'
      | 0 =>
          if starts_import prev s
          then without_imports (import_len s - 1) (Some c) s'
          else c :: without_imports 0 (Some c) s'
      end
  end.

(** No import begins anywhere in [s]. *)
Fixpoint import_free (prev : option Regex.code_unit)
    (s : list Regex.code_unit) : bool :=
  negb (starts_import prev s)
  && match s with
     | [] => true
     | c :: s' => import_free (Some c) s'
     end.

(** No export-default function occurs in [s]. *)
Fixpoint export_free (s : list Regex.code_unit) : bool :=
  match export_here s with
  | Some _ => false
  | None =>
      match s with
      | [] => true
      | _ :: s' => export_free s'
      end
  end.

(** The claim as it is worded, line by line: the lines are the pieces
    between line feeds, a line is an import statement when an import begins
    it, and such lines are removed; either with their line feed
    ([claimed_removing]) or leaving an empty line ([claimed_blanking]). *)
Fixpoint split_lines (s : list Regex.code_unit) : list (list Regex.code_unit) :=
  match s with
  | [] => [[]]
  | c :: s' =>
      if (c =? 10)%N then [] :: split_lines s'
      else match split_lines s' with
           | l :: ls => (c :: l) :: ls
           | [] => [[c]]
           end
  end.

Fixpoint join_lines (ls : list (list Regex.code_unit)) : list Regex.code_unit :=
  match ls with
  | [] => []
  | [l] => l
  | l :: ls' => l ++ 10%N :: join_lines ls'
  end.

Definition import_line (l : list Regex.code_unit) : bool := starts_import None l.

Definition claimed_removing (code : list Regex.code_unit) : list Regex.code_unit :=
  rewrite_export
    (join_lines (List.filter (fun l => negb (import_line l)) (split_lines code))).

Definition claimed_blanking (code : list Regex.code_unit) : list Regex.code_unit :=
  rewrite_export
    (join_lines (map (fun l => if import_line l then [] else l) (split_lines code))).

(** *** The page of the shorts UI *)

(** The terminal values of the run status. *)
Definition terminal (status : string) : Prop :=
  status = "success" \/ status = "failed".

(** The states the page can be in: what a sequence of events leads to from
    the page as loaded. *)
Definition reachable (e : App.environment) (st : App.app) : Prop :=
  exists evs, App.run e App.start evs = Some st.

(** What holds of every state of the page: an interval that has not been
    cleared and a request that is on its way belong to a poll callback that
    exists; there is at most one such callback; and while the status is
    idle there is none. *)
Record invariant (st : App.app) : Prop := {
  inv_intervals :
    forall t, t ∈ App.intervals st -> is_Some (App.closures st !! t);
  inv_single :
    forall t1 t2, is_Some (App.closures st !! t1) ->
                  is_Some (App.closures st !! t2) -> t1 = t2;
  inv_idle :
    App.status (App.processingStatus st) = App.idle ->
    forall t, App.closures st !! t = None;
  inv_status :
    forall t, t ∈ App.awaiting_status st -> is_Some (App.closures st !! t);
  inv_outputs :
    forall t, t ∈ App.awaiting_outputs st -> is_Some (App.closures st !! t)
}.

(** The job of the page is over: a poll callback exists and no interval is
    left. *)
Definition finished (st : App.app) : Prop :=
  (forall t, t ∉ App.intervals st)
  /\ exists t, is_Some (App.closures st !! t).

(** An event in which the server reports no terminal status and no request
    of a poll callback fails. *)
Definition calm (ev : App.event) : Prop :=
  match ev with
  | App.StatusSettled _ (Js.Fulfilled d) => ~ terminal (App.sd_status d)
  | App.StatusSettled _ (Js.Rejected _) => False
  | App.OutputsSettled _ (Js.Rejected _) => False
  | _ => True
  end.

(** [n] rounds of polling: the interval fires and the server answers [d]. *)
Fixpoint poll_rounds (t : nat) (d : App.status_data) (n : nat)
  : list App.event :=
  match n with
  | 0 => []
  | S n' =>
      App.Tick t :: App.StatusSettled t (Js.Fulfilled d) :: poll_rounds t d n'
  end.

(** "Unmounting the component while a job is in flight clears its poll
    timer". *)
Definition unmount_clears_timers (st : App.app) : Prop :=
  forall t, t ∉ App.intervals (App.unmount st).

End Spec.

(** ** Concrete inputs *)

Module Samples.
Import Js Route.
#[local] Open Scope list_scope.

(** An assistant message that carries the page, the upload confirmation and
    the processing notice at once. *)
Definition eager_message : Message :=
  {| id := "msg-2";
     role := "assistant";
     content := "Video uploaded successfully! Processing your video. ```tsx export default function Landing() {} ```";
     toolInvocations := None |}.

Definition three_outputs : App.outputs_data :=
  {| App.outputs := Some [ {| App.download_url := Str "https://cdn.example/a.mp4" |};
                           {| App.download_url := Undefined |};
                           {| App.download_url := Str "https://cdn.example/b.mp4" |} ] |}.

Definition two_outputs : App.outputs_data :=
  {| App.outputs := Some [ {| App.download_url := Str "https://cdn.example/a.mp4" |};
                           {| App.download_url := Str "https://cdn.example/b.mp4" |} ] |}.

(** An import line, a line with a tab only, and a line of code. *)
Definition import_then_tab_line : list Regex.code_unit :=
  Regex.str "import a;" ++ [10; 9; 10]%N ++ Regex.str "const x = 1;".

(** The word [import] alone on its line, an empty line, a statement and a
    line of code. *)
Definition import_alone_on_its_line : list Regex.code_unit :=
  Regex.str "import" ++ [10; 10]%N ++ Regex.str "foo;" ++ [10]%N
  ++ Regex.str "bar".

(** A component without imports and without a default export. *)
Definition plain_component : list Regex.code_unit :=
  Regex.str "function Landing() { return null; }".

(** What the model usually answers with. *)
Definition generated_page : list Regex.code_unit :=
  Regex.str "import React from 'react';" ++ [10; 10]%N
  ++ Regex.str "export default function Landing() { return null; }".

Definition env : App.environment :=
  {| App.VITE_DROPBOX_ACCESS_TOKEN := "sl.token";
     App.VITE_MOSAIC_API_BASE := "https://api.example";
     App.VITE_MOSAIC_API_KEY := "mk_key";
     App.VITE_WEBINAR_AGENT_ID := Some "agent-webinar";
     App.VITE_TALKINGHEAD_AGENT_ID := Some "agent-talking" |}.

Definition clip : App.VideoFile :=
  {| App.vf_id := "id:clip";
     App.vf_name := "/talks/clip.mp4";
     App.vf_downloadUrl := Some "id:clip";
     App.vf_path := Some "/talks/clip.mp4" |}.

Definition clip_bytes : App.blob := [0; 0; 0; 24]%N.

(** Services that answer every call of the pipeline. *)
Definition good_server : App.server :=
  {| App.dropbox_download := fun _ _ => App.Ok clip_bytes;
     App.get_upload_url := fun _ _ _ => Fulfilled ("https://upload.example/put", "video-7");
     App.put_upload := fun _ _ => Fulfilled tt;
     App.finalize_upload := fun _ => Fulfilled "file-uuid-7";
     App.run_agent := fun _ _ _ _ => Fulfilled "run-42" |}.

(** Services whose finalize call fails. *)
Definition bad_finalize_server : App.server :=
  {| App.dropbox_download := fun _ _ => App.Ok clip_bytes;
     App.get_upload_url := fun _ _ _ => Fulfilled ("https://upload.example/put", "video-7");
     App.put_upload := fun _ _ => Fulfilled tt;
     App.finalize_upload := fun _ => Rejected "Request failed with status code 503";
     App.run_agent := fun _ _ _ _ => Fulfilled "run-42" |}.

(** The user has listed the Dropbox files and picked the clip. *)
Definition pick_clip : App.event :=
  App.Edit (Some clip) [clip] App.webinar "".

Definition picked : App.app :=
  App.set_inputs (Some clip) [clip] App.webinar "" App.start.

(** The page after the button was pressed and the run was submitted. *)
Definition polling : App.app := App.processVideo env good_server picked.

(** The page after the first tick of the poll timer. *)
Definition polled : App.app := App.poll_tick 1 "run-42" polling.

Definition still_processing : App.status_data :=
  {| App.sd_status := "processing"; App.sd_progress := Some 40%N |}.

Definition succeeded : App.status_data :=
  {| App.sd_status := "success"; App.sd_progress := Some 100%N |}.

Definition failed_run : App.status_data :=
  {| App.sd_status := "failed"; App.sd_progress := None |}.

End Samples.

(** ** App.tsx: the list of Dropbox files *)

Module Files.
Import Js App.
#[local] Open Scope list_scope.

(** [s.endsWith(suffix)] *)
Fixpoint ends_with (suffix s : string) : bool :=
  if suffix === s then true
  else match s with
       | EmptyString => false
       | String _ s' => ends_with suffix s'
       end.

(** An entry of a list_folder response, as far as the code reads it. *)
Record entry := {
  tag : string;                    (* entry['.tag'] *)
  entry_id : string;
  entry_name : string;
  path_display : option string;
  path_lower : option string
}.

(** [response.data] of list_folder and of list_folder/continue. *)
Record page := {
  entries : list entry;
  has_more : bool;
  cursor : option string
}.

(** What [axios.post] gives: the page, or an error whose
    [response?.data?.error_summary] may be absent. *)
Inductive answer :=
| Failed (error_summary : option string) (message : string)
| Page (p : page).

Inductive request :=
| ListFolder (path : string)            (* POST .../2/files/list_folder *)
| ListFolderContinue (cursor : string). (* POST .../2/files/list_folder/continue *)

(** The state that [loadDropboxFiles] and [selectDropboxFile] work on. *)
Record picker := {
  dropboxFiles : list VideoFile;
  isLoadingDropboxFiles : bool;
  showDropboxFiles : bool;
  selectedVideo : option VideoFile;
  toasts : list toast_args;
  console : list string;
  sent : list request
}.

Definition videoExtensions : list string :=
  [".mp4"; ".mov"; ".avi"; ".mkv"; ".webm"; ".m4v"; ".wmv"; ".flv"].

(** [cursor ? ... : ...]: an absent or empty cursor is falsy. *)
Definition request_for (cursor : option string) : request :=
  match cursor with
  | Some c => if truthy_str c then ListFolderContinue c else ListFolder ""
  | None => ListFolder ""
  end.

(** Lines 100-108: the element pushed for a video entry. *)
Definition to_video_file (file : entry) : VideoFile :=
  {| vf_id := entry_id file;
     vf_name := or_opt (path_display file) (entry_name file);
     vf_downloadUrl := Some (entry_id file);
     vf_path := path_lower file |}.

(** How [listFolderRecursive] stands: it returned, it threw, or it awaits a
    response that has not come. *)
Inductive listing :=
| Listed (all : list VideoFile) (requests : list request)
| Threw (error_summary : option string) (message : string)
        (requests : list request)
| Waiting (requests : list request).

Section LowerCase.
(** [String.prototype.toLowerCase], which follows the Unicode case
    mapping, is a parameter. *)
Variable toLowerCase : string -> string.

(** Lines 94-97: the callback of [entries.filter]. *)
Definition is_video (e : entry) : bool :=
  (tag e === "file")
  && existsb (fun ext => ends_with ext (toLowerCase (entry_name e)))
             videoExtensions.

(** Lines 73-113: the [while (hasMore)] loop.  [answers] are the responses
    in the order in which the requests are made; the loop takes one per
    turn, and [cur] is its variable [cursor]. *)
Fixpoint listFolderRecursive (answers : list answer) (cur : option string)
    (allVideoFiles : list VideoFile) (requests : list request) : listing :=
  match answers with
  | [] => Waiting (requests ++ [request_for cur])
  | Failed summary message :: _ =>
      Threw summary message (requests ++ [request_for cur])
  | Page p :: answers' =>
      let videoFiles := List.filter is_video (entries p) in
      let allVideoFiles := allVideoFiles ++ map to_video_file videoFiles in
      if has_more p
      then listFolderRecursive answers' (cursor p) allVideoFiles
             (requests ++ [request_for cur])
      else Listed allVideoFiles (requests ++ [request_for cur])
  end.

Definition found_toast (n : nat) : toast_args :=
  if Nat.eqb n 0
  then {| title := "No Videos Found";
          description := "No video files found in your Dropbox";
          variant := None |}
  else {| title := "Videos Found";
          description := "Found " +:+ pretty n +:+ " video"
                         +:+ (if Nat.ltb 1 n then "s" else "")
                         +:+ " in your Dropbox";
          variant := None |}.

(** [loadDropboxFiles], lines 52-141. *)
Definition loadDropboxFiles (e : environment) (answers : list answer)
    (pk : picker) : picker :=
  if negb (truthy_str (VITE_DROPBOX_ACCESS_TOKEN e)) then
    {| dropboxFiles := dropboxFiles pk;
       isLoadingDropboxFiles := false;
       showDropboxFiles := true;
       selectedVideo := selectedVideo pk;
       toasts := toasts pk
                 ++ [{| title := "Configuration Error";
                        description := "Add VITE_DROPBOX_ACCESS_TOKEN to .env.local";
                        variant := Some "destructive" |}];
       console := console pk;
       sent := sent pk |}
  else
    match listFolderRecursive answers None [] [] with
    | Listed allVideoFiles requests =>
        {| dropboxFiles := allVideoFiles;
           isLoadingDropboxFiles := false;
           showDropboxFiles := true;
           selectedVideo := selectedVideo pk;
           toasts := toasts pk ++ [found_toast (length allVideoFiles)];
           console := console pk;
           sent := sent pk ++ requests |}
    | Threw summary message requests =>
        {| dropboxFiles := dropboxFiles pk;
           isLoadingDropboxFiles := false;
           showDropboxFiles := true;
           selectedVideo := selectedVideo pk;
           toasts := toasts pk
                     ++ [{| title := "Error";
                            description :=
                              or_opt summary "Failed to load Dropbox files";
                            variant := Some "destructive" |}];
           console := console pk
                      ++ ["Error loading Dropbox files: " +:+ message];
           sent := sent pk ++ requests |}
    | Waiting requests =>
        {| dropboxFiles := dropboxFiles pk;
           isLoadingDropboxFiles := true;
           showDropboxFiles := true;
           selectedVideo := selectedVideo pk;
           toasts := toasts pk;
           console := console pk;
           sent := sent pk ++ requests |}
    end.

End LowerCase.

(** [selectDropboxFile], lines 144-147. *)
Definition selectDropboxFile (file : VideoFile) (pk : picker) : picker :=
  {| dropboxFiles := dropboxFiles pk;
     isLoadingDropboxFiles := isLoadingDropboxFiles pk;
     showDropboxFiles := false;
     selectedVideo := Some file;
     toasts := toasts pk;
     console := console pk;
     sent := sent pk |}.

(** The videos of a page, as the loop adds them. *)
Definition videos_of (toLowerCase : string -> string) (p : page)
  : list VideoFile :=
  map to_video_file (List.filter (is_video toLowerCase) (entries p)).

End Files.

(** ** App.tsx: the page with its buttons *)

Module Page.
Import Js App.
#[local] Open Scope list_scope.

(** The whole state of the component: what the job works on, the two flags
    of the file list (lines 42-43) and the list_folder requests sent. *)
Record page := {
  job : app;
  isLoadingDropboxFiles : bool;
  showDropboxFiles : bool;
  listing : list Files.request
}.

(** What [loadDropboxFiles] and [selectDropboxFile] work on. *)
Definition picker_of (pg : page) : Files.picker :=
  {| Files.dropboxFiles := dropboxFiles (job pg);
     Files.isLoadingDropboxFiles := isLoadingDropboxFiles pg;
     Files.showDropboxFiles := showDropboxFiles pg;
     Files.selectedVideo := selectedVideo (job pg);
     Files.toasts := toasts (job pg);
     Files.console := console (job pg);
     Files.sent := listing pg |}.

(** The page after one of them has run: the rest of the state is as it
    was. *)
Definition with_picker (pk : Files.picker) (pg : page) : page :=
  {| job :=
       {| selectedVideo := Files.selectedVideo pk;
          dropboxFiles := Files.dropboxFiles pk;
          shortType := shortType (job pg);
          promptText := promptText (job pg);
          processingStatus := processingStatus (job pg);
          mounted := mounted (job pg);
          toasts := Files.toasts pk;
          console := Files.console pk;
          sent := sent (job pg);
          next_timer := next_timer (job pg);
          closures := closures (job pg);
          intervals := intervals (job pg);
          awaiting_status := awaiting_status (job pg);
          awaiting_outputs := awaiting_outputs (job pg) |};
     isLoadingDropboxFiles := Files.isLoadingDropboxFiles pk;
     showDropboxFiles := Files.showDropboxFiles pk;
     listing := Files.sent pk |}.

Definition with_job (st : app) (pg : page) : page :=
  {| job := st;
     isLoadingDropboxFiles := isLoadingDropboxFiles pg;
     showDropboxFiles := showDropboxFiles pg;
     listing := listing pg |}.

(** What happens on the page: an event of the job; the Dropbox button
    (line 365) or the refresh button (lines 376-381) is pressed and Dropbox
    answers; a file of the list is clicked (lines 397-406). *)
Inductive event :=
| Job (ev : App.event)
| LoadFiles (answers : list Files.answer)
| SelectFile (index : nat).

(** The Dropbox button is enabled whenever the page is mounted, whatever
    the processing status is; the files of the list can be clicked while
    the list is shown and not loading.  As in [App.step], a press of the
    process button runs [processVideo] as one event, and so does a load:
    the states between their awaits, where the status is "uploading", are
    no states of the page here. *)
Definition step (toLowerCase : string -> string) (e : environment)
    (pg : page) (ev : event) : option page :=
  match ev with
  | Job ev => st ← App.step e (job pg) ev; Some (with_job st pg)
  | LoadFiles answers =>
      if mounted (job pg)
      then Some (with_picker
                   (Files.loadDropboxFiles toLowerCase e answers (picker_of pg))
                   pg)
      else None
  | SelectFile index =>
      if mounted (job pg) && showDropboxFiles pg
         && negb (isLoadingDropboxFiles pg)
      then file ← dropboxFiles (job pg) !! index;
           Some (with_picker (Files.selectDropboxFile file (picker_of pg)) pg)
      else None
  end.

Fixpoint run (toLowerCase : string -> string) (e : environment)
    (pg : page) (evs : list event) : option page :=
  match evs with
  | [] => Some pg
  | ev :: evs' => pg' ← step toLowerCase e pg ev; run toLowerCase e pg' evs'
  end.

(** The page as it is loaded (lines 37-43). *)
Definition start : page :=
  {| job := App.start;
     isLoadingDropboxFiles := false;
     showDropboxFiles := false;
     listing := [] |}.

Definition reachable (toLowerCase : string -> string) (e : environment)
    (pg : page) : Prop :=
  exists evs, run toLowerCase e start evs = Some pg.

End Page.

(** ** App.tsx: what the page shows *)

Module Render.
Import Js App.

(** Line 487: the condition of the card "Step 3: Preview & Download",
    [status === 'completed' && (outputUrls?.length ?? 0) > 0]. *)
Definition step3_visible (ps : ProcessingStatus) : bool :=
  match status ps with
  | completed => Nat.ltb 0 (length (default [] (outputUrls ps)))
  | _ => false
  end.

(** Lines 456-475: the text of the process button; the number after
    "Processing..." is left out. *)
Definition button_text (ps : ProcessingStatus) : string :=
  match status ps with
  | uploading => "Uploading..."
  | processing => "Processing..."
  | idle => "Process Video"
  | completed => "Video Processed!"
  | error => "Try Again"
  end.

End Render.

(** ** The [Home] component: the two other effects *)

Module HomeEffects.
Import Js Route.
#[local] Open Scope list_scope.

(** "Auto-send initial message on mount" (lines 38-43): the new value of
    [hasInitialized.current], and whether [append] is called with the
    initial message. *)
Definition autoSend (hasInitialized : bool) (messages : list Message)
  : bool * bool :=
  if negb hasInitialized && Nat.eqb (length messages) 0
  then (true, true)
  else (hasInitialized, false).

(** The number of calls of [append] over the runs of the effect, each
    with the [messages] array of its render. *)
Fixpoint sends (hasInitialized : bool) (renders : list (list Message)) : nat :=
  match renders with
  | [] => 0
  | messages :: renders' =>
      let '(hasInitialized', appended) := autoSend hasInitialized messages in
      (if appended then 1 else 0) + sends hasInitialized' renders'
  end.

Definition newline : string := String (Ascii.ascii_of_nat 10) EmptyString.

(** The text that opens a code block: three backquotes, [tsx], line feed. *)
Definition opening_fence : string := "```tsx" +:+ newline.

Definition closing_fence : string := "```".

Fixpoint strip_prefix (w s : string) : option string :=
  match w with
  | EmptyString => Some s
  | String a w' =>
      match s with
      | String c s' => if Ascii.eqb c a then strip_prefix w' s' else None
      | EmptyString => None
      end
  end.

(** The pattern of line 72, an opening fence, [([\s\S]*?)] and a closing
    fence, as the backtracking matcher runs it.  The fences are ASCII and
    the class takes any character, so the result is the same on code units
    and on the bytes of the text.  [until_fence] is the lazy
    group followed by the closing fence: it tries the fence first and takes
    one more character when that fails; the result is the group. *)
Fixpoint until_fence (s : string) : option string :=
  match strip_prefix closing_fence s with
  | Some _ => Some EmptyString
  | None =>
      match s with
      | EmptyString => None
      | String c s' => String c <$> until_fence s'
      end
  end.

(** The pattern tried at the start of [s]. *)
Definition code_here (s : string) : option string :=
  match strip_prefix opening_fence s with
  | Some rest => until_fence rest
  | None => None
  end.

(** [content.match(...)]: the pattern is tried at every position, from the
    left; [codeMatch[1]] of the first success. *)
Fixpoint match_code (s : string) : option string :=
  match code_here s with
  | Some code => Some code
  | None =>
      match s with
      | EmptyString => None
      | String _ s' => match_code s'
      end
  end.

(** [messages.filter((m) => m.role === 'assistant').pop()] *)
Definition lastAssistantMessage (messages : list Message) : option Message :=
  last (List.filter (fun m => role m === "assistant") messages).

(** "Extract code from messages" (lines 66-77): the value of [code] after
    the effect has run. *)
Definition extractCode (messages : list Message) (code : string) : string :=
  match lastAssistantMessage messages with
  | Some m =>
      if truthy_str (content m) then
        match match_code (content m) with
        | Some found => found
        | None => code
        end
      else code
  | None => code
  end.

End HomeEffects.

(** ** The [Chat] component: scrolling *)

Module ChatEvents.
Import Chat.

(** The callback given to [setTimeout] (lines 45-47) runs: the timeout is
    no longer pending. *)
Definition fire (t : nat) (c : chat) : chat :=
  {| isUserScrolling := false;
     scrollTimeoutRef := scrollTimeoutRef c;
     lastScrollPositionRef := lastScrollPositionRef c;
     next_timeout := next_timeout c;
     timeouts := timeouts c ∖ {[t]} |}.

Inductive event :=
| Scroll (scrollTop scrollHeight clientHeight : Z)
| Fire (t : nat)
| Unmount.

(** A timeout fires only while it is pending.  Scroll events reach
    [handleScroll] only while the container is mounted (line 30 returns
    otherwise); the sequences of events taken here include those of the
    component and also sequences that go on after an unmount. *)
Definition step (c : chat) (ev : event) : option chat :=
  match ev with
  | Scroll scrollTop scrollHeight clientHeight =>
      Some (handleScroll scrollTop scrollHeight clientHeight c)
  | Fire t => if decide (t ∈ timeouts c) then Some (fire t c) else None
  | Unmount => Some (Chat.unmount c)
  end.

Fixpoint run (c : chat) (evs : list event) : option chat :=
  match evs with
  | [] => Some c
  | ev :: evs' => c' ← step c ev; run c' evs'
  end.

(** The component as mounted (lines 23-26). *)
Definition start : chat :=
  {| isUserScrolling := false;
     scrollTimeoutRef := None;
     lastScrollPositionRef := 0;
     next_timeout := 1;
     timeouts := ∅ |}.

(** Line 63: the auto-scroll effect scrolls to the bottom unless the user
    is scrolling. *)
Definition autoScrolls (c : chat) : bool := negb (isUserScrolling c).

End ChatEvents.

(** ** route.ts: the class [HttpMCPTransport] *)

Module Transport.
Import Js.
#[local] Open Scope list_scope.

(** What [fetch] and the reading of the body give. *)
Inductive fetched :=
| FetchRejects (message : string)
| NotOk (status : nat) (text : settled string)   (* response.ok is false;
                                                    response.text() *)
| Ok (json : settled string).                    (* response.json() *)

(** A handler is a function of the caller; applied to its argument it
    returns, or throws an error with a message. *)
Definition handler := string -> option string.

Record transport := {
  messageHandler : option handler;
  errorHandler : option handler
}.

Inductive call :=
| OnMessage (result : string)
| OnError (message : string).

(** The [try] block of [send] (lines 28-44): the calls made, and the error
    thrown if there is one. *)
Definition attempt (t : transport) (f : fetched) : list call * option string :=
  match f with
  | FetchRejects message => ([], Some message)
  | NotOk status (Rejected message) => ([], Some message)
  | NotOk status (Fulfilled text) =>
      ([], Some ("HTTP " +:+ pretty status +:+ ": " +:+ text))
  | Ok (Rejected message) => ([], Some message)
  | Ok (Fulfilled result) =>
      match messageHandler t with
      | Some h => ([OnMessage result], h result)
      | None => ([], None)
      end
  end.

(** [send] (lines 26-50): the calls of the handlers, in order, and how the
    promise of [send] settles. *)
Definition send (t : transport) (f : fetched) : list call * settled unit :=
  match attempt t f with
  | (calls, None) => (calls, Fulfilled tt)
  | (calls, Some error) =>
      match errorHandler t with
      | Some h =>
          (calls ++ [OnError error],
           match h error with
           | Some thrown => Rejected thrown
           | None => Fulfilled tt
           end)
      | None => (calls, Fulfilled tt)
      end
  end.

End Transport.

(** ** Notions for the further properties *)

Module Props.
Import Js.
#[local] Open Scope list_scope.

(** [hay] cut at the first occurrence of [needle]: what is before it and
    what is after it. *)
Fixpoint split_first (needle hay : string) : option (string * string) :=
  match HomeEffects.strip_prefix needle hay with
  | Some rest => Some (EmptyString, rest)
  | None =>
      match hay with
      | EmptyString => None
      | String c hay' =>
          '(before, after) ← split_first needle hay';
          Some (String c before, after)
      end
  end.

(** At most the scroll timeout that the ref holds is pending. *)
Definition one_pending (c : Chat.chat) : Prop :=
  forall t, t ∈ Chat.timeouts c -> Chat.scrollTimeoutRef c = Some t.

(** While auto-scroll is suspended, the timeout that resumes it is
    pending. *)
Definition resumable (c : Chat.chat) : Prop :=
  Chat.isUserScrolling c = true ->
  exists t, Chat.scrollTimeoutRef c = Some t /\ t ∈ Chat.timeouts c.


(** [processVideo] has got past the download: the status is processing,
    error or completed. *)
Definition settled_status (st : App.app) : Prop :=
  App.status (App.processingStatus st) <> App.idle
  /\ App.status (App.processingStatus st) <> App.uploading.



(** The entries of the pages among the answers of Dropbox. *)
Definition answered (answers : list Files.answer) : list Files.entry :=
  flat_map (fun a => match a with
                     | Files.Page p => Files.entries p
                     | Files.Failed _ _ => []
                     end) answers.

(** A listed file that comes from one of the entries [seen], one that is a
    file and has a video extension. *)
Definition from_video_entry (toLowerCase : string -> string)
    (seen : list Files.entry) (f : App.VideoFile) : Prop :=
  exists en ext,
    en ∈ seen
    /\ Files.tag en = "file" /\ ext ∈ Files.videoExtensions
    /\ Files.ends_with ext (toLowerCase (Files.entry_name en)) = true
    /\ f = Files.to_video_file en.

(** ASCII lower case, for the examples. *)
Definition ascii_lower (c : Ascii.ascii) : Ascii.ascii :=
  let n := Ascii.nat_of_ascii c in
  if Nat.leb 65 n && Nat.leb n 90 then Ascii.ascii_of_nat (n + 32) else c.

Fixpoint lower (s : string) : string :=
  match s with
  | EmptyString => EmptyString
  | String c s' => String (ascii_lower c) (lower s')
  end.

End Props.

(** ** Further concrete inputs *)

Module Inputs.
Import Js.
#[local] Open Scope list_scope.

Definition talk : Files.entry :=
  {| Files.tag := "file"; Files.entry_id := "id:talk";
     Files.entry_name := "Talk.MP4";
     Files.path_display := Some "/Talks/Talk.MP4";
     Files.path_lower := Some "/talks/talk.mp4" |}.

Definition notes : Files.entry :=
  {| Files.tag := "file"; Files.entry_id := "id:notes";
     Files.entry_name := "notes.txt";
     Files.path_display := Some "/Talks/notes.txt";
     Files.path_lower := Some "/talks/notes.txt" |}.

Definition folder : Files.entry :=
  {| Files.tag := "folder"; Files.entry_id := "id:folder";
     Files.entry_name := "clips.mov";
     Files.path_display := Some "/clips.mov";
     Files.path_lower := Some "/clips.mov" |}.

Definition demo : Files.entry :=
  {| Files.tag := "file"; Files.entry_id := "id:demo";
     Files.entry_name := "demo.webm";
     Files.path_display := None;
     Files.path_lower := Some "/demo.webm" |}.

Definition first_page : Files.page :=
  {| Files.entries := [talk; notes; folder];
     Files.has_more := true;
     Files.cursor := Some "cursor-1" |}.

Definition last_page : Files.page :=
  {| Files.entries := [demo];
     Files.has_more := false;
     Files.cursor := Some "cursor-2" |}.

(** The user has picked the clip and asks for a short by prompt, leaving
    the text empty. *)
Definition picked_prompt : App.app :=
  App.set_inputs (Some Samples.clip) [Samples.clip] App.prompt EmptyString
    App.start.

(** The page after a job whose finalize call failed. *)
Definition failed_page : Page.page :=
  Page.with_job
    (App.processVideo Samples.env Samples.bad_finalize_server Samples.picked)
    Page.start.




Definition empty_picker : Files.picker :=
  {| Files.dropboxFiles := [];
     Files.isLoadingDropboxFiles := false;
     Files.showDropboxFiles := false;
     Files.selectedVideo := None;
     Files.toasts := [];
     Files.console := [];
     Files.sent := [] |}.

End Inputs.

(** ** Lemmas on the helpers *)

Section Helpers.
Import Js Spec.

Lemma str_eq_true a b : (a === b) = true <-> a = b.
Proof. apply String.eqb_eq. Qed.

Lemma str_eq_false a b : (a === b) = false <-> a <> b.
Proof. apply String.eqb_neq. Qed.

Lemma kept_filter {A} (f : A -> bool) (l : list A) :
  kept (fun x => f x = true) l (List.filter f l).
Proof.
  induction l as [|x l IH]; simpl.
  - constructor.
  - destruct (f x) eqn:Hx.
    + by apply kept_take.
    + apply kept_skip; [congruence | done].
Qed.

Lemma kept_iff {A} (P Q : A -> Prop) l l' :
  (forall x, P x <-> Q x) -> kept P l l' -> kept Q l l'.
Proof.
  intros HPQ. induction 1 as [|x l l' Hx _ IH|x l l' Hx _ IH].
  - constructor.
  - apply kept_take; [by apply HPQ | done].
  - apply kept_skip; [by rewrite <- HPQ | done].
Qed.

Lemma kept_all {A} (P : A -> Prop) l l' :
  Forall P l -> kept P l l' -> l' = l.
Proof.
  intros Hall Hk. induction Hk as [|x l l' Hx _ IH|x l l' Hx _ IH].
  - done.
  - f_equal. apply IH. by inversion Hall.
  - inversion Hall; subst. contradiction.
Qed.

End Helpers.

(** ** The chat route *)

Section RouteFacts.
Import Js Route Spec.

Lemma keep_message_complete msg : keep_message msg = true <-> complete msg.
Proof.
  unfold keep_message, complete.
  destruct (role msg === "assistant") eqn:Hrole;
    destruct (toolInvocations msg) as [invs|]; try done.
  - apply str_eq_true in Hrole. rewrite forallb_forall, Forall_forall.
    split.
    + intros H _ inv Hin. apply str_eq_true, H. by apply list_elem_of_In.
    + intros H inv Hin. apply str_eq_true, (H Hrole). by apply list_elem_of_In.
  - apply str_eq_false in Hrole. split; [intros _ ?; contradiction | done].
Qed.

(** C8. What [POST] passes to the language model as [messages] is the input
    list restricted to the complete messages: an assistant message with a
    [toolInvocations] list is passed on if and only if every invocation in
    it has state 'result', every other message is passed on, each message
    as often as it occurs and in the original order.  The call is made
    whenever the MCP client and its tools are obtained; otherwise the reply
    is the 500 response and no message is forwarded. *)
Theorem chat_forwards_complete_messages (messages : list Message)
    (srv : mcp_server) :
  match forwarded (POST messages srv) with
  | Some fwd => kept complete messages fwd
  | None =>
      init_fails srv
      /\ reply (POST messages srv)
         = JsonResponse 500 "Failed to initialize MCP client"
  end.
Proof.
  unfold forwarded, POST, init_fails.
  destruct (createMCPClient srv) as [e1|[]] eqn:H1; simpl; [eauto|].
  destruct (tools_first srv) as [e2|t1] eqn:H2; simpl; [eauto|].
  destruct (tools_second srv) as [e3|t2] eqn:H3; simpl; [eauto 6|].
  eapply kept_iff; [apply keep_message_complete | apply kept_filter].
Qed.

End RouteFacts.

(** ** The demo page *)

Section HomeFacts.
Import Js Route Home Spec.

Lemma trackProgress_cases messages cur :
  trackProgress messages cur = cur
  \/ rank (trackProgress messages cur) = S (rank cur).
Proof.
  unfold trackProgress. destruct (lastMessage messages) as [m|]; [|by left].
  destruct cur; unfold step_eqb; simpl;
    repeat match goal with
           | |- context [if ?b then _ else _] => destruct b
           end; auto.
Qed.

Lemma rerun_stepwise fuel messages cur :
  stepwise cur (rerun fuel messages cur).
Proof.
  revert cur. induction fuel as [|fuel IH]; intros cur; simpl; [done|].
  unfold step_eqb. case_bool_decide as Hnext; simpl; [done|].
  split; [|apply IH].
  destruct (trackProgress_cases messages cur); [contradiction | done].
Qed.

Lemma last_cons_default {A} (l : list A) (x d : A) :
  List.last (x :: l) d = List.last l x.
Proof.
  revert x d. induction l as [|y l IH]; intros x d; [done|].
  change (List.last (x :: y :: l) d) with (List.last (y :: l) d).
  by rewrite !IH.
Qed.

Lemma stepwise_length cur l :
  stepwise cur l -> rank (List.last l cur) = rank cur + length l.
Proof.
  revert cur. induction l as [|x l IH]; intros cur; [simpl; lia|].
  intros [Hx Hl]. rewrite last_cons_default, (IH x Hl). simpl. lia.
Qed.

Lemma rank_le_3 s : rank s <= 3.
Proof. destruct s; simpl; lia. Qed.

End HomeFacts.

Section HomeClaims.
Import Js Route Home Spec Samples.

Lemma rerun_stable fuel messages cur :
  length (rerun fuel messages cur) < fuel ->
  trackProgress messages (List.last (rerun fuel messages cur) cur)
  = List.last (rerun fuel messages cur) cur.
Proof.
  revert cur. induction fuel as [|fuel IH]; intros cur; [simpl; lia|].
  cbn [rerun]. unfold step_eqb. case_bool_decide as Hnext; [done|].
  cbn [length]. intros Hlen. rewrite last_cons_default. apply IH. lia.
Qed.

Lemma onMessages_short messages cur : length (onMessages messages cur) <= 3.
Proof.
  pose proof (stepwise_length cur _ (rerun_stepwise 4 messages cur)) as H.
  pose proof (rank_le_3 (List.last (rerun 4 messages cur) cur)).
  unfold onMessages. lia.
Qed.

Lemma stepwise_app cur l1 l2 :
  stepwise cur l1 -> stepwise (List.last l1 cur) l2 -> stepwise cur (l1 ++ l2).
Proof.
  revert cur. induction l1 as [|x l1 IH]; intros cur; [done|].
  intros [Hx H1] H2. rewrite last_cons_default in H2.
  split; [done|]. by apply IH.
Qed.

Lemma observe_stepwise updates cur : stepwise cur (observe updates cur).
Proof.
  revert cur. induction updates as [|messages updates IH]; intros cur; [done|].
  simpl. apply stepwise_app; [apply rerun_stepwise | apply IH].
Qed.

(** C9, the claim as stated fails: one assistant message that contains the
    code fence, the upload confirmation and the processing notice takes
    [currentStep] from initial to status, three steps for one message. *)
Lemma currentStep_three_steps_for_one_message :
  onMessages [eager_message] initial = [upload; caption; status]
  /\ ~ one_step_per_message [eager_message] initial.
Proof.
  split; [reflexivity|]. unfold one_step_per_message.
  change (settle [eager_message] initial) with status. simpl. lia.
Qed.

(** C9, amended.  [currentStep] only ever advances forward through
    initial, upload, caption, status: one run of the tracking effect leaves
    it unchanged or moves it to the next step, whatever the messages are; it
    never moves backward and never skips a step, also over a whole
    conversation.  The bound is per run of the effect and not per message:
    the effect runs again after each change of [currentStep], so the same
    last message can move it several times, and it comes to rest within
    three moves. *)
Theorem currentStep_advances_stepwise (messages : list Message) (cur : step) :
  (trackProgress messages cur = cur
   \/ rank (trackProgress messages cur) = S (rank cur))
  /\ stepwise cur (onMessages messages cur)
  /\ trackProgress messages (settle messages cur) = settle messages cur
  /\ rank cur <= rank (settle messages cur) <= 3
  /\ forall updates, stepwise cur (observe updates cur).
Proof.
  split; [apply trackProgress_cases|].
  split; [apply rerun_stepwise|].
  split.
  { apply rerun_stable. pose proof (onMessages_short messages cur).
    unfold onMessages in *. lia. }
  split; [|intros; apply observe_stepwise].
  split; [|apply rank_le_3].
  unfold settle, onMessages.
  rewrite (stepwise_length cur _ (rerun_stepwise 4 messages cur)). lia.
Qed.

End HomeClaims.

(** ** The shorts UI *)

(** The case analysis of [App.processVideo]: one goal per way through the
    function, with the responses that select it in the context. *)
Ltac process_cases e srv st :=
  unfold App.processVideo;
  destruct (App.selectedVideo st) as [sel|] eqn:Hsel;
  [ cbn [App.dropboxFiles App.setProcessingStatus];
    destruct (List.find _ _) as [file|] eqn:Hfile;
    [ unfold App.download;
      destruct (App.dropbox_download srv _ _) as [msg|text|videoBlob] eqn:Hdl;
      [ | |
        unfold App.upload_and_run, App.await, App.exec, mbind, App.block_bind;
        cbn beta iota zeta;
        destruct (App.get_upload_url srv _ _ _) as [err|[upload_url video_id]] eqn:Hurl;
        [ | cbn beta iota zeta;
            destruct (App.put_upload srv _ _) as [err|[]] eqn:Hput;
            [ | cbn beta iota zeta;
                destruct (App.finalize_upload srv _) as [err|fileId] eqn:Hfin;
                [ | cbn beta iota zeta;
                    destruct (App.agent_choice e _ _) as [[agentId prompt'] auto] eqn:Hchoice;
                    destruct (App.run_agent srv _ _ _ _) as [err|runId] eqn:Hrun ] ] ] ]
    | ]
  | ];
  unfold App.sent_since; simpl; rewrite <- ?app_assoc, ?drop_app_length, ?drop_all; simpl.

Section AppFacts.
Import Js App Spec Samples.
#[local] Open Scope list_scope.

Lemma sent_since_app st st' new :
  sent st' = sent st ++ new -> sent_since st st' = new.
Proof. unfold sent_since. intros ->. apply drop_app_length. Qed.

(** The calls of [processVideo] are made in the order of the pipeline, none
    twice and none skipped. *)
Lemma processVideo_order e srv st :
  map phase (sent_since st (processVideo e srv st))
  = seq 0 (length (sent_since st (processVideo e srv st))).
Proof. process_cases e srv st; reflexivity. Qed.

Lemma processVideo_extends e srv st :
  sent (processVideo e srv st)
  = sent st ++ sent_since st (processVideo e srv st).
Proof.
  process_cases e srv st; rewrite ?app_nil_r; reflexivity.
Qed.

(** [processVideo] creates one interval, when the run was submitted, and
    none otherwise; it touches no other timer and no request on its way. *)
Lemma processVideo_timers e srv st :
  let st' := processVideo e srv st in
  awaiting_status st' = awaiting_status st
  /\ awaiting_outputs st' = awaiting_outputs st
  /\ ((intervals st' = intervals st /\ closures st' = closures st
       /\ next_timer st' = next_timer st
       /\ Forall (fun r => phase r = 4 -> fails srv r) (sent_since st st'))
      \/ (exists fileId agentId prompt' auto runId,
            last (sent_since st st') = Some (RunAgent fileId agentId prompt' auto)
            /\ run_agent srv fileId agentId prompt' auto = Fulfilled runId
            /\ intervals st' = {[next_timer st]} ∪ intervals st
            /\ closures st' = <[next_timer st := runId]> (closures st)
            /\ next_timer st' = S (next_timer st)
            /\ status (processingStatus st') = processing)).
Proof.
  process_cases e srv st.
  all: split; [reflexivity|]; split; [reflexivity|].
  all: try (left; repeat split; repeat constructor; simpl;
            first [discriminate | done | intros _; by rewrite Hrun]).
  right. exists fileId, agentId, prompt', auto, runId. done.
Qed.


Lemma processVideo_no_poll_request e srv st :
  Forall (fun r => is_status_request r = false /\ is_outputs_request r = false)
         (sent_since st (processVideo e srv st)).
Proof. process_cases e srv st; repeat constructor. Qed.

(** *** What each event does *)

Lemma step_edit_inv e st sel files ty text st' :
  step e st (Edit sel files ty text) = Some st' ->
  st' = set_inputs sel files ty text st.
Proof. cbn [step]. destruct (mounted st); congruence. Qed.

Lemma step_click_inv e st srv st' :
  step e st (Click srv) = Some st' ->
  status (processingStatus st) = idle /\ st' = processVideo e srv st.
Proof.
  cbn [step]. unfold button_enabled.
  destruct (mounted st), (selectedVideo st), (status (processingStatus st));
    simpl; intros [=]; done.
Qed.

Lemma step_tick_inv e st t st' :
  step e st (Tick t) = Some st' ->
  t ∈ intervals st
  /\ exists runId, closures st !! t = Some runId /\ st' = poll_tick t runId st.
Proof.
  cbn [step]. destruct (decide (t ∈ intervals st)); [|done].
  destruct (closures st !! t) as [runId|]; [|done].
  intros [= <-]. eauto.
Qed.

Lemma step_status_inv e st t r st' :
  step e st (StatusSettled t r) = Some st' ->
  t ∈ awaiting_status st
  /\ exists runId, closures st !! t = Some runId
                  /\ st' = poll_status t runId r st.
Proof.
  cbn [step]. destruct (decide (t ∈ awaiting_status st)); [|done].
  destruct (closures st !! t) as [runId|]; [|done].
  intros [= <-]. eauto.
Qed.

Lemma step_outputs_inv e st t r st' :
  step e st (OutputsSettled t r) = Some st' ->
  t ∈ awaiting_outputs st /\ st' = poll_outputs t r st.
Proof.
  cbn [step]. destruct (decide (t ∈ awaiting_outputs st)); [|done].
  intros [= <-]. eauto.
Qed.

Lemma step_tick e st t runId :
  t ∈ intervals st -> closures st !! t = Some runId ->
  step e st (Tick t) = Some (poll_tick t runId st).
Proof.
  intros Hin Hclo. cbn [step]. rewrite decide_True by done.
  by rewrite Hclo.
Qed.

(** The status response, by the status it carries. *)
Lemma poll_status_success t runId d st :
  sd_status d = "success" ->
  let st' := poll_status t runId (Fulfilled d) st in
  sent st' = sent st ++ [GetAgentRunOutputs runId]
  /\ intervals st' = intervals st ∖ {[t]}
  /\ processingStatus st' = processingStatus st
  /\ closures st' = closures st.
Proof. intros H. unfold poll_status. rewrite H. done. Qed.

Lemma poll_status_failed t runId d st :
  sd_status d = "failed" ->
  let st' := poll_status t runId (Fulfilled d) st in
  sent st' = sent st
  /\ intervals st' = intervals st ∖ {[t]}
  /\ processingStatus st'
     = status_message error "Processing failed. Please try again."
  /\ closures st' = closures st.
Proof. intros H. unfold poll_status. rewrite H. done. Qed.

Lemma poll_status_other t runId d st :
  ~ terminal (sd_status d) ->
  let st' := poll_status t runId (Fulfilled d) st in
  sent st' = sent st
  /\ intervals st' = intervals st
  /\ status (processingStatus st') = processing
  /\ progress (processingStatus st') = sd_progress d
  /\ closures st' = closures st.
Proof.
  intros H. unfold poll_status, terminal in *.
  destruct (sd_status d === "success") eqn:H1.
  { apply str_eq_true in H1. tauto. }
  destruct (sd_status d === "failed") eqn:H2.
  { apply str_eq_true in H2. tauto. }
  done.
Qed.

Lemma poll_status_rejected t runId err st :
  let st' := poll_status t runId (Rejected err) st in
  sent st' = sent st
  /\ intervals st' = intervals st ∖ {[t]}
  /\ processingStatus st' = processingStatus st
  /\ toasts st' = toasts st
  /\ console st' = console st ++ ["Polling error: " +:+ err]
  /\ closures st' = closures st.
Proof. done. Qed.

Lemma terminal_dec s : {terminal s} + {~ terminal s}.
Proof.
  unfold terminal.
  destruct (decide (s = "success")); [by left; left|].
  destruct (decide (s = "failed")); [by left; right|].
  right. tauto.
Qed.

(** Every event appends to the requests sent, and the closures stay. *)
Lemma step_extends e st ev st' :
  step e st ev = Some st' ->
  sent st' = sent st ++ sent_since st st'.
Proof.
  intros H. destruct ev as [sel files ty text|srv|t|t r|t r|].
  - apply step_edit_inv in H as ->. unfold sent_since. simpl.
    by rewrite drop_all, app_nil_r.
  - apply step_click_inv in H as [_ ->]. apply processVideo_extends.
  - apply step_tick_inv in H as (_ & runId & _ & ->).
    unfold sent_since. simpl. by rewrite drop_app_length.
  - apply step_status_inv in H as (_ & runId & _ & ->).
    destruct r as [err|d].
    + unfold sent_since. simpl. by rewrite drop_all, app_nil_r.
    + destruct (terminal_dec (sd_status d)) as [[Hs|Hf]|Hn].
      * destruct (poll_status_success t runId d st Hs) as (Hsent & _).
        unfold sent_since. rewrite Hsent. by rewrite drop_app_length.
      * destruct (poll_status_failed t runId d st Hf) as (Hsent & _).
        unfold sent_since. rewrite Hsent. by rewrite drop_all, app_nil_r.
      * destruct (poll_status_other t runId d st Hn) as (Hsent & _).
        unfold sent_since. rewrite Hsent. by rewrite drop_all, app_nil_r.
  - apply step_outputs_inv in H as (_ & ->).
    unfold sent_since. destruct r; simpl; by rewrite drop_all, app_nil_r.
  - injection H as <-. unfold sent_since. simpl.
    by rewrite drop_all, app_nil_r.
Qed.

Lemma run_extends e evs st st' :
  run e st evs = Some st' ->
  sent st' = sent st ++ sent_since st st'.
Proof.
  revert st. induction evs as [|ev evs IH]; intros st; simpl.
  - intros [= ->]. unfold sent_since. by rewrite drop_all, app_nil_r.
  - destruct (step e st ev) as [st1|] eqn:Hstep; [|done]. simpl.
    intros Hrun. specialize (IH _ Hrun). apply step_extends in Hstep.
    unfold sent_since at 1. rewrite IH, Hstep, <- app_assoc.
    by rewrite drop_app_length, app_assoc.
Qed.

Lemma sent_since_trans st st1 st2 :
  sent st1 = sent st ++ sent_since st st1 ->
  sent st2 = sent st1 ++ sent_since st1 st2 ->
  sent_since st st2 = sent_since st st1 ++ sent_since st1 st2.
Proof.
  intros H1 H2. unfold sent_since at 1. rewrite H2, H1, <- app_assoc.
  by rewrite drop_app_length.
Qed.


Lemma remove_one_subset t x l : x ∈ remove_one t l -> x ∈ l.
Proof.
  induction l as [|y l IH]; simpl; [done|].
  destruct (decide (y = t)); rewrite ?elem_of_cons; intuition.
Qed.

Lemma poll_status_fields t runId r st :
  let st' := poll_status t runId r st in
  closures st' = closures st
  /\ (forall x, x ∈ intervals st' -> x ∈ intervals st)
  /\ (forall x, x ∈ awaiting_status st' -> x ∈ awaiting_status st)
  /\ (forall x, x ∈ awaiting_outputs st' -> x ∈ awaiting_outputs st \/ x = t)
  /\ (status (processingStatus st') = idle ->
      status (processingStatus st) = idle).
Proof.
  unfold poll_status.
  destruct r as [err|d]; [|destruct (sd_status d === "success");
                            [|destruct (sd_status d === "failed")]]; simpl.
  all: repeat split; try done;
    try (intros x; rewrite elem_of_difference; tauto);
    try (intros x; apply remove_one_subset); auto.
  intros x. rewrite elem_of_app, list_elem_of_singleton. tauto.
Qed.

Lemma poll_outputs_fields t r st :
  let st' := poll_outputs t r st in
  closures st' = closures st
  /\ sent st' = sent st
  /\ (forall x, x ∈ intervals st' -> x ∈ intervals st)
  /\ (forall x, x ∈ awaiting_status st' -> x ∈ awaiting_status st)
  /\ (forall x, x ∈ awaiting_outputs st' -> x ∈ awaiting_outputs st)
  /\ (status (processingStatus st') = idle ->
      status (processingStatus st) = idle).
Proof.
  unfold poll_outputs. destruct r as [err|d]; simpl.
  all: repeat split; try done;
    try (intros x; rewrite elem_of_difference; tauto);
    intros x; apply remove_one_subset.
Qed.

(** *** The invariant *)

Lemma start_invariant : invariant start.
Proof.
  split; simpl.
  - intros t Ht. by apply not_elem_of_empty in Ht.
  - intros t1 t2 [? H]. by rewrite lookup_empty in H.
  - intros _ t. apply lookup_empty.
  - intros t Ht. by apply not_elem_of_nil in Ht.
  - intros t Ht. by apply not_elem_of_nil in Ht.
Qed.

Lemma step_invariant e st ev st' :
  invariant st -> step e st ev = Some st' -> invariant st'.
Proof.
  intros [Hint Hsing Hidle Hws Hwo] H.
  destruct ev as [sel files ty text|srv|t|t r|t r|].
  - apply step_edit_inv in H as ->. by split.
  - apply step_click_inv in H as [Hi ->]. specialize (Hidle Hi).
    assert (Hnone : forall t, ~ is_Some (closures st !! t)).
    { intros t [? Ht]. by rewrite Hidle in Ht. }
    destruct (processVideo_timers e srv st)
      as (Hs & Ho & [(Hi' & Hc' & _)|(f & a & p & au & rid & _ & _ & Hi' & Hc' & _ & Hst)]).
    + split; rewrite ?Hs, ?Ho, ?Hi', ?Hc'; auto.
    + split; rewrite ?Hs, ?Ho, ?Hi', ?Hc'.
      * intros t. rewrite elem_of_union, elem_of_singleton. intros [->|Ht].
        -- rewrite lookup_insert_eq. eauto.
        -- destruct (Hnone t). auto.
      * intros t1 t2 H1 H2. rewrite lookup_insert in H1, H2.
        destruct (decide (next_timer st = t1)), (decide (next_timer st = t2));
          subst; try done; exfalso; eapply Hnone; eauto.
      * rewrite Hst. done.
      * intros t Ht. destruct (Hnone t). auto.
      * intros t Ht. destruct (Hnone t). auto.
  - apply step_tick_inv in H as (Ht & runId & Hclo & ->).
    split; simpl; auto.
    intros x. rewrite elem_of_app, list_elem_of_singleton.
    intros [Hx| ->]; [auto | eauto].
  - apply step_status_inv in H as (Ht & runId & Hclo & ->).
    destruct (poll_status_fields t runId r st) as (Hc & Hi & Hs & Ho & Hst).
    split; rewrite ?Hc.
    + auto.
    + done.
    + intros Hid t0. apply Hidle. auto.
    + auto.
    + intros x Hx. destruct (Ho x Hx) as [?| ->]; [auto | eauto].
  - apply step_outputs_inv in H as (Ht & ->).
    destruct (poll_outputs_fields t r st) as (Hc & _ & Hi & Hs & Ho & Hst).
    split; rewrite ?Hc; auto.
  - injection H as <-. by split.
Qed.

Lemma run_invariant e evs st st' :
  invariant st -> run e st evs = Some st' -> invariant st'.
Proof.
  revert st. induction evs as [|ev evs IH]; intros st Hinv; simpl.
  - by intros [= <-].
  - destruct (step e st ev) as [st1|] eqn:Hstep; [|done]. simpl.
    apply IH. by eapply step_invariant.
Qed.

Lemma reachable_invariant e st : reachable e st -> invariant st.
Proof. intros [evs H]. eapply run_invariant; [apply start_invariant | done]. Qed.

(** *** After the job is over *)

(** Outside a tick of an interval no status request is sent. *)
Lemma step_status_request e st ev st' :
  step e st ev = Some st' ->
  Forall (fun r => is_status_request r = false) (sent_since st st')
  \/ exists t runId, ev = Tick t /\ t ∈ intervals st
                     /\ closures st !! t = Some runId
                     /\ sent_since st st' = [GetAgentRunSimple runId].
Proof.
  intros H. destruct ev as [sel files ty text|srv|t|t r|t r|].
  - apply step_edit_inv in H as ->. left. unfold sent_since. simpl.
    by rewrite drop_all.
  - apply step_click_inv in H as [_ ->]. left.
    eapply Forall_impl; [apply processVideo_no_poll_request|]. by intros ? [? _].
  - apply step_tick_inv in H as (Ht & runId & Hclo & ->). right.
    exists t, runId. repeat split; try done.
    unfold sent_since. simpl. by rewrite drop_app_length.
  - pose proof (step_extends _ _ _ _ H) as Hext.
    apply step_status_inv in H as (_ & runId & _ & ->). left.
    destruct r as [err|d].
    + unfold sent_since. simpl. by rewrite drop_all.
    + destruct (terminal_dec (sd_status d)) as [[Hs|Hf]|Hn].
      * destruct (poll_status_success t runId d st Hs) as (Hsent & _).
        rewrite (sent_since_app _ _ _ Hsent). by repeat constructor.
      * destruct (poll_status_failed t runId d st Hf) as (Hsent & _).
        unfold sent_since. rewrite Hsent, drop_all. constructor.
      * destruct (poll_status_other t runId d st Hn) as (Hsent & _).
        unfold sent_since. rewrite Hsent, drop_all. constructor.
  - apply step_outputs_inv in H as (_ & ->). left.
    destruct (poll_outputs_fields t r st) as (_ & Hsent & _).
    unfold sent_since. rewrite Hsent, drop_all. constructor.
  - injection H as <-. left. unfold sent_since. simpl. by rewrite drop_all.
Qed.

Lemma step_finished e st ev st' :
  invariant st -> finished st -> step e st ev = Some st' ->
  finished st'
  /\ Forall (fun r => is_status_request r = false) (sent_since st st').
Proof.
  intros Hinv [Hno [t0 Ht0]] H. split.
  - destruct ev as [sel files ty text|srv|t|t r|t r|].
    + apply step_edit_inv in H as ->. split; eauto.
    + apply step_click_inv in H as [Hi _].
      destruct Ht0 as [? Ht0]. by rewrite (inv_idle _ Hinv Hi) in Ht0.
    + apply step_tick_inv in H as (Ht & _). by destruct (Hno t).
    + apply step_status_inv in H as (Ht & runId & Hclo & ->).
      destruct (poll_status_fields t runId r st) as (Hc & Hi & _).
      split; [|rewrite Hc; eauto]. intros x Hx. eapply Hno; eauto.
    + apply step_outputs_inv in H as (Ht & ->).
      destruct (poll_outputs_fields t r st) as (Hc & _ & Hi & _).
      split; [|rewrite Hc; eauto]. intros x Hx. eapply Hno; eauto.
    + injection H as <-. split; eauto.
  - destruct (step_status_request _ _ _ _ H)
      as [?|(t & runId & -> & Ht & _)]; [done|]. by destruct (Hno t).
Qed.

Lemma run_finished e evs st st' :
  invariant st -> finished st -> run e st evs = Some st' ->
  finished st'
  /\ Forall (fun r => is_status_request r = false) (sent_since st st').
Proof.
  revert st. induction evs as [|ev evs IH]; intros st Hinv Hfin; simpl.
  - intros [= <-]. split; [done|]. unfold sent_since. rewrite drop_all.
    constructor.
  - destruct (step e st ev) as [st1|] eqn:Hstep; [|done]. simpl. intros Hrun.
    destruct (step_finished _ _ _ _ Hinv Hfin Hstep) as [Hfin1 Hsent1].
    destruct (IH _ (step_invariant _ _ _ _ Hinv Hstep) Hfin1 Hrun)
      as [Hfin' Hsent'].
    split; [done|].
    rewrite (sent_since_trans st st1 st').
    + by apply Forall_app.
    + by eapply step_extends.
    + by eapply run_extends.
Qed.

End AppFacts.

Section AppClaims.
Import Js App Spec Samples.
#[local] Open Scope list_scope.

Lemma not_elem_of_cleared (timers : gset nat) (t : nat) :
  t ∉ timers ∖ {[t]}.
Proof. apply not_elem_of_difference. right. by apply elem_of_singleton. Qed.

Lemma polling_active : 1 ∈ intervals polling.
Proof. refine (bool_decide_unpack _ _). vm_compute. exact I. Qed.

(** A run of the page: the clip is picked, the button pressed, the run
    polled twice without a terminal status, then reported as succeeded,
    and the outputs arrive. *)
Example a_successful_job :
  exists st,
    run env start
      [ pick_clip; Click good_server;
        Tick 1; StatusSettled 1 (Fulfilled still_processing);
        Tick 1; StatusSettled 1 (Fulfilled succeeded);
        OutputsSettled 1 (Fulfilled two_outputs) ] = Some st
    /\ sent st
       = [ DropboxDownload "sl.token" "/talks/clip.mp4";
           GetUploadUrl "/talks/clip.mp4" 4 "video/mp4";
           PutUpload "https://upload.example/put" clip_bytes "video/mp4";
           FinalizeUpload "video-7";
           RunAgent "file-uuid-7" (Some "agent-webinar") None false;
           GetAgentRunSimple "run-42";
           GetAgentRunSimple "run-42";
           GetAgentRunOutputs "run-42" ]
    /\ processingStatus st
       = {| status := completed;
            progress := None;
            message := Some "Video processed successfully!";
            outputUrls := Some [ Str "https://cdn.example/a.mp4";
                                 Str "https://cdn.example/b.mp4" ] |}
    /\ intervals st = ∅.
Proof. eexists. split; [vm_compute; reflexivity|]. repeat split. Qed.

Lemma finished_after_clear st t :
  invariant st -> is_Some (closures st !! t) ->
  forall st', closures st' = closures st ->
              intervals st' = intervals st ∖ {[t]} -> finished st'.
Proof.
  intros Hinv Ht st' Hc Hi. split; [|rewrite Hc; eauto].
  intros x. rewrite Hi, elem_of_difference, elem_of_singleton.
  intros [Hx Hne]. apply Hne. eapply inv_single; eauto.
  by apply (inv_intervals _ Hinv).
Qed.

(** C1. On a page reached from the loaded one, when a status response
    arrives for the poll timer [t]: if the reported status is success or
    failed, the timer is cleared, it stays cleared whatever happens next,
    and no status request is sent any more; if the reported status is any
    other value, the set of active timers is left as it is, so that a timer
    that was active is active still and its next tick sends the status
    request again. *)
Theorem poll_stops_exactly_on_terminal_status
    (e : environment) (st st' : app) (t : nat) (d : status_data)
    (Hreach : reachable e st)
    (Hstep : step e st (StatusSettled t (Fulfilled d)) = Some st') :
  (terminal (sd_status d) ->
     (t ∉ intervals st')
     /\ forall evs st'', run e st' evs = Some st'' ->
          (t ∉ intervals st'')
          /\ Forall (fun r => is_status_request r = false) (sent_since st' st''))
  /\ (~ terminal (sd_status d) ->
     intervals st' = intervals st
     /\ (t ∈ intervals st ->
         exists runId st'',
           step e st' (Tick t) = Some st''
           /\ sent_since st' st'' = [GetAgentRunSimple runId])).
Proof.
  pose proof (reachable_invariant _ _ Hreach) as Hinv.
  pose proof (step_invariant _ _ _ _ Hinv Hstep) as Hinv'.
  apply step_status_inv in Hstep as (Hwait & runId & Hclo & ->).
  split.
  - intros Hterm.
    assert (Hfin : finished (poll_status t runId (Fulfilled d) st)).
    { apply (finished_after_clear st t Hinv); [eauto | |].
      - destruct Hterm as [H|H];
          [apply (poll_status_success t runId d st H)
          |apply (poll_status_failed t runId d st H)].
      - destruct Hterm as [H|H];
          [apply (poll_status_success t runId d st H)
          |apply (poll_status_failed t runId d st H)]. }
    split; [apply Hfin|].
    intros evs st'' Hrun.
    destruct (run_finished _ _ _ _ Hinv' Hfin Hrun) as [Hfin'' Hsent].
    split; [apply Hfin'' | done].
  - intros Hn.
    destruct (poll_status_other t runId d st Hn) as (Hsent & Hi & _ & _ & Hc).
    split; [done|]. intros Ht.
    exists runId, (poll_tick t runId (poll_status t runId (Fulfilled d) st)).
    split.
    + apply step_tick; [by rewrite Hi | by rewrite Hc].
    + unfold sent_since. simpl. by rewrite drop_app_length.
Qed.

Lemma poll_stops_witness :
  (terminal "success" ->
     (1 ∉ intervals (poll_status 1 "run-42" (Fulfilled succeeded) polled))
     /\ forall evs st'',
          run env (poll_status 1 "run-42" (Fulfilled succeeded) polled) evs
          = Some st'' ->
          (1 ∉ intervals st'')
          /\ Forall (fun r => is_status_request r = false)
               (sent_since (poll_status 1 "run-42" (Fulfilled succeeded) polled)
                           st''))
  /\ (~ terminal "success" ->
     intervals (poll_status 1 "run-42" (Fulfilled succeeded) polled)
     = intervals polled
     /\ (1 ∈ intervals polled ->
         exists runId st'',
           step env (poll_status 1 "run-42" (Fulfilled succeeded) polled) (Tick 1)
           = Some st''
           /\ sent_since (poll_status 1 "run-42" (Fulfilled succeeded) polled) st''
              = [GetAgentRunSimple runId])).
Proof.
  apply (poll_stops_exactly_on_terminal_status env polled
           (poll_status 1 "run-42" (Fulfilled succeeded) polled) 1 succeeded).
  - exists [pick_clip; Click good_server; Tick 1]. vm_compute. reflexivity.
  - vm_compute. reflexivity.
Defined.


(** The calls of [processVideo] after the download, by what the services
    answer. *)
Lemma processVideo_calls e srv st :
  match selectedVideo st with
  | None => True
  | Some chosen =>
      match List.find (fun f => vf_id f === vf_id chosen) (dropboxFiles st) with
      | None => True
      | Some listed =>
          match dropbox_download srv (VITE_DROPBOX_ACCESS_TOKEN e)
                  (or_opt (vf_path listed) (vf_name listed)) with
          | Ok bytes =>
              let download := DropboxDownload (VITE_DROPBOX_ACCESS_TOKEN e)
                                (or_opt (vf_path listed) (vf_name listed)) in
              let get_url := GetUploadUrl (vf_name chosen) (blob_size bytes)
                               "video/mp4" in
              match get_upload_url srv (vf_name chosen) (blob_size bytes)
                      "video/mp4" with
              | Rejected _ =>
                  sent_since st (processVideo e srv st) = [download; get_url]
              | Fulfilled (url, vid) =>
                  let put := PutUpload url bytes "video/mp4" in
                  match put_upload srv url bytes with
                  | Rejected _ =>
                      sent_since st (processVideo e srv st)
                      = [download; get_url; put]
                  | Fulfilled _ =>
                      match finalize_upload srv vid with
                      | Rejected _ =>
                          sent_since st (processVideo e srv st)
                          = [download; get_url; put; FinalizeUpload vid]
                      | Fulfilled fid =>
                          exists aid pr au,
                            sent_since st (processVideo e srv st)
                            = [download; get_url; put; FinalizeUpload vid;
                               RunAgent fid aid pr au]
                      end
                  end
              end
          | _ => True
          end
      end
  end.
Proof. process_cases e srv st; eauto. Qed.

(** C2. Once the file is downloaded, [processVideo] performs the upload,
    for every type of short and whatever the services answer: it asks for
    the upload URL, sending the name of the selected video, the size of the
    downloaded file and the content type; if that succeeds it PUTs the file
    to the URL of the response; if that succeeds it calls finalize-upload
    for the video of the first response; and if that succeeds it calls
    run-agent with the [file_uuid] of the finalize response.  A call that
    fails is the last one.  So the calls are made in the order download,
    get-upload-url, PUT, finalize-upload, run-agent, none twice and none
    skipped, and a run-agent call is made only after the three calls of the
    upload have succeeded, with the identifier that finalize returned. *)
Theorem upload_is_two_phase_before_run
    (e : environment) (srv : server) (st : app) :
  let st' := processVideo e srv st in
  map phase (sent_since st st') = seq 0 (length (sent_since st st'))
  /\ (forall fileId agentId prompt' auto,
       RunAgent fileId agentId prompt' auto ∈ sent_since st st' ->
       exists selected file videoBlob upload_url video_id,
         selectedVideo st = Some selected
         /\ List.find (fun f => vf_id f === vf_id selected) (dropboxFiles st)
            = Some file
         /\ dropbox_download srv (VITE_DROPBOX_ACCESS_TOKEN e)
              (or_opt (vf_path file) (vf_name file)) = Ok videoBlob
         /\ get_upload_url srv (vf_name selected) (blob_size videoBlob) "video/mp4"
            = Fulfilled (upload_url, video_id)
         /\ put_upload srv upload_url videoBlob = Fulfilled tt
         /\ finalize_upload srv video_id = Fulfilled fileId
         /\ sent_since st st'
            = [ DropboxDownload (VITE_DROPBOX_ACCESS_TOKEN e)
                  (or_opt (vf_path file) (vf_name file));
                GetUploadUrl (vf_name selected) (blob_size videoBlob) "video/mp4";
                PutUpload upload_url videoBlob "video/mp4";
                FinalizeUpload video_id;
                RunAgent fileId agentId prompt' auto ])
  /\ (forall chosen listed bytes,
       selectedVideo st = Some chosen ->
       List.find (fun f => vf_id f === vf_id chosen) (dropboxFiles st)
       = Some listed ->
       dropbox_download srv (VITE_DROPBOX_ACCESS_TOKEN e)
         (or_opt (vf_path listed) (vf_name listed)) = Ok bytes ->
       let download := DropboxDownload (VITE_DROPBOX_ACCESS_TOKEN e)
                         (or_opt (vf_path listed) (vf_name listed)) in
       let get_url := GetUploadUrl (vf_name chosen) (N.of_nat (length bytes))
                        "video/mp4" in
       (forall failure,
          get_upload_url srv (vf_name chosen) (N.of_nat (length bytes))
            "video/mp4" = Rejected failure ->
          sent_since st st' = [download; get_url])
       /\ (forall url vid,
             get_upload_url srv (vf_name chosen) (N.of_nat (length bytes))
               "video/mp4" = Fulfilled (url, vid) ->
             let put := PutUpload url bytes "video/mp4" in
             (forall failure,
                put_upload srv url bytes = Rejected failure ->
                sent_since st st' = [download; get_url; put])
             /\ (put_upload srv url bytes = Fulfilled tt ->
                 let finalize := FinalizeUpload vid in
                 (forall failure,
                    finalize_upload srv vid = Rejected failure ->
                    sent_since st st' = [download; get_url; put; finalize])
                 /\ (forall fid,
                       finalize_upload srv vid = Fulfilled fid ->
                       exists aid pr au,
                         sent_since st st'
                         = [download; get_url; put; finalize;
                            RunAgent fid aid pr au])))).
Proof.
  intros st'. split; [apply processVideo_order|]. subst st'. split.
  - intros fid aid pr au.
    process_cases e srv st.
    all: intros Hin;
      repeat (apply elem_of_cons in Hin as [Hin|Hin]; [try discriminate|]);
      try (by apply elem_of_nil in Hin).
    all: injection Hin as -> -> -> ->.
    all: exists sel, file, videoBlob, upload_url, video_id; done.
  - intros chosen listed bytes Hchosen Hlisted Hbytes.
    pose proof (processVideo_calls e srv st) as Hcalls.
    rewrite Hchosen, Hlisted, Hbytes in Hcalls. cbn zeta in *.
    change (N.of_nat (length bytes)) with (blob_size bytes).
    split.
    { intros failure Hfail. by rewrite Hfail in Hcalls. }
    intros url vid Hurl. rewrite Hurl in Hcalls. split.
    { intros failure Hfail. by rewrite Hfail in Hcalls. }
    intros Hput. rewrite Hput in Hcalls. split.
    { intros failure Hfail. by rewrite Hfail in Hcalls. }
    intros fid Hfid. by rewrite Hfid in Hcalls.
Qed.

Lemma upload_witness :
  exists aid pr au,
    sent_since Inputs.picked_prompt
      (processVideo env good_server Inputs.picked_prompt)
    = [ DropboxDownload "sl.token" "/talks/clip.mp4";
        GetUploadUrl "/talks/clip.mp4" 4 "video/mp4";
        PutUpload "https://upload.example/put" clip_bytes "video/mp4";
        FinalizeUpload "video-7";
        RunAgent "file-uuid-7" aid pr au ].
Proof.
  destruct (proj2 (proj2 (upload_is_two_phase_before_run env good_server
                            Inputs.picked_prompt))
              clip clip clip_bytes eq_refl eq_refl eq_refl) as [_ Hurl].
  destruct (Hurl "https://upload.example/put" "video-7" eq_refl) as [_ Hput].
  destruct (Hput eq_refl) as [_ Hfin].
  exact (Hfin "file-uuid-7" eq_refl).
Defined.

(** C3, the claim as stated fails: with a run submitted and its poll timer
    active, unmounting the component leaves the timer active, and its next
    tick sends the status request. *)
Lemma unmount_keeps_poll_timer :
  1 ∈ intervals polling
  /\ ~ unmount_clears_timers polling
  /\ 1 ∈ intervals (unmount polling)
  /\ step env (unmount polling) (Tick 1)
     = Some (poll_tick 1 "run-42" (unmount polling))
  /\ sent_since (unmount polling) (poll_tick 1 "run-42" (unmount polling))
     = [GetAgentRunSimple "run-42"].
Proof.
  assert (H : 1 ∈ intervals (unmount polling)) by apply polling_active.
  split; [apply polling_active|].
  split; [intros Hclaim; by apply (Hclaim 1)|].
  split; [done|].
  split; [|reflexivity].
  apply step_tick; [done | reflexivity].
Qed.

(** C3, amended.  A press of the process button creates exactly one poll
    timer when the run-agent call succeeds and none when the pipeline ends
    earlier.  The timer is cleared when a status response reports success
    or failed and when a status or outputs request fails.  Component
    teardown does not clear it: [App] registers no cleanup for it, and the
    teardown effect of [Chat] clears the scroll timeout of [Chat]. *)
Theorem one_poll_timer_per_submitted_run
    (e : environment) (st : app) :
  (forall srv st', reachable e st -> step e st (Click srv) = Some st' ->
     (intervals st' = ∅
      /\ Forall (fun r => phase r = 4 -> fails srv r) (sent_since st st'))
     \/ exists fileId agentId prompt' auto runId,
          last (sent_since st st') = Some (RunAgent fileId agentId prompt' auto)
          /\ run_agent srv fileId agentId prompt' auto = Fulfilled runId
          /\ intervals st' = {[next_timer st]}
          /\ closures st' !! next_timer st = Some runId)
  /\ (forall t r st', step e st (StatusSettled t r) = Some st' ->
        match r with
        | Fulfilled d => terminal (sd_status d) -> t ∉ intervals st'
        | Rejected _ => t ∉ intervals st'
        end)
  /\ (forall t err st',
        step e st (OutputsSettled t (Rejected err)) = Some st' ->
        t ∉ intervals st')
  /\ intervals (unmount st) = intervals st
  /\ (forall c t, Chat.scrollTimeoutRef c = Some t ->
                  t ∉ Chat.timeouts (Chat.unmount c)).
Proof.
  split; [|split; [|split; [|split]]].
  - intros srv st' Hreach Hstep.
    pose proof (reachable_invariant _ _ Hreach) as Hinv.
    apply step_click_inv in Hstep as [Hidle ->].
    assert (Hempty : intervals st = ∅).
    { apply set_eq. intros t. split; [|by intros ?%not_elem_of_empty].
      intros Ht.
      destruct (inv_intervals _ Hinv t Ht) as [? Hc].
      by rewrite (inv_idle _ Hinv Hidle) in Hc. }
    destruct (processVideo_timers e srv st)
      as (_ & _ & [(Hi & _ & _ & Hf)|(f & a & p & au & rid & Hl & Hr & Hi & Hc & _)]).
    + left. by rewrite Hi.
    + right. exists f, a, p, au, rid. rewrite Hi, Hc, Hempty.
      repeat split; try done;
        [apply (right_id_L ∅ (∪)) | apply lookup_insert_eq].
  - intros t r st' Hstep.
    apply step_status_inv in Hstep as (_ & runId & _ & ->).
    destruct r as [err|d].
    + destruct (poll_status_rejected t runId err st) as (_ & -> & _).
      apply not_elem_of_cleared.
    + intros [H|H].
      * destruct (poll_status_success t runId d st H) as (_ & -> & _).
        apply not_elem_of_cleared.
      * destruct (poll_status_failed t runId d st H) as (_ & -> & _).
        apply not_elem_of_cleared.
  - intros t err st' Hstep. apply step_outputs_inv in Hstep as (_ & ->).
    simpl. apply not_elem_of_cleared.
  - reflexivity.
  - intros c t Hc. unfold Chat.unmount, Chat.clear_scroll_timeout.
    rewrite Hc. simpl. apply not_elem_of_cleared.
Qed.

Lemma one_poll_timer_witness :
  (intervals polling = ∅
   /\ Forall (fun r => phase r = 4 -> fails good_server r)
             (sent_since picked polling))
  \/ exists fileId agentId prompt' auto runId,
       last (sent_since picked polling)
       = Some (RunAgent fileId agentId prompt' auto)
       /\ run_agent good_server fileId agentId prompt' auto = Fulfilled runId
       /\ intervals polling = {[next_timer picked]}
       /\ closures polling !! next_timer picked = Some runId.
Proof.
  apply (proj1 (one_poll_timer_per_submitted_run env picked) good_server polling).
  - exists [pick_clip]. reflexivity.
  - reflexivity.
Defined.


Lemma step_calm_intervals e st ev st' t :
  calm ev -> step e st ev = Some st' -> t ∈ intervals st -> t ∈ intervals st'.
Proof.
  intros Hcalm H Ht. destruct ev as [sel files ty text|srv|t0|t0 r|t0 r|].
  - by apply step_edit_inv in H as ->.
  - apply step_click_inv in H as [_ ->].
    destruct (processVideo_timers e srv st)
      as (_ & _ & [(-> & _)|(f & a & p & au & rid & _ & _ & -> & _)]);
      [done|]. apply elem_of_union. by right.
  - by apply step_tick_inv in H as (_ & runId & _ & ->).
  - apply step_status_inv in H as (_ & runId & _ & ->).
    destruct r as [err|d]; [done|].
    by destruct (poll_status_other t0 runId d st Hcalm) as (_ & -> & _).
  - apply step_outputs_inv in H as (_ & ->). by destruct r.
  - by injection H as <-.
Qed.

Lemma run_calm_intervals e evs st st' t :
  Forall calm evs -> run e st evs = Some st' ->
  t ∈ intervals st -> t ∈ intervals st'.
Proof.
  revert st. induction evs as [|ev evs IH]; intros st Hcalm; simpl.
  - by intros [= <-].
  - destruct (step e st ev) as [st1|] eqn:Hstep; [|done]. simpl.
    inversion Hcalm; subst. intros Hrun Ht. apply (IH st1); [done..|].
    by eapply step_calm_intervals.
Qed.

Lemma poll_round e st t runId d :
  t ∈ intervals st -> closures st !! t = Some runId ->
  ~ terminal (sd_status d) ->
  exists st', run e st [Tick t; StatusSettled t (Fulfilled d)] = Some st'
              /\ t ∈ intervals st' /\ closures st' !! t = Some runId
              /\ sent st' = sent st ++ [GetAgentRunSimple runId].
Proof.
  intros Ht Hclo Hn.
  exists (poll_status t runId (Fulfilled d) (poll_tick t runId st)).
  destruct (poll_status_other t runId d (poll_tick t runId st) Hn)
    as (Hsent & Hi & _ & _ & Hc).
  split; [|by rewrite Hi, Hc, Hsent].
  cbn [run]. rewrite (step_tick e st t runId Ht Hclo). cbn [mbind option_bind].
  cbn [step]. rewrite decide_True.
  - cbn [closures poll_tick set_awaiting send]. by rewrite Hclo.
  - cbn [awaiting_status poll_tick set_awaiting send].
    apply elem_of_app. right. by apply list_elem_of_singleton.
Qed.

Lemma run_app e st evs1 evs2 st1 :
  run e st evs1 = Some st1 -> run e st (evs1 ++ evs2) = run e st1 evs2.
Proof.
  revert st. induction evs1 as [|ev evs1 IH]; intros st; simpl.
  - by intros [= ->].
  - destruct (step e st ev) as [st0|]; [|done]. simpl. apply IH.
Qed.

Lemma poll_rounds_calm t d n :
  ~ terminal (sd_status d) -> Forall calm (poll_rounds t d n).
Proof. intros Hn. induction n; simpl; repeat constructor; done. Qed.

(** C4. While a poll timer is active, no event in which the server reports
    a non-terminal status (and no request of a poll callback fails) clears
    it: neither the passing of time, nor any number of ticks, nor input of
    the user, nor the unmounting of the component.  And the polling goes on:
    for every [n] the page takes [n] further rounds of tick and non-terminal
    response, sends [n] further status requests, and has its timer active
    afterwards. *)
Theorem poll_never_times_out
    (e : environment) (st : app) (t : nat) (runId : string)
    (Hactive : t ∈ intervals st)
    (Hclosure : closures st !! t = Some runId) :
  (forall evs st', Forall calm evs -> run e st evs = Some st' ->
                   t ∈ intervals st')
  /\ (forall d n, ~ terminal (sd_status d) ->
        exists st', run e st (poll_rounds t d n) = Some st'
                    /\ t ∈ intervals st'
                    /\ sent_since st st' = replicate n (GetAgentRunSimple runId)).
Proof.
  split.
  - intros evs st' Hcalm Hrun. by eapply run_calm_intervals.
  - intros d n Hn.
    assert (Hgen : forall st, t ∈ intervals st -> closures st !! t = Some runId ->
              exists st', run e st (poll_rounds t d n) = Some st'
                          /\ t ∈ intervals st'
                          /\ sent st' = sent st ++ replicate n (GetAgentRunSimple runId)).
    { clear st Hactive Hclosure. induction n as [|n IH]; intros st Ht Hclo.
      - exists st. simpl. by rewrite app_nil_r.
      - destruct (poll_round e st t runId d Ht Hclo Hn)
          as (st1 & Hrun1 & Ht1 & Hclo1 & Hsent1).
        destruct (IH st1 Ht1 Hclo1) as (st' & Hrun & Ht' & Hsent).
        exists st'. split; [|split; [done|]].
        + change (poll_rounds t d (S n))
            with ([Tick t; StatusSettled t (Fulfilled d)] ++ poll_rounds t d n).
          by rewrite (run_app _ _ _ _ _ Hrun1).
        + rewrite Hsent, Hsent1, <- app_assoc. done. }
    destruct (Hgen st Hactive Hclosure) as (st' & Hrun & Ht' & Hsent).
    exists st'. repeat split; try done. by apply sent_since_app.
Qed.

Lemma poll_never_times_out_witness :
  (forall evs st', Forall calm evs -> run env polling evs = Some st' ->
                   1 ∈ intervals st')
  /\ (forall d n, ~ terminal (sd_status d) ->
        exists st', run env polling (poll_rounds 1 d n) = Some st'
                    /\ 1 ∈ intervals st'
                    /\ sent_since polling st'
                       = replicate n (GetAgentRunSimple "run-42")).
Proof.
  apply (poll_never_times_out env polling 1 "run-42").
  - refine (bool_decide_unpack _ _). vm_compute. exact I.
  - reflexivity.
Defined.


(** C5. The outputs request is sent only by the handling of a status
    response that reports success, and then for the run of that poll
    callback; the handling of a status response that reports failed sends
    no request at all and sets the processing status to the error state. *)
Theorem outputs_fetched_only_after_success
    (e : environment) (st st' : app) (ev : event)
    (Hstep : step e st ev = Some st') :
  (forall r, r ∈ sent_since st st' -> is_outputs_request r = true ->
     exists t d runId,
       ev = StatusSettled t (Fulfilled d) /\ sd_status d = "success"
       /\ closures st !! t = Some runId
       /\ sent_since st st' = [GetAgentRunOutputs runId])
  /\ (forall t d, ev = StatusSettled t (Fulfilled d) ->
        sd_status d = "success" ->
        exists runId, closures st !! t = Some runId
                      /\ sent_since st st' = [GetAgentRunOutputs runId])
  /\ (forall t d, ev = StatusSettled t (Fulfilled d) ->
        sd_status d = "failed" ->
        sent_since st st' = []
        /\ processingStatus st'
           = status_message error "Processing failed. Please try again.").
Proof.
  split; [|split].
  - intros r Hr Hout. destruct ev as [sel files ty text|srv|t|t rs|t ro|].
    + apply step_edit_inv in Hstep as ->. unfold sent_since in Hr.
      simpl in Hr. rewrite drop_all in Hr. by apply elem_of_nil in Hr.
    + apply step_click_inv in Hstep as [_ ->].
      pose proof (processVideo_no_poll_request e srv st) as Hall.
      rewrite Forall_forall in Hall. destruct (Hall r Hr). congruence.
    + apply step_tick_inv in Hstep as (_ & runId & _ & ->).
      unfold sent_since in Hr. simpl in Hr. rewrite drop_app_length in Hr.
      apply list_elem_of_singleton in Hr as ->. discriminate.
    + apply step_status_inv in Hstep as (_ & runId & Hclo & ->).
      destruct rs as [err|d].
      * unfold sent_since in Hr. simpl in Hr. rewrite drop_all in Hr.
        by apply elem_of_nil in Hr.
      * destruct (terminal_dec (sd_status d)) as [[Hs|Hf]|Hn].
        -- destruct (poll_status_success t runId d st Hs) as (Hsent & _).
           exists t, d, runId. repeat split; try done.
           by apply sent_since_app.
        -- destruct (poll_status_failed t runId d st Hf) as (Hsent & _).
           unfold sent_since in Hr. rewrite Hsent, drop_all in Hr.
           by apply elem_of_nil in Hr.
        -- destruct (poll_status_other t runId d st Hn) as (Hsent & _).
           unfold sent_since in Hr. rewrite Hsent, drop_all in Hr.
           by apply elem_of_nil in Hr.
    + apply step_outputs_inv in Hstep as (_ & ->).
      destruct (poll_outputs_fields t ro st) as (_ & Hsent & _).
      unfold sent_since in Hr. rewrite Hsent, drop_all in Hr.
      by apply elem_of_nil in Hr.
    + injection Hstep as <-. unfold sent_since in Hr. simpl in Hr.
      rewrite drop_all in Hr. by apply elem_of_nil in Hr.
  - intros t d -> Hs.
    apply step_status_inv in Hstep as (_ & runId & Hclo & ->).
    destruct (poll_status_success t runId d st Hs) as (Hsent & _).
    exists runId. split; [done|]. by apply sent_since_app.
  - intros t d -> Hf.
    apply step_status_inv in Hstep as (_ & runId & Hclo & ->).
    destruct (poll_status_failed t runId d st Hf) as (Hsent & _ & Hps & _).
    split; [|done]. unfold sent_since. by rewrite Hsent, drop_all.
Qed.

Lemma outputs_fetched_witness :
  sent_since polled (poll_status 1 "run-42" (Fulfilled failed_run) polled) = []
  /\ processingStatus (poll_status 1 "run-42" (Fulfilled failed_run) polled)
     = status_message error "Processing failed. Please try again.".
Proof.
  apply (proj2 (proj2 (outputs_fetched_only_after_success env polled
                         (poll_status 1 "run-42" (Fulfilled failed_run) polled)
                         (StatusSettled 1 (Fulfilled failed_run))
                         ltac:(vm_compute; reflexivity)))
           1 failed_run); reflexivity.
Defined.


(** C6. A failed HTTP call is reported and not repeated.  In
    [processVideo] the failed call is the last call made, every call is
    made at most once, no poll timer is created, the status returns to idle
    (Dropbox download) or becomes the error state with its fixed message
    (Mosaic calls), a destructive toast is shown and the console is written
    to.  A failed status or outputs request of the poll callback sends
    nothing, clears the timer and writes one line to the console; status
    and toasts stay as they are.  In the chat route a failed MCP call ends
    the calls, writes one console line and yields the 500 response.  None
    of this depends on what the error is, except for the text logged or
    shown. *)
Theorem failures_are_surfaced_and_not_retried
    (e : environment) (st : app) :
  (forall srv r,
     r ∈ sent_since st (processVideo e srv st) -> fails srv r ->
     last (sent_since st (processVideo e srv st)) = Some r
     /\ map phase (sent_since st (processVideo e srv st))
        = seq 0 (length (sent_since st (processVideo e srv st)))
     /\ intervals (processVideo e srv st) = intervals st
     /\ ((phase r = 0
          /\ processingStatus (processVideo e srv st) = status_only idle)
         \/ (phase r <> 0
             /\ processingStatus (processVideo e srv st)
                = status_message error "An error occurred during processing"))
     /\ (exists shown,
           toasts (processVideo e srv st) = toasts st ++ [shown]
           /\ variant shown = Some "destructive")
     /\ (exists logged,
           console (processVideo e srv st) = console st ++ logged
           /\ logged <> []))
  /\ (forall t err st',
        step e st (StatusSettled t (Rejected err)) = Some st' ->
        sent_since st st' = [] /\ (t ∉ intervals st')
        /\ console st' = console st ++ ["Polling error: " +:+ err]
        /\ processingStatus st' = processingStatus st
        /\ toasts st' = toasts st)
  /\ (forall t err st',
        step e st (OutputsSettled t (Rejected err)) = Some st' ->
        sent_since st st' = [] /\ (t ∉ intervals st')
        /\ console st' = console st ++ ["Polling error: " +:+ err]
        /\ processingStatus st' = processingStatus st
        /\ toasts st' = toasts st)
  /\ (forall messages msrv,
        Route.init_fails msrv ->
        Route.reply (Route.POST messages msrv)
        = Route.JsonResponse 500 "Failed to initialize MCP client"
        /\ length (Route.console_error (Route.POST messages msrv)) = 1
        /\ Route.mcp_calls (Route.POST messages msrv)
           = take (length (Route.mcp_calls (Route.POST messages msrv)))
                  [Route.CreateClient; Route.ListTools; Route.ListTools]).
Proof.
  split; [|split; [|split]].
  - intros srv r. process_cases e srv st.
    all: intros Hin Hfail;
      repeat (apply elem_of_cons in Hin as [->|Hin]);
      try (by apply elem_of_nil in Hin);
      simpl in Hfail;
      repeat match goal with
             | H : ?x = _, Hf : context [?x] |- _ => rewrite H in Hf
             end;
      try done.
    all: do 3 (split; [done|]).
    all: split; [first [by left | by right]|].
    all: split; eexists; (split; [reflexivity | done]).
  - intros t err st' Hstep.
    apply step_status_inv in Hstep as (_ & runId & _ & ->).
    destruct (poll_status_rejected t runId err st)
      as (Hsent & Hi & Hps & Hto & Hco & _).
    repeat split; try done.
    + unfold sent_since. by rewrite Hsent, drop_all.
    + rewrite Hi. apply not_elem_of_cleared.
  - intros t err st' Hstep. apply step_outputs_inv in Hstep as (_ & ->).
    repeat split; try done.
    + unfold sent_since. simpl. by rewrite drop_all.
    + simpl. apply not_elem_of_cleared.
  - intros messages msrv Hfail. unfold Route.POST, Route.init_fails in *.
    destruct (Route.createMCPClient msrv) as [e1|[]]; [done|].
    destruct (Route.tools_first msrv) as [e2|t1]; [done|].
    destruct (Route.tools_second msrv) as [e3|t2]; [done|].
    destruct Hfail as [[? [=]]|[[? [=]]|[? [=]]]].
Qed.


Lemma failures_witness :
  last (sent_since picked (processVideo env bad_finalize_server picked))
  = Some (FinalizeUpload "video-7")
  /\ map phase (sent_since picked (processVideo env bad_finalize_server picked))
     = seq 0 (length (sent_since picked
                        (processVideo env bad_finalize_server picked)))
  /\ intervals (processVideo env bad_finalize_server picked) = intervals picked
  /\ ((phase (FinalizeUpload "video-7") = 0
       /\ processingStatus (processVideo env bad_finalize_server picked)
          = status_only idle)
      \/ (phase (FinalizeUpload "video-7") <> 0
          /\ processingStatus (processVideo env bad_finalize_server picked)
             = status_message error "An error occurred during processing"))
  /\ (exists shown,
        toasts (processVideo env bad_finalize_server picked)
        = toasts picked ++ [shown]
        /\ variant shown = Some "destructive")
  /\ (exists logged,
        console (processVideo env bad_finalize_server picked)
        = console picked ++ logged
        /\ logged <> []).
Proof.
  apply (proj1 (failures_are_surfaced_and_not_retried env picked)
           bad_finalize_server (FinalizeUpload "video-7")).
  - vm_compute. repeat constructor.
  - exact I.
Defined.

(** Outside the premise of C7: of three output descriptors the second has
    no download URL, and the list shown to the user has two entries. *)
Lemma output_without_url_is_dropped :
  collect_urls three_outputs
  = [Str "https://cdn.example/a.mp4"; Str "https://cdn.example/b.mp4"]
  /\ length (descriptors three_outputs) = 3
  /\ ~ one_url_per_descriptor three_outputs.
Proof. repeat split. intros [=]. Qed.

(** C7. When every output descriptor of the response carries a download
    URL (a truthy [download_url]), the output URLs put into the processing
    status on success are the download URLs of the descriptors, exactly one
    per descriptor and in the order of the response.  In general they are
    the truthy [download_url] values of the descriptors, each as often as it
    occurs and in that order: the code filters, and a descriptor without a
    download URL contributes nothing. *)
Theorem output_urls_are_truthy_download_urls
    (t : nat) (d : outputs_data) (st : app) :
  outputUrls (processingStatus (poll_outputs t (Fulfilled d) st))
  = Some (collect_urls d)
  /\ kept (fun v => truthy v = true)
          (map download_url (descriptors d)) (collect_urls d)
  /\ (Forall (fun o => truthy (download_url o) = true) (descriptors d) ->
      outputUrls (processingStatus (poll_outputs t (Fulfilled d) st))
      = Some (map download_url (descriptors d))
      /\ one_url_per_descriptor d
      /\ length (collect_urls d) = length (descriptors d)).
Proof.
  split; [done|]. split; [apply kept_filter|].
  intros Hall. assert (Hone : one_url_per_descriptor d).
  { unfold one_url_per_descriptor.
    apply (kept_all (fun v => truthy v = true)); [|apply kept_filter].
    by apply Forall_map. }
  split; [by rewrite <- Hone|].
  split; [done|]. rewrite Hone. apply length_map.
Qed.

Lemma output_urls_witness :
  outputUrls (processingStatus (poll_outputs 1 (Fulfilled two_outputs) polled))
  = Some (map download_url (descriptors two_outputs))
  /\ one_url_per_descriptor two_outputs
  /\ length (collect_urls two_outputs) = length (descriptors two_outputs).
Proof.
  apply (proj2 (proj2 (output_urls_are_truthy_download_urls 1 two_outputs polled))).
  repeat constructor.
Defined.

End AppClaims.

(** ** The preview *)

Section RegexFacts.
Import Regex Preview Spec Samples.
#[local] Open Scope list_scope.

Lemma greedy_ends Q cl k : ends Q k -> ends Q (greedy cl k).
Proof.
  intros Hk prev s. revert prev.
  induction s as [|c s IH]; intros prev n; simpl; [apply Hk|].
  destruct (cl c); [|apply Hk].
  destruct (greedy cl k (Some c) s) as [m|] eqn:Hg; [|apply Hk].
  intros [= <-]. destruct (IH _ _ Hg). simpl. split; [lia | done].
Qed.

Lemma lazy_ends Q cl k : ends Q k -> ends Q (lazy cl k).
Proof.
  intros Hk prev s. revert prev.
  induction s as [|c s IH]; intros prev n; simpl.
  - destruct (k prev []) as [m|] eqn:Hm; [|done]. intros [= <-]. by apply Hk in Hm.
  - destruct (k prev (c :: s)) as [m|] eqn:Hm.
    { intros [= <-]. by apply Hk in Hm. }
    destruct (cl c); [|done].
    destruct (lazy cl k (Some c) s) as [m|] eqn:Hl; cbn; [|done].
    intros [= <-]. destruct (IH _ _ Hl). simpl. split; [lia | done].
Qed.

Lemma matcher_cons_ends Q a r : ends Q (matcher r) -> ends Q (matcher (a :: r)).
Proof.
  intros Hr. destruct a as [| |cl|cl|cl|cl|cl]; intros prev s n; cbn [matcher].
  - destruct (at_bol prev); [apply Hr | done].
  - destruct (at_eol s); [apply Hr | done].
  - destruct s as [|c s]; [done|]. destruct (in_class cl c); [|done].
    destruct (matcher r (Some c) s) as [m|] eqn:Hm; cbn; [|done].
    intros [= <-]. destruct (Hr _ _ _ Hm). simpl. split; [lia | done].
  - destruct s as [|c s]; [apply Hr|]. destruct (in_class cl c); [|apply Hr].
    destruct (matcher r (Some c) s) as [m|] eqn:Hm; [|apply Hr].
    intros [= <-]. destruct (Hr _ _ _ Hm). simpl. split; [lia | done].
  - by apply greedy_ends.
  - destruct s as [|c s]; [done|]. destruct (in_class cl c); [|done].
    destruct (greedy (in_class cl) (matcher r) (Some c) s) as [m|] eqn:Hm;
      cbn; [|done].
    intros [= <-]. destruct (greedy_ends Q _ _ Hr _ _ _ Hm).
    simpl. split; [lia | done].
  - by apply lazy_ends.
Qed.

(** *** What a match consists of *)

Lemma greedy_yields L cl k :
  yields L k ->
  yields (fun w => exists u v, w = u ++ v
                     /\ Forall (fun c => cl c = true) u /\ L v)
         (greedy cl k).
Proof.
  intros Hk prev s. revert prev.
  assert (Hbase : forall prev s n, k prev s = Some n ->
            n <= length s
            /\ exists u v, take n s = u ++ v
                 /\ Forall (fun c => cl c = true) u /\ L v).
  { intros prev s' n Hn. destruct (Hk _ _ _ Hn). split; [done|].
    by exists [], (take n s'). }
  induction s as [|c s IH]; intros prev n; simpl; [apply Hbase|].
  destruct (cl c) eqn:Hc; [|apply Hbase].
  destruct (greedy cl k (Some c) s) as [m|] eqn:Hg; [|apply Hbase].
  intros [= <-]. destruct (IH _ _ Hg) as (Hm & u & v & Htake & Hu & Hv).
  split; [simpl; lia|]. exists (c :: u), v. simpl. rewrite Htake.
  split; [done|]. split; [by constructor | done].
Qed.

Lemma lazy_yields L cl k :
  yields L k ->
  yields (fun w => exists u v, w = u ++ v
                     /\ Forall (fun c => cl c = true) u /\ L v)
         (lazy cl k).
Proof.
  intros Hk prev s. revert prev.
  assert (Hbase : forall prev s n, k prev s = Some n ->
            n <= length s
            /\ exists u v, take n s = u ++ v
                 /\ Forall (fun c => cl c = true) u /\ L v).
  { intros prev s' n Hn. destruct (Hk _ _ _ Hn). split; [done|].
    by exists [], (take n s'). }
  induction s as [|c s IH]; intros prev n; simpl.
  - destruct (k prev []) as [m|] eqn:Hm; [|done]. intros [= <-].
    by apply Hbase in Hm.
  - destruct (k prev (c :: s)) as [m|] eqn:Hm.
    { intros [= <-]. by apply Hbase in Hm. }
    destruct (cl c) eqn:Hc; [|done].
    destruct (lazy cl k (Some c) s) as [m|] eqn:Hl; cbn; [|done].
    intros [= <-]. destruct (IH _ _ Hl) as (Hm' & u & v & Htake & Hu & Hv).
    split; [simpl; lia|]. exists (c :: u), v. simpl. rewrite Htake.
    split; [done|]. split; [by constructor | done].
Qed.

Lemma matcher_yields r : yields (matches r) (matcher r).
Proof.
  induction r as [|a r IH]; intros prev s n.
  { intros [= <-]. split; [lia|]. rewrite take_0. constructor. }
  destruct a as [| |cl|cl|cl|cl|cl]; cbn [matcher].
  - destruct (at_bol prev); [|done]. intros Hn.
    destruct (IH _ _ _ Hn). split; [done|]. by constructor.
  - destruct (at_eol s); [|done]. intros Hn.
    destruct (IH _ _ _ Hn). split; [done|]. by constructor.
  - destruct s as [|c s]; [done|]. destruct (in_class cl c) eqn:Hc; [|done].
    destruct (matcher r (Some c) s) as [m|] eqn:Hm; cbn; [|done].
    intros [= <-]. destruct (IH _ _ _ Hm). split; [simpl; lia|].
    simpl. by constructor.
  - assert (Hnone : forall n, matcher r prev s = Some n ->
              n <= length s /\ matches (Opt cl :: r) (take n s)).
    { intros m Hm. destruct (IH _ _ _ Hm). split; [done|].
      by apply m_opt_none. }
    destruct s as [|c s]; [apply Hnone|].
    destruct (in_class cl c) eqn:Hc; [|apply Hnone].
    destruct (matcher r (Some c) s) as [m|] eqn:Hm; [|apply Hnone].
    intros [= <-]. destruct (IH _ _ _ Hm). split; [simpl; lia|].
    simpl. by apply m_opt_one.
  - intros Hn.
    destruct (greedy_yields _ (in_class cl) _ IH _ _ _ Hn)
      as (Hle & u & v & -> & Hu & Hv).
    split; [done|]. by constructor.
  - destruct s as [|c s]; [done|]. destruct (in_class cl c) eqn:Hc; [|done].
    destruct (greedy (in_class cl) (matcher r) (Some c) s) as [m|] eqn:Hm;
      cbn; [|done].
    intros [= <-].
    destruct (greedy_yields _ (in_class cl) _ IH _ _ _ Hm)
      as (Hle & u & v & Htake & Hu & Hv).
    split; [simpl; lia|]. simpl. rewrite Htake. by constructor.
  - intros Hn.
    destruct (lazy_yields _ (in_class cl) _ IH _ _ _ Hn)
      as (Hle & u & v & -> & Hu & Hv).
    split; [done|]. by constructor.
Qed.

Lemma matcher_eol_ends r :
  ends (fun rest => at_eol rest = true) (matcher (r ++ [Eol])).
Proof.
  induction r as [|a r IH]; [|by apply matcher_cons_ends].
  intros prev s n. cbn [app matcher]. destruct (at_eol s) eqn:Heol; [|done].
  intros [= <-]. split; [lia | done].
Qed.

Lemma import_match_ends :
  ends (fun rest => at_eol rest = true) (matcher import_re).
Proof.
  change import_re
    with (([Bol] ++ lits "import"
           ++ [Plus Space; LazyStar Dot; Opt (Lit 59%N); Star Space]) ++ [Eol]).
  apply matcher_eol_ends.
Qed.

(** *** Success of the matcher *)

(** A greedy repetition succeeds where its continuation does. *)
Lemma greedy_fallback cl k prev s :
  is_Some (k prev s) -> is_Some (greedy cl k prev s).
Proof.
  intros Hk. destruct s as [|c s]; simpl; [done|].
  destruct (cl c); [|done].
  destruct (greedy cl k (Some c) s); [eauto | done].
Qed.

Lemma greedy_total cl k :
  (forall prev s, is_Some (k prev s)) ->
  forall prev s, is_Some (greedy cl k prev s).
Proof. intros Hk prev s. by apply greedy_fallback. Qed.

(** [;?\s*$] succeeds at the end of a line. *)
Lemma statement_end_at_eol prev s :
  at_eol s = true ->
  is_Some (matcher [Opt (Lit 59%N); Star Space; Eol] prev s).
Proof.
  intros Heol.
  assert (Hrest : forall p, is_Some (matcher [Star Space; Eol] p s)).
  { intros p. cbn [matcher]. apply greedy_fallback. cbn [matcher].
    rewrite Heol. eauto. }
  cbn [matcher]. destruct s as [|c s]; [exact (Hrest prev)|].
  destruct (in_class (Lit 59%N) c); [|exact (Hrest prev)].
  destruct (greedy _ _ (Some c) s); [eauto | exact (Hrest prev)].
Qed.

(** [.*?;?\s*$] succeeds everywhere: at the latest at the end of the line. *)
Lemma rest_of_line_total prev s :
  is_Some (matcher [LazyStar Dot; Opt (Lit 59%N); Star Space; Eol] prev s).
Proof.
  cbn [matcher]. fold (matcher [Opt (Lit 59%N); Star Space; Eol]).
  revert prev. induction s as [|c s IH]; intros prev.
  - cbn [lazy]. destruct (statement_end_at_eol prev [] eq_refl) as [n ->]. eauto.
  - cbn [lazy].
    destruct (matcher [Opt (Lit 59%N); Star Space; Eol] prev (c :: s))
      as [n|] eqn:Hk; [eauto|].
    destruct (in_class Dot c) eqn:Hdot.
    + destruct (IH (Some c)) as [n ->]. cbn. eauto.
    + assert (Heol : at_eol (c :: s) = true).
      { simpl in *. by destruct (is_line_terminator c). }
      destruct (statement_end_at_eol prev (c :: s) Heol) as [n Hn].
      congruence.
Qed.


(** A run of literal characters at the head of a pattern. *)
Lemma matcher_literals (w : list code_unit) r prev s :
  matcher (map (fun c => One (Lit c)) w ++ r) prev s
  = match strip w s with
    | Some s' =>
        (fun n => length w + n)
          <$> matcher r (match last w with Some c => Some c | None => prev end) s'
    | None => None
    end.
Proof.
  revert prev s. induction w as [|a w IH]; intros prev s.
  - cbn. by destruct (matcher r prev s).
  - cbn [map app matcher strip in_class]. destruct s as [|c s]; [done|].
    destruct (c =? a)%N eqn:Hc; [|done].
    apply N.eqb_eq in Hc as ->. rewrite IH, last_cons.
    destruct (strip w s) as [s'|]; [|done].
    destruct (last w); cbn; by destruct (matcher r _ s').
Qed.

(** The import pattern matches exactly where an import begins, and a match
    has at least seven code units. *)
Lemma import_match_start prev s :
  match matcher import_re prev s with
  | Some n => starts_import prev s = true /\ at_bol prev = true /\ 7 <= n
  | None => starts_import prev s = false
  end.
Proof.
  unfold starts_import.
  change import_re
    with (Bol :: (map (fun c => One (Lit c)) (str "import")
                  ++ [Plus Space; LazyStar Dot; Opt (Lit 59%N); Star Space; Eol])).
  cbn [matcher]. destruct (at_bol prev) eqn:Hbol; [|done]. cbn [andb].
  rewrite matcher_literals.
  destruct (strip (str "import") s) as [[|c s']|]; [done| |done].
  cbn [matcher]. change (in_class Space c) with (is_white_space c).
  destruct (is_white_space c); [|done].
  destruct (greedy_total (in_class Space)
              (matcher [LazyStar Dot; Opt (Lit 59%N); Star Space; Eol])
              rest_of_line_total (Some c) s') as [n Hn].
  cbn [matcher] in Hn. rewrite Hn. cbn. repeat split; lia.
Qed.

(** *** The global replacement *)

Lemma replace_all_skip r k prev s :
  k <= length s ->
  replace_all_from r [] k prev s
  = replace_all_from r [] 0
      (match last (take k s) with Some c => Some c | None => prev end)
      (drop k s).
Proof.
  revert prev s. induction k as [|k IH]; intros prev s Hk.
  - by rewrite take_0, drop_0.
  - destruct s as [|c s]; [simpl in Hk; lia|].
    cbn [replace_all_from take drop]. rewrite IH by (simpl in Hk; lia).
    rewrite last_cons. by destruct (last (take k s)).
Qed.

Lemma strip_imports_removed m :
  forall prev s, length s <= m ->
    imports_removed prev s (replace_all_from import_re [] 0 prev s).
Proof.
  induction m as [|m IH]; intros prev s Hlen.
  - destruct s; [|simpl in Hlen; lia].
    cbn [replace_all_from].
    pose proof (import_match_start prev []) as Hm.
    destruct (matcher import_re prev []) as [[|n]|]; constructor.
  - destruct s as [|c s].
    { cbn [replace_all_from].
      destruct (matcher import_re prev []) as [[|n]|]; constructor. }
    cbn [replace_all_from].
    pose proof (import_match_start prev (c :: s)) as Hstart.
    pose proof (import_match_ends prev (c :: s)) as Hend.
    pose proof (matcher_yields import_re prev (c :: s)) as Hword.
    destruct (matcher import_re prev (c :: s)) as [[|n]|].
    + destruct Hstart as (_ & _ & ?). lia.
    + destruct Hstart as (Hstart & Hbol & Hn).
      destruct (Hend _ eq_refl) as [Hle Heol]. simpl in Hle, Heol.
      destruct (Hword _ eq_refl) as [_ Hseg].
      cbn [app]. rewrite replace_all_skip by lia.
      rewrite <- (take_drop (S n) (c :: s)) at 1.
      apply ir_drop.
      * done.
      * done.
      * done.
      * cbn [take drop]. rewrite last_cons.
        apply IH. rewrite length_drop. simpl in Hlen. lia.
    + apply ir_keep; [done|]. apply IH. simpl in Hlen. lia.
Qed.

Lemma replace_all_import_free prev s :
  import_free prev s = true -> replace_all_from import_re [] 0 prev s = s.
Proof.
  revert prev. induction s as [|c s IH]; intros prev; cbn [import_free].
  - intros H. apply andb_true_iff in H as [H _].
    pose proof (import_match_start prev []) as Hm. cbn [replace_all_from].
    destruct (matcher import_re prev []) as [[|n]|]; try done.
  - intros H. apply andb_true_iff in H as [H Hs].
    pose proof (import_match_start prev (c :: s)) as Hm.
    cbn [replace_all_from].
    destruct (matcher import_re prev (c :: s)) as [n|].
    + destruct Hm as [Hm _]. rewrite Hm in H. done.
    + f_equal. by apply IH.
Qed.


(** *** The export pattern *)

(** White space followed by something that is no white space: the greedy
    repetition takes all of it, and giving back does not help. *)
Lemma greedy_span k prev s :
  (forall p c s', is_white_space c = true -> k p (c :: s') = None) ->
  exists p,
    greedy (in_class Space) k prev s
    = (fun n => (span_ws s).1 + n) <$> k p (span_ws s).2.
Proof.
  intros Hk. revert prev. induction s as [|c s IH]; intros prev.
  - exists prev. cbn. by destruct (k prev []).
  - cbn [greedy span_ws in_class]. destruct (is_white_space c) eqn:Hc.
    + destruct (IH (Some c)) as [p Hp]. exists p. rewrite Hp.
      destruct (span_ws s) as [n rest]. cbn [fst snd].
      destruct (k p rest); cbn; [done|]. by apply Hk.
    + exists prev. cbn. by destruct (k prev (c :: s)).
Qed.

Lemma literals_reject_space (w : list code_unit) a r p c s :
  is_white_space a = false -> is_white_space c = true ->
  matcher (map (fun c => One (Lit c)) (a :: w) ++ r) p (c :: s) = None.
Proof.
  intros Ha Hc. cbn [map app matcher in_class].
  destruct (c =? a)%N eqn:Hca; [|done].
  apply N.eqb_eq in Hca as ->. congruence.
Qed.

Lemma plus_space_span r prev s :
  (forall p c s', is_white_space c = true -> matcher r p (c :: s') = None) ->
  exists p,
    matcher (Plus Space :: r) prev s
    = match spaces1 s with
      | Some (n, rest) => (fun m => n + m) <$> matcher r p rest
      | None => None
      end.
Proof.
  intros Hr. cbn [matcher]. unfold spaces1.
  destruct s as [|c s]; [by exists prev|].
  change (in_class Space c) with (is_white_space c).
  destruct (is_white_space c); [|by exists prev].
  destruct (greedy_span (matcher r) (Some c) s Hr) as [p Hp].
  exists p. rewrite Hp.
  destruct (span_ws s) as [n rest]. cbn [fst snd].
  by destruct (matcher r p rest).
Qed.

(** The steps of the proof that follows: the white space between two words
    of the export pattern. *)
Ltac export_spaces a w :=
  match goal with
  | |- context [matcher (Plus Space :: ?r) ?p ?s] =>
      let Hp := fresh "Hp" in
      destruct (plus_space_span r p s) as [? Hp];
      [ let Hws := fresh "Hws" in
        intros ? ? ? Hws; exact (literals_reject_space w a _ _ _ _ eq_refl Hws)
      | rewrite Hp; clear Hp ]
  end.

Lemma export_match prev s : matcher export_re prev s = export_here s.
Proof.
  unfold export_here.
  change export_re
    with (map (fun c => One (Lit c)) (str "export")
          ++ Plus Space
             :: map (fun c => One (Lit c)) (str "default")
             ++ Plus Space :: map (fun c => One (Lit c)) (str "function") ++ []).
  rewrite matcher_literals.
  destruct (strip (str "export") s) as [s1|]; [|done]. cbn [mbind option_bind].
  export_spaces 100%N (tail (str "default")).
  destruct (spaces1 s1) as [[n1 s2]|]; [|done]. cbn [mbind option_bind].
  rewrite matcher_literals.
  destruct (strip (str "default") s2) as [s3|]; [|done]. cbn [mbind option_bind].
  export_spaces 102%N (tail (str "function")).
  destruct (spaces1 s3) as [[n2 s4]|]; [|done]. cbn [mbind option_bind].
  rewrite matcher_literals.
  destruct (strip (str "function") s4) as [s5|]; [|done].
  cbn. f_equal. lia.
Qed.

Lemma replace_first_rewrite_export prev s :
  replace_first_from export_re (str "function") prev s = rewrite_export s.
Proof.
  revert prev. induction s as [|c s IH]; intros prev;
    cbn [replace_first_from rewrite_export]; rewrite export_match.
  - done.
  - destruct (export_here (c :: s)); [done|]. by rewrite IH.
Qed.

Lemma rewrite_export_free s : export_free s = true -> rewrite_export s = s.
Proof.
  induction s as [|c s IH]; cbn [export_free rewrite_export].
  - by destruct (export_here []).
  - destruct (export_here (c :: s)); [done|]. intros H. by rewrite IH.
Qed.

(** The words of the import pattern, spelled out. *)
Lemma import_word_shape seg :
  matches import_re seg ->
  exists c w body semi trail,
    seg = str "import" ++ c :: w ++ body ++ semi ++ trail
    /\ Forall (fun x => is_white_space x = true) (c :: w)
    /\ Forall (fun x => is_line_terminator x = false) body
    /\ (semi = [] \/ semi = [59%N])
    /\ Forall (fun x => is_white_space x = true) trail.
Proof.
  let r := eval vm_compute in import_re in change import_re with r.
  intros H.
  repeat match goal with
         | H : matches (_ :: _) _ |- _ => inversion H; clear H; subst
         | H : matches [] _ |- _ => inversion H; clear H; subst
         | H : in_class (Lit _) _ = true |- _ =>
             apply N.eqb_eq in H; subst
         end.
  all: rewrite app_nil_r.
  all: match goal with
       | |- context [?c :: ?u ++ ?u0 ++ 59%N :: ?u1] =>
           exists c, u, u0, [59%N], u1
       | |- context [?c :: ?u ++ ?u0 ++ ?u1] =>
           exists c, u, u0, [], u1
       end.
  all: split; [reflexivity|].
  all: split; [by constructor|].
  all: split; [|split; [auto | done]].
  all: eapply Forall_impl; [eassumption|].
  all: intros x Hx; simpl in Hx; by destruct (is_line_terminator x).
Qed.

(** *** The import pattern, in words *)

Lemma strip_Some w s r : strip w s = Some r -> s = w ++ r.
Proof.
  revert s. induction w as [|a w IH]; intros s; simpl.
  - by intros [= ->].
  - destruct s as [|c s]; [done|].
    destruct (N.eqb_spec c a) as [->|]; [|done].
    intros H. by rewrite (IH _ H).
Qed.

Lemma strip_app w r : strip w (w ++ r) = Some r.
Proof. induction w as [|a w IH]; simpl; [done|]. by rewrite N.eqb_refl. Qed.

Lemma line_terminator_white_space c :
  is_line_terminator c = true -> is_white_space c = true.
Proof. unfold is_white_space. intros ->. apply orb_true_r. Qed.

(** [\s*$] takes the longest white space that ends a line. *)
Lemma line_end_space_greedy prev s :
  greedy (in_class Space) (matcher [Eol]) prev s = line_end_space s.
Proof.
  revert prev. induction s as [|c s IH]; intros prev; [done|].
  cbn [greedy line_end_space matcher at_eol].
  change (in_class Space c) with (is_white_space c).
  destruct (is_white_space c) eqn:Hws.
  - rewrite IH. by destruct (line_end_space s).
  - destruct (is_line_terminator c) eqn:Hlt; [|done].
    apply line_terminator_white_space in Hlt. congruence.
Qed.

(** [;?\s*$] *)
Lemma statement_end_matcher prev s :
  matcher [Opt (Lit 59%N); Star Space; Eol] prev s = statement_end s.
Proof.
  cbn [matcher]. unfold statement_end.
  destruct s as [|c s]; [apply line_end_space_greedy|].
  change (in_class (Lit 59%N) c) with (c =? 59)%N.
  destruct (c =? 59)%N; [|apply line_end_space_greedy].
  rewrite !line_end_space_greedy. done.
Qed.

Lemma statement_end_None c s :
  statement_end (c :: s) = None -> is_line_terminator c = false.
Proof.
  destruct (is_line_terminator c) eqn:Hlt; [|done].
  pose proof (line_terminator_white_space c Hlt) as Hws.
  assert (is_Some (line_end_space (c :: s))) as [n Hn].
  { cbn [line_end_space]. rewrite Hws, Hlt. destruct (line_end_space s); eauto. }
  unfold statement_end. destruct (c =? 59)%N; [|congruence].
  destruct (line_end_space s); [done|congruence].
Qed.

(** [.*?;?\s*$] takes the fewest characters after which the statement can
    end. *)
Lemma statement_len_lazy prev s :
  matcher [LazyStar Dot; Opt (Lit 59%N); Star Space; Eol] prev s
  = Some (statement_len s).
Proof.
  cbn [matcher]. fold (matcher [Opt (Lit 59%N); Star Space; Eol]).
  revert prev. induction s as [|c s IH]; intros prev.
  - cbn [lazy]. by rewrite statement_end_matcher.
  - cbn [lazy statement_len]. rewrite statement_end_matcher.
    destruct (statement_end (c :: s)) as [n|] eqn:Hend; [done|].
    apply statement_end_None in Hend.
    change (in_class Dot c) with (negb (is_line_terminator c)).
    rewrite Hend. cbn [negb]. by rewrite IH.
Qed.

(** [\s+] before it keeps all the white space: what follows succeeds
    wherever it is tried. *)
Lemma import_space_greedy prev s :
  greedy (in_class Space)
    (matcher [LazyStar Dot; Opt (Lit 59%N); Star Space; Eol]) prev s
  = Some (let '(w, rest) := span_ws s in w + statement_len rest).
Proof.
  revert prev. induction s as [|c s IH]; intros prev.
  - cbn [greedy span_ws]. by rewrite statement_len_lazy.
  - cbn [greedy span_ws]. change (in_class Space c) with (is_white_space c).
    destruct (is_white_space c).
    + rewrite IH. by destruct (span_ws s).
    + by rewrite statement_len_lazy.
Qed.

(** The import pattern matches where an import begins, and what it matches
    there is the import as [import_len] measures it. *)
Lemma import_match_len prev s :
  matcher import_re prev s
  = if starts_import prev s then Some (import_len s) else None.
Proof.
  unfold starts_import, import_len.
  change import_re
    with (Bol :: (map (fun c => One (Lit c)) (str "import")
                  ++ [Plus Space; LazyStar Dot; Opt (Lit 59%N); Star Space; Eol])).
  cbn [matcher]. destruct (at_bol prev); [|done]. cbn [andb].
  rewrite matcher_literals.
  destruct (strip (str "import") s) as [s'|] eqn:Hs; [|done].
  apply strip_Some in Hs. subst s.
  rewrite (drop_app_length' (str "import") s' 6) by done.
  destruct s' as [|c s']; [done|].
  cbn [matcher span_ws]. change (in_class Space c) with (is_white_space c).
  destruct (is_white_space c); [|done].
  rewrite import_space_greedy. destruct (span_ws s') as [w rest]. cbn.
  f_equal; lia.
Qed.

Lemma import_len_positive s : import_len s = S (import_len s - 1).
Proof. unfold import_len. destruct (span_ws (drop 6 s)). lia. Qed.

Lemma replace_all_without_imports s :
  forall skip prev,
    replace_all_from import_re [] skip prev s = without_imports skip prev s.
Proof.
  induction s as [|c s IH]; intros skip prev.
  - destruct skip; [|done]. cbn [replace_all_from without_imports].
    rewrite import_match_len. unfold starts_import.
    by destruct (at_bol prev).
  - destruct skip as [|skip]; cbn [replace_all_from without_imports];
      [|apply IH].
    rewrite import_match_len.
    destruct (starts_import prev (c :: s)).
    + destruct (import_len (c :: s)) as [|n] eqn:Hn;
        [by rewrite import_len_positive in Hn|].
      cbn [List.app]. replace (S n - 1) with n by lia. apply IH.
    + f_equal. apply IH.
Qed.

(** What is removed where an import begins. *)
Lemma import_segment prev s :
  starts_import prev s = true ->
  exists w body semi trail rest,
    s = str "import" ++ w ++ body ++ semi ++ trail ++ rest
    /\ import_len s = length (str "import" ++ w ++ body ++ semi ++ trail)
    /\ w <> []
    /\ Forall (fun x => is_white_space x = true) w
    /\ Forall (fun x => is_line_terminator x = false) body
    /\ (semi = [] \/ semi = [59%N])
    /\ Forall (fun x => is_white_space x = true) trail
    /\ at_eol rest = true.
Proof.
  intros Hstart. pose proof (import_match_len prev s) as Hlen.
  rewrite Hstart in Hlen.
  destruct (matcher_yields import_re prev s _ Hlen) as [Hle Hword].
  destruct (import_match_ends prev s _ Hlen) as [_ Heol].
  destruct (import_word_shape _ Hword)
    as (c & w & body & semi & trail & Hseg & Hw & Hbody & Hsemi & Htrail).
  exists (c :: w), body, semi, trail, (drop (import_len s) s).
  refine (conj _ (conj _ (conj _ (conj Hw (conj Hbody (conj Hsemi
            (conj Htrail Heol))))))).
  - rewrite <- (take_drop (import_len s) s) at 1. rewrite Hseg.
    rewrite <- (app_assoc (str "import")). f_equal.
    cbn [List.app]. f_equal. by rewrite <- !app_assoc.
  - change (str "import" ++ (c :: w) ++ body ++ semi ++ trail)
      with (str "import" ++ c :: w ++ body ++ semi ++ trail).
    rewrite <- Hseg, length_take. lia.
  - done.
Qed.

(** C10, the claim as stated fails: the import line is followed by a line
    that holds a tab and is no import statement; the character of that
    line is removed with the import, so that the result is neither the
    input without its import lines nor the input with its import lines
    emptied. *)
Lemma transformCode_removes_more_than_import_lines :
  transformCode import_then_tab_line = 10%N :: str "const x = 1;"
  /\ claimed_removing import_then_tab_line
     = [9; 10]%N ++ str "const x = 1;"
  /\ claimed_blanking import_then_tab_line
     = [10; 9; 10]%N ++ str "const x = 1;"
  /\ transformCode import_then_tab_line
     <> claimed_removing import_then_tab_line
  /\ transformCode import_then_tab_line
     <> claimed_blanking import_then_tab_line.
Proof. repeat split; vm_compute; congruence. Qed.

(** C10, amended.  [transformCode] is the input without its imports, with
    the first export-default function rewritten.  An import begins where,
    at the start of a line, [import] is followed by white space.  What is
    removed there is [import]; all the white space that follows it, line
    breaks included; the statement, which is the fewest characters, none a
    line terminator, after which the statement can end; a semicolon, when
    one follows and a line can end after it; and the longest white space
    after which the text ends or a line terminator follows.  So the removed
    text ends at the end of a line, which need not be the line it began on,
    and white space after the statement goes with it.  The search goes on
    after the removed text; every other character is kept, in order.  In
    what is left, the first occurrence of [export], white space, [default],
    white space, [function] becomes [function].  For input in which no
    import begins and no export-default function occurs, [transformCode]
    is the identity. *)
Theorem transformCode_removes_import_matches (code : list code_unit) :
  transformCode code = rewrite_export (without_imports 0 None code)
  /\ (forall prev s,
        starts_import prev s = true ->
        exists w body semi trail rest,
          s = str "import" ++ w ++ body ++ semi ++ trail ++ rest
          /\ import_len s = length (str "import" ++ w ++ body ++ semi ++ trail)
          /\ w <> []
          /\ Forall (fun x => is_white_space x = true) w
          /\ Forall (fun x => is_line_terminator x = false) body
          /\ (semi = [] \/ semi = [59%N])
          /\ Forall (fun x => is_white_space x = true) trail
          /\ at_eol rest = true)
  /\ (import_free None code = true -> export_free code = true ->
      transformCode code = code).
Proof.
  unfold transformCode, replace_all, replace_first.
  split; [|split; [apply import_segment|]].
  - by rewrite replace_first_rewrite_export, replace_all_without_imports.
  - intros Hi He. rewrite replace_all_import_free by done.
    rewrite replace_first_rewrite_export. by apply rewrite_export_free.
Qed.

Lemma transformCode_identity_witness :
  transformCode plain_component = plain_component.
Proof.
  apply (proj2 (proj2 (transformCode_removes_import_matches plain_component)));
    vm_compute; reflexivity.
Defined.

(** The usual answer of the model: the import line goes, with its line
    feed, and the component loses [export default]. *)
Example transformCode_generated_page :
  transformCode generated_page
  = 10%N :: str "function Landing() { return null; }".
Proof. vm_compute. reflexivity. Qed.

(** The white space after [import] takes the line breaks with it: the
    statement of a later line is removed as well. *)
Example transformCode_import_alone :
  transformCode import_alone_on_its_line = 10%N :: str "bar"
  /\ without_imports 0 None import_alone_on_its_line = 10%N :: str "bar".
Proof. split; vm_compute; reflexivity. Qed.

End RegexFacts.

(** ** The list of Dropbox files *)

Section FilesFacts.
Import Js App Files Props.
#[local] Open Scope list_scope.

(** The loop over pages that all announce more. *)
Lemma listFolderRecursive_pages toLowerCase pages answers cur all requests :
  Forall (fun p => has_more p = true) pages ->
  listFolderRecursive toLowerCase (map Page pages ++ answers) cur all requests
  = listFolderRecursive toLowerCase answers
      (List.last (map cursor pages) cur)
      (all ++ flat_map (videos_of toLowerCase) pages)
      (requests
       ++ map request_for (take (length pages) (cur :: map cursor pages))).
Proof.
  revert cur all requests.
  induction pages as [|p pages IH]; intros cur all requests Hmore.
  - cbn. by rewrite !app_nil_r.
  - inversion Hmore as [|? ? Hp Hps]; subst.
    cbn [map List.app listFolderRecursive]. rewrite Hp, IH by done.
    rewrite last_cons_default. cbn [flat_map length take map].
    unfold videos_of at 2. by rewrite <- !app_assoc.
Qed.

Lemma take_snoc_last {A} (l : list A) (c : A) :
  take (length l) (c :: l) ++ [List.last l c] = c :: l.
Proof.
  revert c. induction l as [|x l IH]; intros c; [done|].
  cbn [length take]. rewrite last_cons_default. cbn [List.app].
  by rewrite IH.
Qed.

Lemma videos_of_from_entry toLowerCase seen p :
  (forall en, en ∈ entries p -> en ∈ seen) ->
  Forall (from_video_entry toLowerCase seen) (videos_of toLowerCase p).
Proof.
  intros Hseen. unfold videos_of. apply Forall_map, Forall_forall.
  intros en Hen.
  apply list_elem_of_In, filter_In in Hen as [Hin Hv].
  unfold is_video in Hv. apply andb_true_iff in Hv as [Htag Hext].
  apply str_eq_true in Htag. apply existsb_exists in Hext as (ext & Hin' & He).
  exists en, ext. split; [by apply Hseen, list_elem_of_In|].
  repeat split; try done. by apply list_elem_of_In.
Qed.

Lemma listFolderRecursive_videos toLowerCase seen answers cur all requests
    files sent' :
  Forall (from_video_entry toLowerCase seen) all ->
  (forall en, en ∈ answered answers -> en ∈ seen) ->
  listFolderRecursive toLowerCase answers cur all requests = Listed files sent' ->
  Forall (from_video_entry toLowerCase seen) files.
Proof.
  revert cur all requests.
  induction answers as [|[s m|p] answers IH]; intros cur all requests Hall Hseen;
    cbn [listFolderRecursive]; try done.
  assert (Hall' : Forall (from_video_entry toLowerCase seen)
                    (all ++ map to_video_file
                              (List.filter (is_video toLowerCase) (entries p)))).
  { apply Forall_app. split; [done|]. apply videos_of_from_entry.
    intros en Hen. apply Hseen. unfold answered. cbn [flat_map].
    apply elem_of_app. by left. }
  destruct (has_more p); [|by intros [= <- _]].
  apply IH; [done|]. intros en Hen. apply Hseen. unfold answered.
  cbn [flat_map]. apply elem_of_app. by right.
Qed.


(** X1. When Dropbox answers with pages of which all but the last announce
    more, [loadDropboxFiles] replaces the list by the video files of all the
    pages, in the order of the pages and of their entries; the first request
    is list_folder, each further one continues from the cursor of the page
    before (or starts over with list_folder when that cursor is absent or
    empty); the cursor of the last page is not used; the loading flag is
    off afterwards and one toast reports the number found. *)
Theorem load_lists_every_page
    (toLowerCase : string -> string)
    (e : environment) (pages : list page) (final : page)
    (extra : list answer) (pk : picker)
    (Htoken : truthy_str (VITE_DROPBOX_ACCESS_TOKEN e) = true)
    (Hmore : Forall (fun p => has_more p = true) pages)
    (Hfinal : has_more final = false) :
  let pk' := loadDropboxFiles toLowerCase e
               (map Page (pages ++ [final]) ++ extra) pk in
  dropboxFiles pk' = flat_map (videos_of toLowerCase) (pages ++ [final])
  /\ sent pk' = sent pk ++ map request_for (None :: map cursor pages)
  /\ isLoadingDropboxFiles pk' = false
  /\ showDropboxFiles pk' = true
  /\ toasts pk' = toasts pk ++ [found_toast (length (dropboxFiles pk'))].
Proof.
  unfold loadDropboxFiles. rewrite Htoken. cbn [negb].
  rewrite map_app, <- app_assoc, listFolderRecursive_pages by done.
  cbn [map List.app listFolderRecursive]. rewrite Hfinal. cbn.
  rewrite flat_map_app. cbn [flat_map]. rewrite app_nil_r.
  repeat split. f_equal.
  change (ListFolder "" :: map request_for (map cursor pages))
    with (map request_for (None :: map cursor pages)).
  rewrite <- (take_snoc_last (map cursor pages) None) at 2.
  by rewrite map_app, length_map.
Qed.

Lemma load_lists_every_page_witness :
  let pk' := loadDropboxFiles lower Samples.env
               (map Page ([Inputs.first_page] ++ [Inputs.last_page]) ++ [])
               Inputs.empty_picker in
  dropboxFiles pk'
  = flat_map (videos_of lower) ([Inputs.first_page] ++ [Inputs.last_page])
  /\ sent pk'
     = sent Inputs.empty_picker
       ++ map request_for (None :: map cursor [Inputs.first_page])
  /\ isLoadingDropboxFiles pk' = false
  /\ showDropboxFiles pk' = true
  /\ toasts pk'
     = toasts Inputs.empty_picker ++ [found_toast (length (dropboxFiles pk'))].
Proof.
  apply (load_lists_every_page lower Samples.env [Inputs.first_page] Inputs.last_page
           [] Inputs.empty_picker).
  - reflexivity.
  - by repeat constructor.
  - reflexivity.
Defined.

(** The sample listing: the upper-case extension is recognised, the text
    file and the folder with a video name are left out, and an entry
    without display path is listed under its name. *)
Example load_sample_listing :
  map vf_name
    (dropboxFiles
       (loadDropboxFiles lower Samples.env
          [Page Inputs.first_page; Page Inputs.last_page] Inputs.empty_picker))
  = ["/Talks/Talk.MP4"; "demo.webm"].
Proof. vm_compute. reflexivity. Qed.


(** X2. A failed load changes nothing in the list.  Without an access
    token no request is made.  With one, when a request fails after any
    number of pages, the files of the pages already read are dropped and
    the list stays as it was before the load; a destructive toast shows the
    error summary of Dropbox, or the fixed text when there is none, the
    error is logged and the loading flag is off. *)
Theorem load_failure_keeps_list
    (toLowerCase : string -> string)
    (e : environment) (pages : list page)
    (summary : option string) (message : string)
    (extra : list answer) (pk : picker)
    (Hmore : Forall (fun p => has_more p = true) pages) :
  let pk' := loadDropboxFiles toLowerCase e
               (map Page pages ++ Failed summary message :: extra) pk in
  dropboxFiles pk' = dropboxFiles pk
  /\ isLoadingDropboxFiles pk' = false
  /\ (truthy_str (VITE_DROPBOX_ACCESS_TOKEN e) = false ->
      sent pk' = sent pk
      /\ toasts pk'
         = toasts pk
           ++ [{| title := "Configuration Error";
                  description := "Add VITE_DROPBOX_ACCESS_TOKEN to .env.local";
                  variant := Some "destructive" |}])
  /\ (truthy_str (VITE_DROPBOX_ACCESS_TOKEN e) = true ->
      sent pk' = sent pk ++ map request_for (None :: map cursor pages)
      /\ toasts pk'
         = toasts pk
           ++ [{| title := "Error";
                  description := or_opt summary "Failed to load Dropbox files";
                  variant := Some "destructive" |}]
      /\ console pk'
         = console pk ++ ["Error loading Dropbox files: " +:+ message]).
Proof.
  unfold loadDropboxFiles.
  destruct (truthy_str (VITE_DROPBOX_ACCESS_TOKEN e)); cbn [negb].
  - rewrite listFolderRecursive_pages by done.
    cbn [listFolderRecursive]. cbn beta iota zeta.
    split; [done|]. split; [done|]. split; [done|]. intros _.
    split; [|done]. cbn. f_equal.
    change (ListFolder "" :: map request_for (map cursor pages))
      with (map request_for (None :: map cursor pages)).
    rewrite <- (take_snoc_last (map cursor pages) None) at 2.
    by rewrite map_app, length_map.
  - cbn beta iota zeta. split; [done|]. split; [done|]. split; done.
Qed.

Lemma load_failure_witness :
  let pk' := loadDropboxFiles lower Samples.env
               (map Page [Inputs.first_page]
                ++ Failed (Some "path/not_found/..") "Request failed" :: [])
               Inputs.empty_picker in
  dropboxFiles pk' = dropboxFiles Inputs.empty_picker
  /\ isLoadingDropboxFiles pk' = false
  /\ (truthy_str (VITE_DROPBOX_ACCESS_TOKEN Samples.env) = false ->
      sent pk' = sent Inputs.empty_picker
      /\ toasts pk'
         = toasts Inputs.empty_picker
           ++ [{| title := "Configuration Error";
                  description := "Add VITE_DROPBOX_ACCESS_TOKEN to .env.local";
                  variant := Some "destructive" |}])
  /\ (truthy_str (VITE_DROPBOX_ACCESS_TOKEN Samples.env) = true ->
      sent pk'
      = sent Inputs.empty_picker
        ++ map request_for (None :: map cursor [Inputs.first_page])
      /\ toasts pk'
         = toasts Inputs.empty_picker
           ++ [{| title := "Error";
                  description :=
                    or_opt (Some "path/not_found/..") "Failed to load Dropbox files";
                  variant := Some "destructive" |}]
      /\ console pk'
         = console Inputs.empty_picker
           ++ ["Error loading Dropbox files: " +:+ "Request failed"]).
Proof.
  apply (load_failure_keeps_list lower Samples.env [Inputs.first_page]
           (Some "path/not_found/..") "Request failed" [] Inputs.empty_picker).
  by repeat constructor.
Defined.

(** X3. The load has no page limit: as long as every page that has come
    announces more, it goes on asking, one request per page and one more;
    the loading flag stays on and neither the list nor the toasts change. *)
Theorem load_waits_for_the_last_page
    (toLowerCase : string -> string)
    (e : environment) (pages : list page) (pk : picker)
    (Htoken : truthy_str (VITE_DROPBOX_ACCESS_TOKEN e) = true)
    (Hmore : Forall (fun p => has_more p = true) pages) :
  let pk' := loadDropboxFiles toLowerCase e (map Page pages) pk in
  isLoadingDropboxFiles pk' = true
  /\ dropboxFiles pk' = dropboxFiles pk
  /\ toasts pk' = toasts pk
  /\ sent pk' = sent pk ++ map request_for (None :: map cursor pages).
Proof.
  unfold loadDropboxFiles. rewrite Htoken. cbn [negb].
  rewrite <- (app_nil_r (map Page pages)).
  rewrite listFolderRecursive_pages by done.
  cbn [listFolderRecursive]. repeat split. cbn. f_equal.
  change (ListFolder "" :: map request_for (map cursor pages))
    with (map request_for (None :: map cursor pages)).
  rewrite <- (take_snoc_last (map cursor pages) None) at 2.
  by rewrite map_app, length_map.
Qed.

Lemma load_waits_witness :
  let pk' := loadDropboxFiles lower Samples.env
               (map Page [Inputs.first_page; Inputs.first_page])
               Inputs.empty_picker in
  isLoadingDropboxFiles pk' = true
  /\ dropboxFiles pk' = dropboxFiles Inputs.empty_picker
  /\ toasts pk' = toasts Inputs.empty_picker
  /\ sent pk'
     = sent Inputs.empty_picker
       ++ map request_for
            (None :: map cursor [Inputs.first_page; Inputs.first_page]).
Proof.
  apply (load_waits_for_the_last_page lower Samples.env
           [Inputs.first_page; Inputs.first_page] Inputs.empty_picker).
  - reflexivity.
  - by repeat constructor.
Defined.

(** X4. Whatever Dropbox answers, every file in the list after a load was
    in the list before or is made from an entry of one of the pages
    answered, an entry that is a file and whose name, in lower case, ends
    with one of the eight video extensions: an answered folder, or a file
    of another kind, is not what a listed file is made from.  The
    identifier of such an entry is also the [downloadUrl] of the listed
    file. *)
Theorem load_lists_only_videos
    (toLowerCase : string -> string)
    (e : environment) (answers : list answer) (pk : picker) (f : VideoFile)
    (Hlisted : f ∈ dropboxFiles (loadDropboxFiles toLowerCase e answers pk)) :
  f ∈ dropboxFiles pk
  \/ (from_video_entry toLowerCase (answered answers) f
      /\ vf_downloadUrl f = Some (vf_id f)).
Proof.
  revert Hlisted. unfold loadDropboxFiles.
  destruct (negb _); [by left|].
  destruct (listFolderRecursive toLowerCase answers None [] [])
    as [all reqs|s m reqs|reqs] eqn:Hlist; cbn; [|by left..].
  intros Hf. right.
  pose proof (listFolderRecursive_videos toLowerCase (answered answers)
                _ _ _ _ _ _ (Forall_nil_2 _) (fun _ H => H) Hlist) as Hall.
  rewrite Forall_forall in Hall. specialize (Hall f Hf).
  split; [done|]. by destruct Hall as (en & ext & _ & _ & _ & _ & ->).
Qed.

Lemma load_lists_only_videos_witness :
  Files.to_video_file Inputs.talk ∈ dropboxFiles Inputs.empty_picker
  \/ (from_video_entry lower
        (answered [Page Inputs.first_page; Page Inputs.last_page])
        (Files.to_video_file Inputs.talk)
      /\ vf_downloadUrl (Files.to_video_file Inputs.talk)
         = Some (vf_id (Files.to_video_file Inputs.talk))).
Proof.
  apply (load_lists_only_videos lower Samples.env
           [Page Inputs.first_page; Page Inputs.last_page] Inputs.empty_picker).
  vm_compute. repeat constructor.
Defined.

End FilesFacts.

(** ** The shorts UI: further properties *)

Section AppMore.
Import Js App Spec Samples Props.
#[local] Open Scope list_scope.

Lemma find_by_id (sel : VideoFile) (files : list VideoFile) :
  match List.find (fun f => vf_id f === vf_id sel) files with
  | Some f => f ∈ files /\ vf_id f = vf_id sel
  | None => forall f, f ∈ files -> vf_id f <> vf_id sel
  end.
Proof.
  destruct (List.find _ files) as [f|] eqn:Hfind.
  - apply find_some in Hfind as [Hin Hid]. split; [by apply list_elem_of_In|].
    by apply str_eq_true.
  - intros f Hf. apply list_elem_of_In in Hf.
    apply (find_none _ _ Hfind) in Hf. by apply str_eq_false.
Qed.

Lemma processVideo_lookup e srv st :
  match selectedVideo st with
  | None => True
  | Some chosen =>
      match List.find (fun f => vf_id f === vf_id chosen) (dropboxFiles st) with
      | Some f =>
          head (sent_since st (processVideo e srv st))
          = Some (DropboxDownload (VITE_DROPBOX_ACCESS_TOKEN e)
                    (or_opt (vf_path f) (vf_name f)))
      | None =>
          sent_since st (processVideo e srv st) = []
          /\ processingStatus (processVideo e srv st) = status_only idle
          /\ toasts (processVideo e srv st)
             = toasts st ++ [{| title := "Error";
                                description := "File information not found";
                                variant := Some "destructive" |}]
          /\ intervals (processVideo e srv st) = intervals st
      end
  end.
Proof. process_cases e srv st; done. Qed.

(** X5. [processVideo] looks the selected video up in the list by its
    identifier.  When the list has an entry with that identifier, which is
    so for a video picked from the list, the first call is the download of
    the first such entry, by its lower-case path or else its name; the
    fields of the selected video other than [id] and [name] are not read.
    When the list has none (it was reloaded in between, say), nothing is
    sent: an error toast is shown and the status is idle again. *)
Theorem processVideo_downloads_listed_entry
    (e : environment) (srv : server) (st : app) (chosen : VideoFile)
    (Hpicked : selectedVideo st = Some chosen) :
  ((exists f, f ∈ dropboxFiles st /\ vf_id f = vf_id chosen) ->
   exists f, List.find (fun f => vf_id f === vf_id chosen) (dropboxFiles st) = Some f
             /\ f ∈ dropboxFiles st /\ vf_id f = vf_id chosen
             /\ head (sent_since st (processVideo e srv st))
                = Some (DropboxDownload (VITE_DROPBOX_ACCESS_TOKEN e)
                          (or_opt (vf_path f) (vf_name f))))
  /\ ((forall f, f ∈ dropboxFiles st -> vf_id f <> vf_id chosen) ->
      sent_since st (processVideo e srv st) = []
      /\ processingStatus (processVideo e srv st) = status_only idle
      /\ toasts (processVideo e srv st)
         = toasts st ++ [{| title := "Error";
                            description := "File information not found";
                            variant := Some "destructive" |}]
      /\ intervals (processVideo e srv st) = intervals st).
Proof.
  pose proof (find_by_id chosen (dropboxFiles st)) as Hfind.
  pose proof (processVideo_lookup e srv st) as Hlook. rewrite Hpicked in Hlook.
  destruct (List.find _ (dropboxFiles st)) as [f|]; split.
  - intros _. exists f. by destruct Hfind.
  - intros Hnone. destruct Hfind as [Hin Hid]. by destruct (Hnone f Hin).
  - intros (f0 & Hf0 & Hid0). by destruct (Hfind f0 Hf0).
  - done.
Qed.

Lemma processVideo_listed_witness :
  exists f,
    List.find (fun f => vf_id f === vf_id clip) (dropboxFiles picked) = Some f
    /\ f ∈ dropboxFiles picked /\ vf_id f = vf_id clip
    /\ head (sent_since picked (processVideo env good_server picked))
       = Some (DropboxDownload (VITE_DROPBOX_ACCESS_TOKEN env)
                 (or_opt (vf_path f) (vf_name f))).
Proof.
  apply (proj1 (processVideo_downloads_listed_entry env good_server picked clip
                  eq_refl)).
  exists clip. split; [|reflexivity]. vm_compute. constructor.
Defined.

End AppMore.

(** ** The chat panel: the scroll timeout *)

Section ChatFacts.
Import Chat ChatEvents Props.
#[local] Open Scope list_scope.

Lemma run_keeps (Q : event -> Prop) (P : chat -> Prop) :
  (forall c ev c', Q ev -> P c -> step c ev = Some c' -> P c') ->
  forall evs c c', Forall Q evs -> P c -> run c evs = Some c' -> P c'.
Proof.
  intros Hstep evs. induction evs as [|ev evs IH]; intros c c' Hq Hp Hrun.
  - cbn in Hrun. by simplify_eq.
  - cbn in Hrun. destruct (step c ev) as [c1|] eqn:Hc1; [|done].
    cbn in Hrun. inversion Hq; subst. eauto.
Qed.

Lemma clear_scroll_timeout_none c :
  one_pending c -> timeouts (clear_scroll_timeout c) = ∅.
Proof.
  intros Hone. unfold clear_scroll_timeout.
  destruct (scrollTimeoutRef c) as [t|] eqn:Href;
    apply leibniz_equiv, elem_of_equiv_empty; intros u Hu.
  - cbn in Hu. apply elem_of_difference in Hu as [Hu Hne]. apply Hone in Hu.
    rewrite Href in Hu. set_solver.
  - apply Hone in Hu. by rewrite Href in Hu.
Qed.

Lemma clear_scroll_timeout_fields c :
  isUserScrolling (clear_scroll_timeout c) = isUserScrolling c
  /\ scrollTimeoutRef (clear_scroll_timeout c) = scrollTimeoutRef c
  /\ next_timeout (clear_scroll_timeout c) = next_timeout c
  /\ lastScrollPositionRef (clear_scroll_timeout c) = lastScrollPositionRef c.
Proof.
  unfold clear_scroll_timeout.
  destruct (scrollTimeoutRef c) eqn:Href; cbn; by rewrite ?Href.
Qed.

Lemma setIsUserScrolling_one_pending b c :
  one_pending c -> one_pending (setIsUserScrolling b c).
Proof. done. Qed.

(** What one scroll event does, on a state where at most the timeout of the
    ref is pending. *)
Lemma handleScroll_cases scrollTop scrollHeight clientHeight c :
  one_pending c ->
  let c' := handleScroll scrollTop scrollHeight clientHeight c in
  lastScrollPositionRef c' = scrollTop
  /\ if (Z.abs (scrollHeight - clientHeight - scrollTop) <? 10)%Z
     then isUserScrolling c' = false /\ timeouts c' = ∅
          /\ scrollTimeoutRef c' = scrollTimeoutRef c
          /\ next_timeout c' = next_timeout c
     else if (scrollTop <? lastScrollPositionRef c)%Z
     then isUserScrolling c' = true /\ timeouts c' = {[next_timeout c]}
          /\ scrollTimeoutRef c' = Some (next_timeout c)
          /\ next_timeout c' = S (next_timeout c)
     else isUserScrolling c' = isUserScrolling c /\ timeouts c' = timeouts c
          /\ scrollTimeoutRef c' = scrollTimeoutRef c
          /\ next_timeout c' = next_timeout c.
Proof.
  intros Hone. unfold handleScroll.
  destruct (Z.abs _ <? 10)%Z; cbn [negb andb].
  - split; [done|]. cbn.
    pose proof (clear_scroll_timeout_none (setIsUserScrolling false c)
                  (setIsUserScrolling_one_pending _ _ Hone)) as Hnone.
    pose proof (clear_scroll_timeout_fields (setIsUserScrolling false c))
      as (Hu & Hr & Hn & _).
    by rewrite Hnone, Hu, Hr, Hn.
  - destruct (scrollTop <? lastScrollPositionRef c)%Z; [|done].
    split; [done|]. cbn.
    pose proof (clear_scroll_timeout_none (setIsUserScrolling true c)
                  (setIsUserScrolling_one_pending _ _ Hone)) as Hnone.
    pose proof (clear_scroll_timeout_fields (setIsUserScrolling true c))
      as (Hu & Hr & Hn & _).
    rewrite Hnone, Hu, Hn. cbn. by rewrite (right_id_L ∅ (∪)).
Qed.

Lemma step_one_pending c ev c' :
  one_pending c -> step c ev = Some c' -> one_pending c'.
Proof.
  intros Hone Hstep. destruct ev as [top sh ch|t|]; cbn in Hstep.
  - simplify_eq.
    pose proof (handleScroll_cases top sh ch c Hone) as [_ Hc]. cbn zeta in Hc.
    intros u Hu.
    destruct (Z.abs _ <? 10)%Z; [|destruct (top <? _)%Z].
    + destruct Hc as (_ & Ht & _). rewrite Ht in Hu.
      by apply not_elem_of_empty in Hu.
    + destruct Hc as (_ & Ht & Hr & _). rewrite Ht in Hu. rewrite Hr.
      apply elem_of_singleton in Hu. by subst.
    + destruct Hc as (_ & Ht & Hr & _). rewrite Ht in Hu. rewrite Hr. auto.
  - destruct (decide (t ∈ timeouts c)); [|done]. simplify_eq.
    intros u Hu. cbn in Hu. apply elem_of_difference in Hu as [Hu _].
    by apply Hone.
  - simplify_eq. intros u Hu. unfold Chat.unmount in Hu.
    rewrite (clear_scroll_timeout_none c Hone) in Hu. set_solver.
Qed.

Lemma start_one_pending : one_pending start.
Proof. intros t Ht. cbn in Ht. set_solver. Qed.

Lemma run_one_pending evs c :
  run start evs = Some c -> one_pending c.
Proof.
  intros Hrun.
  apply (run_keeps (fun _ => True) one_pending) with (evs := evs) (c := start);
    [| by apply Forall_true | apply start_one_pending | done].
  intros ? ? ? _. apply step_one_pending.
Qed.

Lemma step_resumable c ev c' :
  ev <> Unmount -> one_pending c /\ resumable c -> step c ev = Some c' ->
  one_pending c' /\ resumable c'.
Proof.
  intros Hev [Hone Hres] Hstep. split; [by eapply step_one_pending|].
  destruct ev as [top sh ch|t|]; cbn in Hstep; [| |done].
  - simplify_eq.
    pose proof (handleScroll_cases top sh ch c Hone) as [_ Hc]. cbn zeta in Hc.
    intros Hu.
    destruct (Z.abs _ <? 10)%Z; [|destruct (top <? _)%Z].
    + destruct Hc as (Hf & _). congruence.
    + destruct Hc as (_ & Ht & Hr & _). exists (next_timeout c).
      rewrite Ht, Hr. split; [done|]. by apply elem_of_singleton.
    + destruct Hc as (Hi & Ht & Hr & _). rewrite Ht, Hr. apply Hres. congruence.
  - destruct (decide (t ∈ timeouts c)); [|done]. simplify_eq.
    intros Hu. done.
Qed.

(** X6. In the chat panel at most one scroll timeout is ever pending, the
    one whose identifier the ref holds: a timeout that a later scroll has
    replaced was cancelled, and never fires. *)
Theorem chat_one_timeout_pending (evs : list event) (c : chat)
    (Hrun : run start evs = Some c) :
  one_pending c
  /\ forall t, step c (Fire t) <> None -> scrollTimeoutRef c = Some t.
Proof.
  pose proof (run_one_pending evs c Hrun) as Hone. split; [done|].
  intros t Hfire. cbn in Hfire. destruct (decide (t ∈ timeouts c)); [|done].
  by apply Hone.
Qed.

Lemma chat_one_timeout_witness :
  one_pending
    (handleScroll 50 1000 400 (handleScroll 100 1000 400
       (handleScroll 300 1000 400 start)))
  /\ forall t,
       step (handleScroll 50 1000 400 (handleScroll 100 1000 400
               (handleScroll 300 1000 400 start))) (Fire t) <> None ->
       scrollTimeoutRef
         (handleScroll 50 1000 400 (handleScroll 100 1000 400
            (handleScroll 300 1000 400 start))) = Some t.
Proof.
  apply (chat_one_timeout_pending
           [Scroll 300 1000 400; Scroll 100 1000 400; Scroll 50 1000 400]).
  reflexivity.
Defined.

(** X7. When the chat panel is unmounted, no timeout of it stays pending,
    whatever was scrolled before: nothing of the panel runs after the
    unmount. *)
Theorem chat_unmount_leaves_nothing_pending (evs : list event) (c : chat)
    (Hrun : run start evs = Some c) :
  timeouts (Chat.unmount c) = ∅
  /\ forall t, step (Chat.unmount c) (Fire t) = None.
Proof.
  pose proof (clear_scroll_timeout_none c (run_one_pending evs c Hrun)) as Hnone.
  split; [done|]. intros t. cbn. unfold Chat.unmount. rewrite Hnone.
  destruct (decide (t ∈ (∅ : gset nat))) as [Hin|]; [set_solver|done].
Qed.

Lemma chat_unmount_witness :
  timeouts (Chat.unmount (handleScroll 100 1000 400
                            (handleScroll 300 1000 400 start))) = ∅
  /\ forall t,
       step (Chat.unmount (handleScroll 100 1000 400
                             (handleScroll 300 1000 400 start))) (Fire t)
       = None.
Proof.
  apply (chat_unmount_leaves_nothing_pending
           [Scroll 300 1000 400; Scroll 100 1000 400]).
  reflexivity.
Defined.

(** X8. One scroll event of the chat panel.  At the bottom (less than ten
    pixels off) auto-scroll is on again and no timeout is pending.  Scrolled
    up, away from the bottom, auto-scroll is off and exactly one timeout is
    pending, the one just set: each such scroll restarts the two seconds.  Any
    other scroll (down, or not moved, away from the bottom) changes neither.
    The last position is the new one in all three. *)
Theorem handleScroll_debounces (evs : list event) (c : chat)
    (scrollTop scrollHeight clientHeight : Z)
    (Hrun : run start evs = Some c) :
  let c' := handleScroll scrollTop scrollHeight clientHeight c in
  lastScrollPositionRef c' = scrollTop
  /\ ((Z.abs (scrollHeight - clientHeight - scrollTop) < 10)%Z ->
      autoScrolls c' = true /\ timeouts c' = ∅)
  /\ ((10 <= Z.abs (scrollHeight - clientHeight - scrollTop))%Z ->
      (scrollTop < lastScrollPositionRef c)%Z ->
      autoScrolls c' = false /\ timeouts c' = {[next_timeout c]}
      /\ scrollTimeoutRef c' = Some (next_timeout c))
  /\ ((10 <= Z.abs (scrollHeight - clientHeight - scrollTop))%Z ->
      (lastScrollPositionRef c <= scrollTop)%Z ->
      autoScrolls c' = autoScrolls c /\ timeouts c' = timeouts c).
Proof.
  pose proof (handleScroll_cases scrollTop scrollHeight clientHeight c
                (run_one_pending evs c Hrun)) as [Hlast Hc].
  cbn zeta in *. unfold autoScrolls. split; [done|].
  destruct (Z.ltb_spec (Z.abs (scrollHeight - clientHeight - scrollTop)) 10);
    [|destruct (Z.ltb_spec scrollTop (lastScrollPositionRef c))].
  - destruct Hc as (Hu & Ht & _). rewrite Hu, Ht.
    split; [done|]. split; intros; lia.
  - destruct Hc as (Hu & Ht & Hr & _). rewrite Hu, Ht, Hr.
    split; [intros; lia|]. split; [done|]. intros; lia.
  - destruct Hc as (Hu & Ht & _). rewrite Hu, Ht.
    split; [intros; lia|]. split; [intros; lia|]. done.
Qed.

Lemma handleScroll_debounces_witness :
  lastScrollPositionRef
    (handleScroll 100 1000 400 (handleScroll 300 1000 400 start)) = 100%Z
  /\ ((Z.abs (1000 - 400 - 100) < 10)%Z ->
      autoScrolls (handleScroll 100 1000 400 (handleScroll 300 1000 400 start))
      = true
      /\ timeouts (handleScroll 100 1000 400 (handleScroll 300 1000 400 start))
         = ∅)
  /\ ((10 <= Z.abs (1000 - 400 - 100))%Z ->
      (100 < lastScrollPositionRef (handleScroll 300 1000 400 start))%Z ->
      autoScrolls (handleScroll 100 1000 400 (handleScroll 300 1000 400 start))
      = false
      /\ timeouts (handleScroll 100 1000 400 (handleScroll 300 1000 400 start))
         = {[next_timeout (handleScroll 300 1000 400 start)]}
      /\ scrollTimeoutRef
           (handleScroll 100 1000 400 (handleScroll 300 1000 400 start))
         = Some (next_timeout (handleScroll 300 1000 400 start)))
  /\ ((10 <= Z.abs (1000 - 400 - 100))%Z ->
      (lastScrollPositionRef (handleScroll 300 1000 400 start) <= 100)%Z ->
      autoScrolls (handleScroll 100 1000 400 (handleScroll 300 1000 400 start))
      = autoScrolls (handleScroll 300 1000 400 start)
      /\ timeouts (handleScroll 100 1000 400 (handleScroll 300 1000 400 start))
         = timeouts (handleScroll 300 1000 400 start)).
Proof.
  apply (handleScroll_debounces [Scroll 300 1000 400]). reflexivity.
Defined.

(** X9. As long as the chat panel is mounted, auto-scroll is never off for
    good: whenever the user is taken to be scrolling, the timeout that turns
    auto-scroll on again is pending, and its firing does so. *)
Theorem chat_auto_scroll_resumes (evs : list event) (c : chat)
    (Hmounted : Forall (fun ev => ev <> Unmount) evs)
    (Hrun : run start evs = Some c)
    (Hoff : autoScrolls c = false) :
  exists t c', timeouts c = {[t]} /\ step c (Fire t) = Some c'
               /\ autoScrolls c' = true /\ timeouts c' = ∅.
Proof.
  assert (one_pending c /\ resumable c) as [Hone Hres].
  { apply (run_keeps (fun ev => ev <> Unmount)
             (fun c => one_pending c /\ resumable c))
      with (evs := evs) (c := start); [|done| |done].
    - intros ? ? ?. apply step_resumable.
    - split; [apply start_one_pending|]. intros Hu. done. }
  destruct Hres as (t & Href & Hin).
  { unfold autoScrolls in Hoff. by destruct (isUserScrolling c). }
  assert (timeouts c = {[t]}) as Hts.
  { apply leibniz_equiv. intros u. rewrite elem_of_singleton. split.
    - intros Hu. apply Hone in Hu. congruence.
    - by intros ->. }
  exists t, (fire t c). cbn. rewrite decide_True by done.
  split; [done|]. split; [done|]. split; [done|].
  rewrite Hts. apply leibniz_equiv, elem_of_equiv_empty. intros u Hu.
  apply elem_of_difference in Hu as [Hu Hne]. done.
Qed.

Lemma chat_auto_scroll_resumes_witness :
  exists t c',
    timeouts (handleScroll 100 1000 400 (handleScroll 300 1000 400 start))
    = {[t]}
    /\ step (handleScroll 100 1000 400 (handleScroll 300 1000 400 start))
         (Fire t) = Some c'
    /\ autoScrolls c' = true /\ timeouts c' = ∅.
Proof.
  apply (chat_auto_scroll_resumes [Scroll 300 1000 400; Scroll 100 1000 400]).
  - repeat constructor; discriminate.
  - reflexivity.
  - reflexivity.
Defined.


End ChatFacts.

(** ** The shorts UI: the life of a job *)

Section AppLife.
Import Js App Spec Samples Props Render.
#[local] Open Scope list_scope.

Lemma sent_since_same st st' : sent st' = sent st -> sent_since st st' = [].
Proof. intros H. unfold sent_since. rewrite H. apply drop_all. Qed.

Lemma poll_status_settled t runId r st :
  settled_status st -> settled_status (poll_status t runId r st).
Proof.
  intros [Hi Hu]. unfold poll_status, settled_status.
  destruct r as [err|d]; [done|].
  destruct (sd_status d === "success"); [done|].
  by destruct (sd_status d === "failed").
Qed.

Lemma poll_outputs_settled t r st :
  settled_status st -> settled_status (poll_outputs t r st).
Proof. intros [Hi Hu]. unfold poll_outputs. by destruct r. Qed.

Lemma step_busy e st ev st' :
  settled_status st -> step e st ev = Some st' ->
  settled_status st'
  /\ Forall (fun r => 5 <= phase r) (sent_since st st').
Proof.
  intros Hbusy H. destruct ev as [sel' files ty text|srv|t|t r|t r|].
  - apply step_edit_inv in H as ->. split; [done|].
    by rewrite sent_since_same.
  - apply step_click_inv in H as [Hi _]. by destruct Hbusy.
  - apply step_tick_inv in H as (_ & runId & _ & ->). split; [done|].
    rewrite (sent_since_app _ _ [GetAgentRunSimple runId]) by done.
    repeat constructor.
  - apply step_status_inv in H as (_ & runId & _ & ->).
    split; [by apply poll_status_settled|]. destruct r as [err|d].
    + by rewrite sent_since_same.
    + destruct (terminal_dec (sd_status d)) as [[Hs|Hf]|Hn].
      * destruct (poll_status_success t runId d st Hs) as (Hsent & _).
        rewrite (sent_since_app _ _ _ Hsent). repeat constructor.
      * destruct (poll_status_failed t runId d st Hf) as (Hsent & _).
        by rewrite sent_since_same.
      * destruct (poll_status_other t runId d st Hn) as (Hsent & _).
        by rewrite sent_since_same.
  - apply step_outputs_inv in H as (_ & ->).
    destruct (poll_outputs_fields t r st) as (_ & Hsent & _).
    split; [by apply poll_outputs_settled|]. by rewrite sent_since_same.
  - injection H as <-. split; [done|]. by rewrite sent_since_same.
Qed.

Lemma not_idle_disabled st :
  status (processingStatus st) <> idle -> button_enabled st = false.
Proof.
  unfold button_enabled.
  by destruct (selectedVideo st), (status (processingStatus st)).
Qed.

(** The two Dropbox handlers leave the job alone. *)
Lemma page_step_picker toLowerCase e pg ev pg' :
  (forall jev, ev <> Page.Job jev) ->
  Page.step toLowerCase e pg ev = Some pg' ->
  processingStatus (Page.job pg') = processingStatus (Page.job pg)
  /\ sent (Page.job pg') = sent (Page.job pg)
  /\ closures (Page.job pg') = closures (Page.job pg)
  /\ intervals (Page.job pg') = intervals (Page.job pg)
  /\ awaiting_status (Page.job pg') = awaiting_status (Page.job pg)
  /\ awaiting_outputs (Page.job pg') = awaiting_outputs (Page.job pg).
Proof.
  intros Hev H. destruct ev as [jev|answers|index]; cbn [Page.step] in H.
  - by destruct (Hev jev).
  - destruct (mounted (Page.job pg)); [|done]. by injection H as <-.
  - destruct (_ && _); [|done].
    destruct (dropboxFiles (Page.job pg) !! index); [|done].
    by injection H as <-.
Qed.

Lemma page_step_job toLowerCase e pg jev pg' :
  Page.step toLowerCase e pg (Page.Job jev) = Some pg' ->
  step e (Page.job pg) jev = Some (Page.job pg').
Proof.
  cbn [Page.step]. destruct (step e (Page.job pg) jev) as [st|]; [|done].
  by intros [= <-].
Qed.

Lemma page_step_busy toLowerCase e pg ev pg' :
  settled_status (Page.job pg) -> Page.step toLowerCase e pg ev = Some pg' ->
  settled_status (Page.job pg')
  /\ sent (Page.job pg')
     = sent (Page.job pg) ++ sent_since (Page.job pg) (Page.job pg')
  /\ Forall (fun r => 5 <= phase r) (sent_since (Page.job pg) (Page.job pg')).
Proof.
  intros Hbusy H. destruct ev as [jev|answers|index].
  - apply page_step_job in H.
    destruct (step_busy _ _ _ _ Hbusy H) as [Hb Hs].
    split; [done|]. split; [by eapply step_extends|done].
  - apply page_step_picker in H as (Hp & Hs & _); [|done].
    unfold settled_status. rewrite Hp. split; [done|].
    rewrite sent_since_same by done. by rewrite Hs, app_nil_r.
  - apply page_step_picker in H as (Hp & Hs & _); [|done].
    unfold settled_status. rewrite Hp. split; [done|].
    rewrite sent_since_same by done. by rewrite Hs, app_nil_r.
Qed.

(** X10. Once [processVideo] has got past the download (the status is
    processing, error or completed), the status is never idle or uploading
    again, whatever happens on the page, a reload of the file list and the
    choice of another file included: the process button stays disabled,
    also when it reads "Try Again", and none of the five calls of
    [processVideo] (download, upload URL, PUT, finalize, run-agent) is made
    again; of the requests of the job only status and outputs requests can
    follow.  A second job needs a reload of the page. *)
Theorem no_second_job_without_reload
    (toLowerCase : string -> string) (e : environment)
    (pg pg' : Page.page) (evs : list Page.event)
    (Hbusy : status (processingStatus (Page.job pg)) <> idle
             /\ status (processingStatus (Page.job pg)) <> uploading)
    (Hrun : Page.run toLowerCase e pg evs = Some pg') :
  status (processingStatus (Page.job pg')) <> idle
  /\ status (processingStatus (Page.job pg')) <> uploading
  /\ button_enabled (Page.job pg') = false
  /\ (forall srv, Page.step toLowerCase e pg' (Page.Job (Click srv)) = None)
  /\ (status (processingStatus (Page.job pg')) = error ->
      button_text (processingStatus (Page.job pg')) = "Try Again")
  /\ Forall (fun r => 5 <= phase r)
       (sent_since (Page.job pg) (Page.job pg')).
Proof.
  assert (settled_status (Page.job pg')
          /\ sent (Page.job pg')
             = sent (Page.job pg) ++ sent_since (Page.job pg) (Page.job pg')
          /\ Forall (fun r => 5 <= phase r)
               (sent_since (Page.job pg) (Page.job pg'))) as ([Hi Hu] & _ & Hs).
  { revert pg Hbusy Hrun.
    induction evs as [|ev evs IH]; intros pg Hbusy; cbn [Page.run].
    - intros [= <-]. split; [done|]. rewrite sent_since_same by done.
      by rewrite app_nil_r.
    - destruct (Page.step toLowerCase e pg ev) as [pg1|] eqn:Hstep; [|done].
      cbn. intros Hrun.
      destruct (page_step_busy _ _ _ _ _ Hbusy Hstep) as (Hb1 & He1 & Hs1).
      destruct (IH _ Hb1 Hrun) as (Hb' & He' & Hs').
      split; [done|].
      rewrite (sent_since_trans (Page.job pg) (Page.job pg1) (Page.job pg'))
        by done.
      split; [|by apply Forall_app].
      by rewrite He', He1, <- app_assoc. }
  pose proof (not_idle_disabled _ Hi) as Hoff.
  repeat split; try done.
  - intros srv. cbn [Page.step step]. rewrite Hoff.
    by destruct (mounted (Page.job pg')).
  - unfold button_text. by intros ->.
Qed.

Lemma no_second_job_witness :
  status (processingStatus
            (Page.job (Page.with_picker
                         (Files.loadDropboxFiles lower env
                            [Files.Page Inputs.last_page]
                            (Page.picker_of Inputs.failed_page))
                         Inputs.failed_page))) <> idle
  /\ status (processingStatus
               (Page.job (Page.with_picker
                            (Files.loadDropboxFiles lower env
                               [Files.Page Inputs.last_page]
                               (Page.picker_of Inputs.failed_page))
                            Inputs.failed_page))) <> uploading
  /\ button_enabled
       (Page.job (Page.with_picker
                    (Files.loadDropboxFiles lower env
                       [Files.Page Inputs.last_page]
                       (Page.picker_of Inputs.failed_page))
                    Inputs.failed_page)) = false
  /\ (forall srv,
        Page.step lower env
          (Page.with_picker
             (Files.loadDropboxFiles lower env [Files.Page Inputs.last_page]
                (Page.picker_of Inputs.failed_page))
             Inputs.failed_page)
          (Page.Job (Click srv)) = None)
  /\ (status (processingStatus
                (Page.job (Page.with_picker
                             (Files.loadDropboxFiles lower env
                                [Files.Page Inputs.last_page]
                                (Page.picker_of Inputs.failed_page))
                             Inputs.failed_page))) = error ->
      button_text (processingStatus
                     (Page.job (Page.with_picker
                                  (Files.loadDropboxFiles lower env
                                     [Files.Page Inputs.last_page]
                                     (Page.picker_of Inputs.failed_page))
                                  Inputs.failed_page)))
      = "Try Again")
  /\ Forall (fun r => 5 <= phase r)
       (sent_since (Page.job Inputs.failed_page)
          (Page.job (Page.with_picker
                       (Files.loadDropboxFiles lower env
                          [Files.Page Inputs.last_page]
                          (Page.picker_of Inputs.failed_page))
                       Inputs.failed_page))).
Proof.
  apply (no_second_job_without_reload lower env Inputs.failed_page
           (Page.with_picker
              (Files.loadDropboxFiles lower env [Files.Page Inputs.last_page]
                 (Page.picker_of Inputs.failed_page))
              Inputs.failed_page)
           [Page.LoadFiles [Files.Page Inputs.last_page]]).
  - split; vm_compute; discriminate.
  - vm_compute. reflexivity.
Defined.









(** X12. When the outputs arrive the status is "completed" whatever they
    are, but the card "Step 3: Preview & Download" is shown only if some
    output descriptor has a truthy download URL: with none (no outputs, or
    outputs without URL) the user sees "Video processed successfully!" and
    nothing to preview or download. *)
Theorem step3_needs_a_download_url
    (t : nat) (d : outputs_data) (st : app) :
  status (processingStatus (poll_outputs t (Fulfilled d) st)) = completed
  /\ message (processingStatus (poll_outputs t (Fulfilled d) st))
     = Some "Video processed successfully!"
  /\ step3_visible (processingStatus (poll_outputs t (Fulfilled d) st))
     = existsb (fun o => truthy (download_url o)) (descriptors d).
Proof.
  split; [done|]. split; [done|].
  unfold step3_visible, poll_outputs, collect_urls, descriptors. cbn.
  induction (default [] (outputs d)) as [|o os IH]; [done|].
  cbn. destruct (truthy (download_url o)); [done|]. exact IH.
Qed.

(** X13. The run-agent request carries an agent identifier or a prompt,
    never both.  For the types "webinar" and "talking" it carries the agent
    identifier of the environment, no prompt and [auto] false, and it is
    sent all the same when that variable is not set; for the type "prompt"
    it carries no agent identifier, [auto] true and the text of the user,
    or the fixed prompt when the text is empty: never an empty prompt. *)
Theorem run_agent_has_agent_or_prompt
    (e : environment) (srv : server) (st : app)
    (fid : string) (aid pr : option string) (au : bool)
    (Hsent : RunAgent fid aid pr au ∈ sent_since st (processVideo e srv st)) :
  ~ (is_Some aid /\ is_Some pr)
  /\ pr <> Some EmptyString
  /\ (au = true <-> shortType st = prompt)
  /\ (is_Some pr <-> shortType st = prompt)
  /\ (shortType st = webinar -> aid = VITE_WEBINAR_AGENT_ID e)
  /\ (shortType st = talking -> aid = VITE_TALKINGHEAD_AGENT_ID e)
  /\ (shortType st = prompt ->
      pr = Some (if truthy_str (promptText st) then promptText st
                 else "make this an interesting short, add captions, and add in some background ai music")).
Proof.
  assert ((aid, pr, au) = agent_choice e (shortType st) (promptText st))
    as Hchosen.
  { revert Hsent. process_cases e srv st; intros Hsent.
    all: repeat (apply elem_of_cons in Hsent as [Hsent|Hsent];
                 [try discriminate|]).
    all: try (by apply elem_of_nil in Hsent).
    all: by simplify_eq. }
  unfold agent_choice, or_str in Hchosen.
  assert (~ is_Some (@None string)) as Hnone by (by intros [? [=]]).
  destruct (shortType st); simplify_eq.
  - repeat split; try done; try (intros []; by (idtac + exfalso)); tauto.
  - repeat split; try done; try (intros []; by (idtac + exfalso)); tauto.
  - repeat split; try done; try (by eexists); [tauto|].
    destruct (truthy_str (promptText st)) eqn:Htext; [|done].
    intros [= Hempty]. rewrite Hempty in Htext. done.
Qed.

Lemma run_agent_witness :
  ~ (is_Some (Some "agent-webinar") /\ is_Some (@None string))
  /\ @None string <> Some EmptyString
  /\ (false = true <-> shortType picked = prompt)
  /\ (is_Some (@None string) <-> shortType picked = prompt)
  /\ (shortType picked = webinar
      -> Some "agent-webinar" = VITE_WEBINAR_AGENT_ID env)
  /\ (shortType picked = talking
      -> Some "agent-webinar" = VITE_TALKINGHEAD_AGENT_ID env)
  /\ (shortType picked = prompt ->
      None = Some (if truthy_str (promptText picked) then promptText picked
                   else "make this an interesting short, add captions, and add in some background ai music")).
Proof.
  apply (run_agent_has_agent_or_prompt env good_server picked "file-uuid-7").
  vm_compute. repeat constructor.
Defined.

End AppLife.

(** ** The preview: what is left of the imports *)

Section PreviewFacts.
Import Regex Preview Spec Samples.
#[local] Open Scope list_scope.

Lemma starts_import_true prev s :
  starts_import prev s = true
  <-> at_bol prev = true
      /\ exists x tl, s = (105 :: 109 :: 112 :: 111 :: 114 :: 116 :: x :: tl)%N
                       /\ is_white_space x = true.
Proof.
  unfold starts_import. rewrite andb_true_iff. split.
  - intros [Hbol H]. split; [done|].
    destruct (strip (str "import") s) as [[|x tl]|] eqn:Hs; try done.
    apply strip_Some in Hs. exists x, tl. split; [exact Hs|done].
  - intros [Hbol (x & tl & -> & Hws)]. split; [done|].
    change (105 :: 109 :: 112 :: 111 :: 114 :: 116 :: x :: tl)%N
      with (str "import" ++ x :: tl).
    by rewrite strip_app.
Qed.

(** A kept word of one line comes from the same word of the input. *)
Lemma imports_removed_prefix w :
  Forall (fun c => is_line_terminator c = false) w ->
  forall prev s out x tl,
    imports_removed prev s out -> at_bol prev = false ->
    out = w ++ x :: tl -> exists tl', s = w ++ x :: tl'.
Proof.
  induction 1 as [|c w Hc Hw IH]; intros prev s out x tl Hir Hbol Hout.
  - destruct Hir as [prev|prev c s out Hno Hrec|prev seg rest out Hb];
      [done| |congruence].
    simpl in Hout. injection Hout as -> _. by exists s.
  - destruct Hir as [prev|prev c' s out Hno Hrec|prev seg rest out Hb];
      [done| |congruence].
    simpl in Hout. injection Hout as -> Hout.
    destruct (IH (Some c) s out x tl Hrec Hc Hout) as [tl' ->].
    by exists tl'.
Qed.

Lemma starts_import_empty q : starts_import q [] = false.
Proof. unfold starts_import. by destruct (at_bol q). Qed.

Lemma imports_removed_free prev s out :
  imports_removed prev s out ->
  forall q, q = prev \/ at_eol s = true -> import_free q out = true.
Proof.
  induction 1 as [prev|prev c s out Hno Hrec IH|prev seg rest out Hb Hm He Hrec IH];
    intros q Hq.
  - cbn. by rewrite starts_import_empty.
  - cbn [import_free]. apply andb_true_iff. split; [|by apply IH; left].
    destruct (starts_import q (c :: out)) eqn:E; [exfalso|done].
    apply starts_import_true in E as (Hbol & x & tl & Heq & Hws).
    injection Heq as -> Heq.
    destruct (imports_removed_prefix [109; 112; 111; 114; 116]%N
                ltac:(by repeat constructor)
                (Some 105%N) s out x tl Hrec eq_refl Heq) as [tl' ->].
    destruct Hq as [->|Heol]; [|done].
    assert (starts_import prev
              (105 :: [109; 112; 111; 114; 116] ++ x :: tl')%N = true)
      as Hyes by (apply starts_import_true; eauto).
    pose proof (eq_trans (eq_sym Hyes) Hno). discriminate.
  - apply IH. by right.
Qed.

Lemma rewrite_export_nil : rewrite_export [] = [].
Proof. reflexivity. Qed.

Lemma rewrite_export_prefix w :
  Forall (fun c => c <> 102%N) w ->
  forall s x tl, x <> 102%N ->
    rewrite_export s = w ++ x :: tl -> exists tl', s = w ++ x :: tl'.
Proof.
  induction 1 as [|c w Hc Hw IH]; intros s x tl Hx Hout.
  - destruct s as [|c s];
      [rewrite rewrite_export_nil in Hout; discriminate|].
    cbn [rewrite_export] in Hout.
    destruct (export_here (c :: s)) as [n|].
    + change (str "function" ++ drop n (c :: s))
        with (102%N :: str "unction" ++ drop n (c :: s)) in Hout.
      cbn [List.app] in Hout. congruence.
    + cbn [List.app] in Hout. injection Hout as -> _. by exists s.
  - destruct s as [|c' s];
      [rewrite rewrite_export_nil in Hout; discriminate|].
    cbn [rewrite_export] in Hout.
    destruct (export_here (c' :: s)) as [n|].
    + change (str "function" ++ drop n (c' :: s))
        with (102%N :: str "unction" ++ drop n (c' :: s)) in Hout.
      cbn [List.app] in Hout. congruence.
    + cbn [List.app] in Hout. injection Hout as -> Hout.
      destruct (IH s x tl Hx Hout) as [tl' ->]. by exists tl'.
Qed.

Lemma import_free_weaken q c s :
  is_line_terminator c = false ->
  import_free q s = true -> import_free (Some c) s = true.
Proof.
  intros Hc. destruct s as [|d s]; cbn [import_free]; unfold starts_import;
    cbn [at_bol]; rewrite Hc; cbn [andb negb]; [done|].
  rewrite andb_true_iff. by intros [_ ->].
Qed.

Lemma import_free_drop n :
  forall q s, import_free q s = true ->
              import_free (Some 110%N) (drop n s) = true.
Proof.
  induction n as [|n IH]; intros q s H.
  - rewrite drop_0. by apply (import_free_weaken q).
  - destruct s as [|c s]; [done|]. cbn [drop].
    cbn [import_free] in H. apply andb_true_iff in H as [_ H]. by apply (IH _ _ H).
Qed.

Lemma starts_import_head q c s :
  c <> 105%N -> starts_import q (c :: s) = false.
Proof.
  intros Hc. destruct (starts_import q (c :: s)) eqn:E; [|done].
  apply starts_import_true in E as (_ & x & tl & Heq & _).
  congruence.
Qed.

Lemma starts_import_second q c s :
  c <> 109%N -> starts_import q (105%N :: c :: s) = false.
Proof.
  intros Hc. destruct (starts_import q (105%N :: c :: s)) eqn:E; [|done].
  apply starts_import_true in E as (_ & x & tl & Heq & _).
  congruence.
Qed.

Lemma import_free_function q t :
  import_free (Some 110%N) t = true ->
  import_free q (str "function" ++ t) = true.
Proof.
  intros H. change (str "function" ++ t)
    with (102 :: 117 :: 110 :: 99 :: 116 :: 105 :: 111 :: 110 :: t)%N.
  cbn [import_free].
  rewrite !starts_import_head by done.
  rewrite starts_import_second by done.
  cbn [negb andb]. exact H.
Qed.

Lemma rewrite_export_import_free s :
  forall q, import_free q s = true -> import_free q (rewrite_export s) = true.
Proof.
  induction s as [|c s IH]; intros q H.
  - by rewrite rewrite_export_nil.
  - cbn [rewrite_export]. destruct (export_here (c :: s)) as [n|].
    + apply import_free_function. by apply (import_free_drop n q).
    + cbn [import_free] in *. apply andb_true_iff in H as [Hno H].
      apply andb_true_iff. split; [|by apply IH].
      destruct (starts_import q (c :: rewrite_export s)) eqn:E; [exfalso|done].
      apply starts_import_true in E as (Hbol & x & tl & Heq & Hws).
      injection Heq as -> Heq.
      assert (x <> 102%N) as Hx by (by intros ->).
      destruct (rewrite_export_prefix [109; 112; 111; 114; 116]%N
                  ltac:(by repeat constructor) s x tl Hx Heq) as [tl' ->].
      assert (starts_import q
                (105 :: [109; 112; 111; 114; 116] ++ x :: tl')%N = true)
        as Hyes by (apply starts_import_true; eauto).
      apply negb_true_iff in Hno.
      pose proof (eq_trans (eq_sym Hyes) Hno). discriminate.
Qed.

(** X14. In the text that [transformCode] returns, no import begins at the
    start of a line any more, whatever the input: removing the matches of
    the import pattern and rewriting the export cannot bring the two halves
    of an import together.  So the import pattern finds nothing in the
    output, and removing imports from it once more changes nothing. *)
Theorem transformCode_output_has_no_import (code : list code_unit) :
  import_free None (transformCode code) = true
  /\ replace_all import_re [] (transformCode code) = transformCode code.
Proof.
  assert (import_free None (transformCode code) = true) as Hfree.
  { unfold transformCode, replace_all, replace_first.
    rewrite replace_first_rewrite_export. apply rewrite_export_import_free.
    apply (imports_removed_free None code); [|by left].
    by apply (strip_imports_removed (length code)). }
  split; [done|]. unfold replace_all. by apply replace_all_import_free.
Qed.

End PreviewFacts.

(** ** The demo page: the first message and the code shown *)

Section HomeEffectsFacts.
Import Js Route HomeEffects Props.
#[local] Open Scope list_scope.

Lemma sends_initialized renders : sends true renders = 0.
Proof. induction renders as [|m renders IH]; [done|]. exact IH. Qed.

(** X15. The initial message is sent at most once, however often the
    effect runs: exactly once if some run sees an empty list of messages,
    and never otherwise; runs that see the list empty again later (the
    answer has not arrived yet, or the list was cleared) send nothing. *)
Theorem initial_message_sent_once (renders : list (list Message)) :
  sends false renders
  = (if existsb (fun messages => Nat.eqb (length messages) 0) renders
     then 1 else 0)
  /\ sends false renders <= 1
  /\ forall before after,
       sends false (before ++ [[]] ++ after) = 1.
Proof.
  assert (forall l,
            sends false l
            = if existsb (fun messages => Nat.eqb (length messages) 0) l
              then 1 else 0) as Hsends.
  { intros l. induction l as [|m l IH]; [done|].
    cbn [sends existsb]. unfold autoSend. cbn [negb andb].
    destruct (Nat.eqb (length m) 0); cbn [orb andb].
    - by rewrite sends_initialized.
    - exact IH. }
  split; [done|]. split.
  - rewrite Hsends. destruct (existsb _ renders); lia.
  - intros before after. rewrite Hsends, !existsb_app. cbn.
    by rewrite orb_true_r.
Qed.

Lemma strip_prefix_Some w s rest :
  strip_prefix w s = Some rest -> s = w +:+ rest.
Proof.
  revert s. induction w as [|a w IH]; intros s; cbn.
  - by intros [= ->].
  - destruct s as [|c s]; [done|].
    destruct (Ascii.eqb_spec c a) as [->|]; [|done].
    intros H. by rewrite (IH _ H).
Qed.

Lemma until_fence_split r :
  until_fence r = fst <$> split_first closing_fence r.
Proof.
  induction r as [|c r IH].
  - reflexivity.
  - cbn [until_fence split_first].
    destruct (strip_prefix closing_fence (String c r)); [done|].
    rewrite IH. by destruct (split_first closing_fence r) as [[? ?]|].
Qed.

(** Without a closing fence there is no opening fence either. *)
Lemma no_fence_no_code r : until_fence r = None -> match_code r = None.
Proof.
  induction r as [|c r IH]; [done|].
  cbn [until_fence match_code]. unfold code_here.
  destruct (strip_prefix closing_fence (String c r)) eqn:Hclose; [done|].
  destruct (strip_prefix opening_fence (String c r)) eqn:Hopen.
  { exfalso. apply strip_prefix_Some in Hopen. rewrite Hopen in Hclose.
    vm_compute in Hclose. discriminate. }
  destruct (until_fence r); [done|]. intros _. by apply IH.
Qed.

Lemma match_code_skip a s :
  code_here (String a s) = None -> match_code (String a s) = match_code s.
Proof. intros H. cbn [match_code]. by rewrite H. Qed.

Lemma match_code_split s :
  match_code s
  = match split_first opening_fence s with
    | Some (_, r) => until_fence r
    | None => None
    end.
Proof.
  induction s as [|c s IH]; [done|].
  cbn [match_code split_first]. unfold code_here.
  destruct (strip_prefix opening_fence (String c s)) as [rest|] eqn:Hopen.
  - destruct (until_fence rest) eqn:Hrest; [done|].
    apply strip_prefix_Some in Hopen.
    change (opening_fence +:+ rest)
      with (String (Ascii.ascii_of_nat 96)
              ("``tsx" +:+ String (Ascii.ascii_of_nat 10) rest)) in Hopen.
    injection Hopen as -> ->.
    change ("``tsx" +:+ String (Ascii.ascii_of_nat 10) rest)
      with (String (Ascii.ascii_of_nat 96) (String (Ascii.ascii_of_nat 96)
              (String (Ascii.ascii_of_nat 116) (String (Ascii.ascii_of_nat 115)
                 (String (Ascii.ascii_of_nat 120)
                    (String (Ascii.ascii_of_nat 10) rest)))))).
    do 6 (rewrite match_code_skip by reflexivity).
    by apply no_fence_no_code.
  - rewrite IH. by destruct (split_first opening_fence s) as [[? ?]|].
Qed.

Lemma split_first_Some needle hay before after :
  split_first needle hay = Some (before, after) ->
  hay = before +:+ needle +:+ after.
Proof.
  revert before. induction hay as [|c hay IH]; intros before;
    cbn [split_first].
  - destruct (strip_prefix needle EmptyString) as [rest|] eqn:Hs; [|done].
    intros [= <- <-]. by apply strip_prefix_Some in Hs.
  - destruct (strip_prefix needle (String c hay)) as [rest|] eqn:Hs.
    + intros [= <- <-]. by apply strip_prefix_Some in Hs.
    + destruct (split_first needle hay) as [[b a]|]; [|done].
      cbn. intros [= <- <-]. by rewrite (IH b eq_refl).
Qed.

(** X16. The code that the page takes from a message is the text between
    the first opening fence (three backquotes, [tsx], line feed) and the
    first three backquotes after it; when no three backquotes follow the
    first opening fence, nothing is found, also if other fences come
    before. *)
Theorem code_is_first_fenced_block (s : string) :
  match_code s
  = ('(_, r) ← split_first opening_fence s;
     '(code, _) ← split_first closing_fence r;
     Some code)
  /\ forall code,
       match_code s = Some code ->
       exists before after,
         s = before +:+ opening_fence +:+ code +:+ closing_fence +:+ after.
Proof.
  assert (match_code s
          = ('(_, r) ← split_first opening_fence s;
             '(code, _) ← split_first closing_fence r;
             Some code)) as Hcode.
  { rewrite match_code_split.
    destruct (split_first opening_fence s) as [[before r]|]; [|done].
    cbn. rewrite until_fence_split.
    by destruct (split_first closing_fence r) as [[? ?]|]. }
  split; [done|]. intros code. rewrite Hcode.
  destruct (split_first opening_fence s) as [[before r]|] eqn:Hopen; [|done].
  cbn. destruct (split_first closing_fence r) as [[code' after]|] eqn:Hclose;
    [|done].
  cbn. intros [= ->]. exists before, after.
  apply split_first_Some in Hopen, Hclose. by rewrite Hopen, Hclose.
Qed.

Lemma match_code_empty : match_code EmptyString = None.
Proof. reflexivity. Qed.

(** X17. The code shown follows the last assistant message only.  The
    effect runs whenever the messages change.  When it has run on the
    messages so far and a message of another role is appended, its next run
    leaves the code as it is.  When an assistant message is appended, the
    next run sets the code to the first complete code block of that
    message, and leaves the code as it is when the message has none (no
    block, or a block that is not closed yet), whatever the messages before
    it hold. *)
Theorem code_follows_last_assistant_message
    (messages : list Message) (m : Message) (code : string) :
  (role m <> "assistant" ->
   extractCode (messages ++ [m]) (extractCode messages code)
   = extractCode messages code)
  /\ (role m = "assistant" -> match_code (content m) = None ->
      extractCode (messages ++ [m]) code = code)
  /\ (forall found,
        role m = "assistant" -> match_code (content m) = Some found ->
        extractCode (messages ++ [m]) code = found).
Proof.
  assert (forall c, role m = "assistant" ->
            extractCode (messages ++ [m]) c = default c (match_code (content m)))
    as Hlast.
  { intros c Hrole. unfold extractCode, lastAssistantMessage.
    rewrite List.filter_app. cbn [List.filter].
    apply str_eq_true in Hrole. rewrite Hrole. rewrite last_snoc.
    destruct (truthy_str (content m)) eqn:Htext; [done|].
    unfold truthy_str in Htext. apply negb_false_iff, str_eq_true in Htext.
    by rewrite Htext. }
  split; [|split].
  - intros Hrole. unfold extractCode, lastAssistantMessage.
    rewrite List.filter_app. cbn [List.filter].
    apply str_eq_false in Hrole. rewrite Hrole, app_nil_r.
    destruct (last (List.filter _ messages)) as [m'|]; [|done].
    destruct (truthy_str (content m')); [|done].
    by destruct (match_code (content m')).
  - intros Hrole Hnone. by rewrite Hlast, Hnone.
  - intros found Hrole Hfound. by rewrite Hlast, Hfound.
Qed.

End HomeEffectsFacts.

(** ** The MCP transport *)

Section TransportFacts.
Import Js Transport.
#[local] Open Scope list_scope.

Lemma attempt_calls t f :
  (fst (attempt t f) = []
   /\ (forall result, f = Ok (Fulfilled result) -> messageHandler t = None))
  \/ exists result h,
       f = Ok (Fulfilled result) /\ messageHandler t = Some h
       /\ attempt t f = ([OnMessage result], h result).
Proof.
  destruct f as [m|status [m|text]|[m|result]]; cbn; try (by left).
  destruct (messageHandler t) as [h|]; [|by left].
  right. by exists result, h.
Qed.


(** X19. [send] calls the message handler at most once, with the parsed
    body of an OK response and with nothing else, and the error handler at
    most once and last.  An error that the message handler throws is given
    to the error handler of the same transport like a failure of the
    request. *)
Theorem send_calls_handlers_once (t : transport) (f : fetched) :
  (fst (send t f) = []
   \/ (exists error, fst (send t f) = [OnError error])
   \/ (exists result, fst (send t f) = [OnMessage result])
   \/ (exists result error, fst (send t f) = [OnMessage result; OnError error]))
  /\ (forall result,
        OnMessage result ∈ fst (send t f) ->
        f = Ok (Fulfilled result) /\ is_Some (messageHandler t))
  /\ (forall result hm he error,
        f = Ok (Fulfilled result) -> messageHandler t = Some hm ->
        errorHandler t = Some he -> hm result = Some error ->
        fst (send t f) = [OnMessage result; OnError error]).
Proof.
  split; [|split].
  - unfold send.
    destruct (attempt_calls t f) as [[Hnil _]|(r & h & _ & _ & ->)].
    + destruct (attempt t f) as [calls [error|]]; cbn in Hnil; subst.
      * destruct (errorHandler t); cbn; eauto.
      * by left.
    + destruct (h r) as [error|]; [destruct (errorHandler t)|]; cbn; eauto 10.
  - intros result Hin. unfold send in Hin.
    destruct (attempt_calls t f) as [[Hnil _]|(r & h & -> & Hh & Hc)].
    + destruct (attempt t f) as [calls [error|]]; cbn in Hnil; subst.
      * destruct (errorHandler t); cbn in Hin.
        -- apply list_elem_of_singleton in Hin. discriminate.
        -- by apply elem_of_nil in Hin.
      * by apply elem_of_nil in Hin.
    + rewrite Hc in Hin.
      assert (OnMessage result ∈ [OnMessage r]
              \/ exists e, OnMessage result ∈ [OnMessage r; OnError e])
        as [Hr|[e Hr]].
      { destruct (h r) as [e|]; [destruct (errorHandler t)|]; cbn in Hin;
          eauto. }
      * apply list_elem_of_singleton in Hr. injection Hr as ->. eauto.
      * apply elem_of_cons in Hr as [Hr|Hr]; [injection Hr as ->; eauto|].
        apply list_elem_of_singleton in Hr. discriminate.
  - intros result hm he error -> Hm He Herr. unfold send. cbn.
    by rewrite Hm, Herr, He.
Qed.

End TransportFacts.
